(** * Notemd-mcp: the document pipeline, embedded and verified

    A shallow embedding of the TypeScript sources
      - [src/processors/markdown.ts]     (processMarkdown, normalizeKeyword,
                                          applyRules)
      - [src/processors/fileSplitter.ts] (splitMarkdown; its text follows
                                          that of fileCleaner.ts, lines 59-95)
      - [src/processors/fileCleaner.ts]  (cleanDuplicateFiles,
                                          normalizeFileName, sortFilesByAge)
      - [src/backlinks.ts]               (createBacklinks)
      - [src/llm/providers.ts]           (getProvider)
    followed by the theorems about them.

    JavaScript strings are sequences of UTF-16 code units; a code unit is
    an [N].  Regular expressions are run by a small backtracking matcher
    with the priority rules of ECMAScript (ordered alternation, greedy
    quantifiers); every pattern of the sources is written as a [regex]
    term that follows the pattern token by token. *)

From Stdlib Require Import Ascii String DecimalString.
From Stdlib Require Import List Bool Arith NArith ZArith Lia Permutation Sorted.
Import Corelib.Init.Datatypes.
Import ListNotations.

Set Implicit Arguments.

(* ================================================================== *)
(** * JavaScript strings *)
(* ================================================================== *)

Module JS.

Definition jschar := N.
Definition jsstring := list jschar.

(** A string literal of the source, as code units. *)
Definition str (s : string) : jsstring :=
  map N_of_ascii (list_ascii_of_string s).
Arguments str s%_string.

Definition chr (a : ascii) : jschar := N_of_ascii a.

(** The line feed, for writing literals. *)
Definition NL : string := String "010" EmptyString.

Definition jschar_eqb : jschar -> jschar -> bool := N.eqb.

Fixpoint jsstring_eqb (a b : jsstring) : bool :=
  match a, b with
  | [], [] => true
  | x :: a', y :: b' => N.eqb x y && jsstring_eqb a' b'
  | _, _ => false
  end.

Definition jsstring_eq_dec : forall a b : jsstring, {a = b} + {a <> b} :=
  list_eq_dec N.eq_dec.

(** [WhiteSpace] and [LineTerminator] of ECMAScript: the set behind
    [\s] and behind [String.prototype.trim]. *)
Definition is_space (c : jschar) : bool :=
  ((9 <=? c) && (c <=? 13) || (c =? 32) || (c =? 160) || (c =? 5760)
   || (8192 <=? c) && (c <=? 8202) || (c =? 8232) || (c =? 8233)
   || (c =? 8239) || (c =? 8287) || (c =? 12288) || (c =? 65279))%N.

Definition is_upper (c : jschar) : bool := ((65 <=? c) && (c <=? 90))%N.
Definition is_lower (c : jschar) : bool := ((97 <=? c) && (c <=? 122))%N.
Definition is_digit (c : jschar) : bool := ((48 <=? c) && (c <=? 57))%N.

(** [\w] without the [u] flag: [A-Za-z0-9_]. *)
Definition is_word (c : jschar) : bool :=
  is_upper c || is_lower c || is_digit c || (c =? 95)%N.

(** Lower-casing of one code unit on the ASCII range.  It is used only
    on strings that are known to hold nothing but [\w] characters, where
    [String.prototype.toLowerCase] does exactly this. *)
Definition lower_ascii (c : jschar) : jschar :=
  if is_upper c then (c + 32)%N else c.

Definition toLowerCase_ascii (s : jsstring) : jsstring := map lower_ascii s.

(** [s.endsWith(suffix)] *)
Definition endsWith (s suffix : jsstring) : bool :=
  (length suffix <=? length s)
  && jsstring_eqb (skipn (length s - length suffix) s) suffix.

(** [s.slice(0, -n)] for a positive [n]: all but the last [n] code units
    (empty when the string is shorter than [n]). *)
Definition slice_to_minus (n : nat) (s : jsstring) : jsstring :=
  firstn (length s - n) s.

Fixpoint startsWith (s pre : jsstring) {struct pre} : bool :=
  match pre, s with
  | [], _ => true
  | p :: pre', c :: s' => N.eqb p c && startsWith s' pre'
  | _ :: _, [] => false
  end.

(** [s.includes(t)] *)
Fixpoint includes (s t : jsstring) : bool :=
  startsWith s t ||
  match s with
  | [] => false
  | _ :: s' => includes s' t
  end.

Fixpoint dropWhile (p : jschar -> bool) (s : jsstring) : jsstring :=
  match s with
  | [] => []
  | c :: s' => if p c then dropWhile p s' else s
  end.

(** [s.trim()] *)
Definition trim (s : jsstring) : jsstring :=
  rev (dropWhile is_space (rev (dropWhile is_space s))).

(** [parts.join(sep)] on an array of strings. *)
Fixpoint join (sep : jsstring) (parts : list jsstring) : jsstring :=
  match parts with
  | [] => []
  | [p] => p
  | p :: rest => p ++ sep ++ join sep rest
  end.

End JS.
Export JS.

(* ================================================================== *)
(** * Regular expressions *)
(* ================================================================== *)

Module Regex.

(** The constructs the patterns of the sources use.  Every pattern has at
    most one capturing group, and never inside a quantifier, so one
    capture slot is enough. *)
Inductive regex : Type :=
| Empty                          (* the empty pattern *)
| Chr (p : jschar -> bool)       (* a class, or a literal as a singleton *)
| Seq (r1 r2 : regex)            (* r1 r2 *)
| Alt (r1 r2 : regex)            (* r1|r2, left alternative first *)
| Star (r : regex)               (* r*, greedy *)
| Group (r : regex)              (* (r) *)
| Bol                            (* ^ *)
| Eol                            (* $ *)
| WordB.                         (* \b *)

Definition Plus (r : regex) : regex := Seq r (Star r).
Definition Opt (r : regex) : regex := Alt r Empty.

Fixpoint Rep (n : nat) (r : regex) : regex :=
  match n with
  | O => Empty
  | S n' => Seq r (Rep n' r)
  end.

Definition lit (a : ascii) : regex := Chr (N.eqb (chr a)).

(** A literal under the [i] flag: for an ASCII pattern character the
    canonicalisation of ECMAScript (upper-casing that never maps a code
    unit above 127 into ASCII) accepts exactly its two ASCII cases. *)
Definition lit_i (c : jschar) : regex :=
  Chr (fun d => N.eqb (lower_ascii c) (lower_ascii d)).

Fixpoint Lit (s : jsstring) : regex :=
  match s with
  | [] => Empty
  | c :: s' => Seq (Chr (N.eqb c)) (Lit s')
  end.

Fixpoint Lit_i (s : jsstring) : regex :=
  match s with
  | [] => Empty
  | c :: s' => Seq (lit_i c) (Lit_i s')
  end.

(** What a successful match hands back: the unread input and the
    capture. *)
Definition outcome := (jsstring * option jsstring)%type.

(** A continuation gets the code unit before the position, the unread
    input and the capture so far. *)
Definition cont := option jschar -> jsstring -> option jsstring -> option outcome.

Definition orElse (a b : option outcome) : option outcome :=
  match a with
  | Some x => Some x
  | None => b
  end.

Definition word_before (prev : option jschar) : bool :=
  match prev with
  | Some c => is_word c
  | None => false
  end.

Definition word_after (s : jsstring) : bool :=
  match s with
  | c :: _ => is_word c
  | [] => false
  end.

(** The greedy loop of [r*]: one more iteration first, the continuation
    after it only when that fails.  An iteration that reads nothing is
    rejected, as RepeatMatcher does. *)
Fixpoint star_loop (m : option jschar -> jsstring -> option jsstring -> cont -> option outcome)
    (k : cont) (fuel : nat) (prev : option jschar) (s : jsstring)
    (cap : option jsstring) {struct fuel} : option outcome :=
  match fuel with
  | O => k prev s cap
  | S fuel' =>
      orElse
        (m prev s cap
           (fun prev' s' cap' =>
              if length s' <? length s
              then star_loop m k fuel' prev' s' cap'
              else None))
        (k prev s cap)
  end.

Fixpoint rmatch (r : regex) (prev : option jschar) (s : jsstring)
    (cap : option jsstring) (k : cont) {struct r} : option outcome :=
  match r with
  | Empty => k prev s cap
  | Chr p =>
      match s with
      | c :: s' => if p c then k (Some c) s' cap else None
      | [] => None
      end
  | Seq r1 r2 =>
      rmatch r1 prev s cap (fun prev' s' cap' => rmatch r2 prev' s' cap' k)
  | Alt r1 r2 => orElse (rmatch r1 prev s cap k) (rmatch r2 prev s cap k)
  | Star r1 => star_loop (rmatch r1) k (S (length s)) prev s cap
  | Group r1 =>
      rmatch r1 prev s cap
        (fun prev' s' _ =>
           k prev' s' (Some (firstn (length s - length s') s)))
  | Bol => match prev with None => k prev s cap | Some _ => None end
  | Eol => match s with [] => k prev s cap | _ :: _ => None end
  | WordB =>
      if xorb (word_before prev) (word_after s) then k prev s cap else None
  end.

(** One match attempt at the current position: the matched text, the
    capture, the unread input. *)
Definition exec (r : regex) (prev : option jschar) (s : jsstring)
  : option (jsstring * option jsstring * jsstring) :=
  match rmatch r prev s None (fun _ s' cap' => Some (s', cap')) with
  | Some (s', cap') => Some (firstn (length s - length s') s, cap', s')
  | None => None
  end.

(** The input cut by the successive matches of a global pattern. *)
Inductive segment : Type :=
| Plain (c : jschar)
| Span (m : jsstring) (cap : option jsstring).

Fixpoint scan (fuel : nat) (r : regex) (prev : option jschar) (s : jsstring)
  : list segment :=
  match fuel with
  | O => map Plain s
  | S fuel' =>
      let step :=
        match s with
        | [] => []
        | c :: s' => Plain c :: scan fuel' r (Some c) s'
        end in
      match exec r prev s with
      | Some (c :: m, cap, rest) =>
          Span (c :: m) cap :: scan fuel' r (Some (last m c)) rest
      | Some ([], cap, _) => Span [] cap :: step
      | None => step
      end
  end.

(** All matches from the start, left to right, none overlapping: what
    [matchAll], a global [replace] and [split] iterate over. *)
Definition matchAll (r : regex) (s : jsstring) : list segment :=
  scan (S (length s)) r None s.

Definition source (g : segment) : jsstring :=
  match g with
  | Plain c => [c]
  | Span m _ => m
  end.

(** [s.replace(/r/g, f)] for a replacer without state. *)
Definition replaceAll (r : regex) (f : jsstring -> option jsstring -> jsstring)
    (s : jsstring) : jsstring :=
  concat (map (fun g => match g with
                        | Plain c => [c]
                        | Span m cap => f m cap
                        end) (matchAll r s)).

(** [s.replace(/r/, t)]: the first match only. *)
Fixpoint replaceFirst_segs (t : jsstring) (segs : list segment) : jsstring :=
  match segs with
  | [] => []
  | Plain c :: tl => c :: replaceFirst_segs t tl
  | Span _ _ :: tl => t ++ concat (map source tl)
  end.

Definition replaceFirst (r : regex) (t : jsstring) (s : jsstring) : jsstring :=
  replaceFirst_segs t (matchAll r s).

(** [s.match(/r/g) || []] *)
Definition matches (r : regex) (s : jsstring) : list jsstring :=
  flat_map (fun g => match g with
                     | Plain _ => []
                     | Span m _ => [m]
                     end) (matchAll r s).

(** [/r/.test(s)] *)
Definition test (r : regex) (s : jsstring) : bool :=
  existsb (fun g => match g with Plain _ => false | Span _ _ => true end)
          (matchAll r s).

(** [s.split(/r/)] for a pattern that cannot match the empty string (both
    separators of the sources are such): the pieces between the matches,
    each match contributing its capture when the pattern has a group. *)
Fixpoint split_segs (cur : jsstring) (segs : list segment) : list jsstring :=
  match segs with
  | [] => [cur]
  | Plain c :: tl => split_segs (cur ++ [c]) tl
  | Span _ cap :: tl =>
      cur :: match cap with
             | Some g => g :: split_segs [] tl
             | None => split_segs [] tl
             end
  end.

Definition split (r : regex) (s : jsstring) : list jsstring :=
  split_segs [] (matchAll r s).

(** The texts a pattern can match, whatever the context: assertions are
    taken as matching the empty text.  The matcher is sound for it. *)
Inductive Matches : regex -> jsstring -> Prop :=
| MEmpty : Matches Empty []
| MChr p c : p c = true -> Matches (Chr p) [c]
| MSeq r1 r2 m1 m2 : Matches r1 m1 -> Matches r2 m2 -> Matches (Seq r1 r2) (m1 ++ m2)
| MAltL r1 r2 m : Matches r1 m -> Matches (Alt r1 r2) m
| MAltR r1 r2 m : Matches r2 m -> Matches (Alt r1 r2) m
| MStarNil r : Matches (Star r) []
| MStarApp r m1 m2 : Matches r m1 -> Matches (Star r) m2 -> Matches (Star r) (m1 ++ m2)
| MGroup r m : Matches r m -> Matches (Group r) m
| MBol : Matches Bol []
| MEol : Matches Eol []
| MWordB : Matches WordB [].

Fixpoint has_group (r : regex) : bool :=
  match r with
  | Group _ => true
  | Seq r1 r2 | Alt r1 r2 => has_group r1 || has_group r2
  | Star r1 => has_group r1
  | _ => false
  end.

Definition is_span (g : segment) : bool :=
  match g with
  | Plain _ => false
  | Span _ _ => true
  end.

(** What it means for a matcher [m] to be sound for a set of texts [L]:
    whenever it succeeds it has read some text of [L] off the input and
    the continuation has succeeded on the rest; [keeps] tells that the
    capture is handed on untouched. *)
Definition sound_for (L : jsstring -> Prop) (keeps : bool)
    (m : option jschar -> jsstring -> option jsstring -> cont -> option outcome) : Prop :=
  forall prev s cap k x,
    m prev s cap k = Some x ->
    exists t s' prev' cap',
      s = t ++ s' /\ L t /\ k prev' s' cap' = Some x
      /\ (keeps = true -> cap' = cap).

(** A property of the match and capture of every span. *)
Definition span_has (P : jsstring -> option jsstring -> Prop) (g : segment) : Prop :=
  match g with
  | Plain _ => True
  | Span m cap => P m cap
  end.

End Regex.
Export Regex.

(* ================================================================== *)
(** * src/processors/markdown.ts: keyword normalisation and the rules *)
(* ================================================================== *)

Module Markdown.

(** [normalizeKeyword], lines 111-124. *)
Definition normalizeKeyword (keyword : jsstring) : jsstring :=
  if endsWith keyword (str "s") && (1 <? length keyword) then
    let singular := slice_to_minus 1 keyword in
    if endsWith keyword (str "es") then slice_to_minus 2 keyword
    else if endsWith keyword (str "ies") then slice_to_minus 3 keyword ++ str "y"
    else singular
  else keyword.

(** [PROCESSING_RULES] of src/processors/prompts.ts. *)
Record ProcessingRules : Type := {
  NO_CONTENT_CHANGES : bool;
  SKIP_CONVENTIONAL_NAMES : bool;
  OUTPUT_FULL_CONTENT : bool;
  REMOVE_DUPLICATES : bool;
  IGNORE_REFERENCES : bool
}.

Definition PROCESSING_RULES : ProcessingRules := {|
  NO_CONTENT_CHANGES := true;
  SKIP_CONVENTIONAL_NAMES := true;
  OUTPUT_FULL_CONTENT := true;
  REMOVE_DUPLICATES := true;
  IGNORE_REFERENCES := true
|}.

Definition not_bracket (c : jschar) : bool :=
  negb (N.eqb c (chr "[") || N.eqb c (chr "]")).

(** [/\[\[(?:[A-Z][a-z]+(?: [A-Z][a-z]+)*|[\d]{4}s?)\]\]/g] *)
Definition re_conventional_name : regex :=
  Seq (Lit (str "[["))
   (Seq (Alt (Seq (Chr is_upper)
               (Seq (Plus (Chr is_lower))
                    (Star (Seq (lit " ")
                               (Seq (Chr is_upper) (Plus (Chr is_lower)))))))
             (Seq (Rep 4 (Chr is_digit)) (Opt (lit "s"))))
        (Lit (str "]]"))).

(** [/\[\[([^\[\]]+)\]\]/g] *)
Definition re_markup : regex :=
  Seq (Lit (str "[["))
      (Seq (Group (Plus (Chr not_bracket))) (Lit (str "]]"))).

(** [/\[\[(?:@|https?:\/\/)[^\[\]]+\]\]/g] *)
Definition re_reference : regex :=
  Seq (Lit (str "[["))
   (Seq (Alt (lit "@")
             (Seq (Lit (str "http")) (Seq (Opt (lit "s")) (Lit (str "://")))))
        (Seq (Plus (Chr not_bracket)) (Lit (str "]]")))).

(** Rule 2, lines 151-156: the name/number filter. *)
Definition skipConventionalNames (processed : jsstring) : jsstring :=
  replaceAll re_conventional_name (fun _ _ => []) processed.

(** [seen.has(x)] on the insertion-ordered [Set<string>]. *)
Definition has (seen : list jsstring) (x : jsstring) : bool :=
  existsb (jsstring_eqb x) seen.

(** The replacer of rule 4 run over the successive matches, with the set
    [seen] it closes over.  A match of [re_markup] always carries its
    capture; the [None] case is there for totality only. *)
Fixpoint dedupe (seen : list jsstring) (segs : list segment) : jsstring :=
  match segs with
  | [] => []
  | Plain c :: tl => c :: dedupe seen tl
  | Span m None :: tl => m ++ dedupe seen tl
  | Span m (Some keyword) :: tl =>
      let normalized := normalizeKeyword keyword in
      if has seen normalized
      then keyword ++ dedupe seen tl
      else m ++ dedupe (seen ++ [normalized]) tl
  end.

(** Rule 4, lines 161-167: duplicate suppression. *)
Definition removeDuplicates (processed : jsstring) : jsstring :=
  dedupe [] (matchAll re_markup processed).

(** Rule 5, lines 170-172: the reference filter. *)
Definition ignoreReferences (processed : jsstring) : jsstring :=
  replaceAll re_reference (fun _ _ => []) processed.

(** [applyRules], lines 144-175, over the rule switches. *)
Definition applyRulesWith (rules : ProcessingRules) (content : jsstring) : jsstring :=
  let processed := content in
  let processed :=
    if SKIP_CONVENTIONAL_NAMES rules
    then skipConventionalNames processed else processed in
  let processed :=
    if REMOVE_DUPLICATES rules
    then removeDuplicates processed else processed in
  let processed :=
    if IGNORE_REFERENCES rules
    then ignoreReferences processed else processed in
  processed.

Definition applyRules (content : jsstring) : jsstring :=
  applyRulesWith PROCESSING_RULES content.

(** For the statements below. *)

(** The text of a markup span around [keyword]. *)
Definition markup (keyword : jsstring) : jsstring :=
  str "[[" ++ keyword ++ str "]]".

(** A span of [re_markup]: brackets around a non-empty bracket-free
    content, which is its capture. *)
Definition markup_span (m : jsstring) (cap : option jsstring) : Prop :=
  exists keyword,
    m = markup keyword /\ cap = Some keyword
    /\ keyword <> [] /\ forallb not_bracket keyword = true.

(** The first-occurrence rule said without the set: a span stays markup
    exactly when no earlier span, kept or not, has its normalised form;
    otherwise its content stands in its place.  [earlier] holds the
    contents of the spans already passed. *)
Fixpoint keepFirst (earlier : list jsstring) (segs : list segment) : jsstring :=
  match segs with
  | [] => []
  | Plain c :: tl => c :: keepFirst earlier tl
  | Span m None :: tl => m ++ keepFirst earlier tl
  | Span m (Some keyword) :: tl =>
      (if existsb (fun k => jsstring_eqb (normalizeKeyword k)
                                         (normalizeKeyword keyword)) earlier
       then keyword else m)
      ++ keepFirst (earlier ++ [keyword]) tl
  end.

(** A text without an opening bracket. *)
Definition plain (t : jsstring) : Prop :=
  forallb (fun c => negb (N.eqb c (chr "["))) t = true.

(** A document written as bracket-free texts and markup spans. *)
Inductive item : Type :=
| Text (t : jsstring)
| Link (keyword : jsstring).

Definition item_ok (i : item) : Prop :=
  match i with
  | Text t => plain t
  | Link keyword => keyword <> [] /\ forallb not_bracket keyword = true
  end.

Definition render (d : list item) : jsstring :=
  concat (map (fun i => match i with
                        | Text t => t
                        | Link keyword => markup keyword
                        end) d).

Definition segments_of (d : list item) : list segment :=
  flat_map (fun i => match i with
                     | Text t => map Plain t
                     | Link keyword => [Span (markup keyword) (Some keyword)]
                     end) d.

(** The rule switches with duplicate suppression alone. *)
Definition onlyRemoveDuplicates : ProcessingRules := {|
  NO_CONTENT_CHANGES := true;
  SKIP_CONVENTIONAL_NAMES := false;
  OUTPUT_FULL_CONTENT := true;
  REMOVE_DUPLICATES := true;
  IGNORE_REFERENCES := false
|}.

(** A text in which a given character does not occur. *)
Definition lacks (a : ascii) (t : jsstring) : Prop :=
  forallb (fun c => negb (N.eqb c (chr a))) t = true.

End Markdown.
Export Markdown.

(* ================================================================== *)
(** * Logging *)
(* ================================================================== *)

Module Log.

Inductive level : Type := DEBUG | INFO | WARN | ERROR.

(** One call of [logger.debug/info/warn/error]: the message text, and the
    error value when one is passed or interpolated. *)
Record entry (E : Type) : Type := Entry {
  entry_level : level;
  entry_message : jsstring;
  entry_error : option E
}.

Arguments Entry {E} _ _ _.

(** Decimal text of a non-negative integer, as template literals print
    it. *)
Definition dec (n : nat) : jsstring :=
  str (NilEmpty.string_of_uint (Nat.to_uint n)).

End Log.
Export Log.

(* ================================================================== *)
(** * src/processors/fileSplitter.ts: the chunker *)
(* ================================================================== *)

Module Splitter.

(** [/(\n\s*\n+)/] *)
Definition re_paragraph_break : regex :=
  Group (Seq (lit "010") (Seq (Star (Chr is_space)) (Plus (lit "010")))).

(** [/\s+/] *)
Definition re_whitespace : regex := Plus (Chr is_space).

(** The three variables the loop updates. *)
Record splitter : Type := {
  chunks : list jsstring;
  currentChunk : list jsstring;
  currentCount : Z
}.

(** [para.split(/\s+/).length] *)
Definition paraWordCount (para : jsstring) : Z :=
  Z.of_nat (length (split re_whitespace para)).

(** One round of the loop of lines 69-83, on [para = paragraphs[i]] and
    [sep = paragraphs[i+1] || '']. *)
Definition splitStep (chunkSize : Z) (para sep : jsstring) (st : splitter)
  : splitter :=
  match trim para with
  | [] => st                                     (* continue *)
  | _ :: _ =>
      let n := paraWordCount para in
      let st1 :=
        if (currentCount st + n >? chunkSize)%Z && (currentCount st >? 0)%Z
        then {| chunks := chunks st ++ [concat (currentChunk st)];
                currentChunk := [];
                currentCount := 0 |}
        else st in
      {| chunks := chunks st1;
         currentChunk := currentChunk st1 ++ [para ++ sep];
         currentCount := (currentCount st1 + n)%Z |}
  end.

(** [for (let i = 0; i < paragraphs.length; i += 2)] *)
Fixpoint splitLoop (chunkSize : Z) (paragraphs : list jsstring) (st : splitter)
  : splitter :=
  match paragraphs with
  | [] => st
  | [para] => splitStep chunkSize para [] st
  | para :: sep :: rest => splitLoop chunkSize rest (splitStep chunkSize para sep st)
  end.

(** [splitMarkdown], lines 59-95: the chunks and the line it logs.
    Nothing in the [try] block can throw, so the [catch] branch has no
    counterpart.  [chunkSize] is an integer here. *)
Definition splitMarkdown {E : Type} (content : jsstring) (chunkSize : Z)
  : list jsstring * list (entry E) :=
  let paragraphs := split re_paragraph_break content in
  let st := splitLoop chunkSize paragraphs
              {| chunks := []; currentChunk := []; currentCount := 0 |} in
  let chunks :=
    match currentChunk st with
    | [] => chunks st
    | _ :: _ => chunks st ++ [concat (currentChunk st)]
    end in
  (chunks,
   [Entry INFO (str "Split content into " ++ dec (length chunks) ++ str " chunks") None]).

(** The number of whitespace-delimited tokens of a text: its maximal runs
    of non-whitespace code units.  [inside] tells whether the position
    before [s] is within a token. *)
Fixpoint countTokens (inside : bool) (s : jsstring) : nat :=
  match s with
  | [] => 0
  | c :: s' =>
      if is_space c then countTokens false s'
      else if inside then countTokens true s'
      else S (countTokens true s')
  end.

Definition tokenCount (s : jsstring) : nat := countTokens false s.

(** For the statements below. *)

(** The paragraphs of a split text, each with the separator that follows
    it (none after the last): the pairs [(paragraphs[i], paragraphs[i+1]
    || '')] for even [i]. *)
Fixpoint units (paragraphs : list jsstring) : list (jsstring * jsstring) :=
  match paragraphs with
  | [] => []
  | [para] => [(para, [])]
  | para :: sep :: rest => (para, sep) :: units rest
  end.

Definition unitText (u : jsstring * jsstring) : jsstring := fst u ++ snd u.

(** The text of a chunk made of the given paragraphs. *)
Definition flatten (g : list (jsstring * jsstring)) : jsstring :=
  concat (map unitText g).

(** [!para.trim()] *)
Definition blank (para : jsstring) : bool :=
  match trim para with
  | [] => true
  | _ :: _ => false
  end.

Definition allSpace (s : jsstring) : Prop := forallb is_space s = true.

(** A chunk within the bound, or a single paragraph that alone exceeds
    it. *)
Definition chunkOk (chunkSize : Z) (g : list (jsstring * jsstring)) : Prop :=
  g <> []
  /\ ((Z.of_nat (tokenCount (flatten g)) <= chunkSize)%Z
      \/ exists u, g = [u] /\ (chunkSize < Z.of_nat (tokenCount (fst u)))%Z).

(** The segments of a text cut at its whitespace: runs of whitespace as
    spans, everything else character by character. *)
Definition cutAtSpace (g : segment) : Prop :=
  match g with
  | Plain c => is_space c = false
  | Span m _ => m <> [] /\ allSpace m
  end.

(** A span of [re_paragraph_break]: non-empty whitespace, captured
    whole. *)
Definition breakSpan (m : jsstring) (cap : option jsstring) : Prop :=
  cap = Some m /\ allSpace m /\ m <> [].

Definition sumZ (l : list Z) : Z := fold_right Z.add 0%Z l.

(** What holds of the loop variables after the paragraphs [us]: the
    closed chunks [done] and the open one [cur] are the non-blank
    paragraphs so far, in order; the closed ones are within the bound or
    single; the running count is the sum of the counts of the open
    chunk, and is within the bound once the open chunk has two
    paragraphs. *)
Definition splitInv (chunkSize : Z) (us : list (jsstring * jsstring))
    (st : splitter) : Prop :=
  exists done cur,
    concat done ++ cur = filter (fun u => negb (blank (fst u))) us
    /\ chunks st = map flatten done
    /\ currentChunk st = map unitText cur
    /\ currentCount st = sumZ (map (fun u => paraWordCount (fst u)) cur)
    /\ Forall (chunkOk chunkSize) done
    /\ Forall (fun u => allSpace (snd u)) cur
    /\ (2 <= length cur -> (currentCount st <= chunkSize)%Z).

End Splitter.
Export Splitter.

(* ================================================================== *)
(** * src/processors/markdown.ts: the chunk orchestration *)
(* ================================================================== *)

Module Orchestrator.

Section WithProvider.

(** The annotation backend.  [B] is whatever the provider and the service
    behind it remember between calls, [E] the values its promise can
    reject with.  A call takes the state before it and gives the state
    after it, with the resolved text or the rejection. *)
Variable B : Type.
Variable E : Type.
Variable provider_processMarkdown : B -> jsstring -> B * (jsstring + E).

(** What the orchestration loop has done so far: the backend state, the
    arguments of the backend calls in the order they were made, and the
    log. *)
Record world : Type := {
  backend : B;
  calls : list jsstring;
  log : list (entry E)
}.

Definition logged (e : entry E) (w : world) : world :=
  {| backend := backend w; calls := calls w; log := log w ++ [e] |}.

(** [await provider.processMarkdown(chunk)] *)
Definition call (chunk : jsstring) (w : world) : world * (jsstring + E) :=
  let (b', r) := provider_processMarkdown (backend w) chunk in
  ({| backend := b'; calls := calls w ++ [chunk]; log := log w |}, r).

(** Step 1, lines 43-45. *)
Definition selectChunks (content : jsstring) (chunkSize : Z) (w : world)
  : world * list jsstring :=
  if (Z.of_nat (length content) >? chunkSize * 2)%Z
  then let (cs, l) := splitMarkdown content chunkSize in
       ({| backend := backend w; calls := calls w; log := log w ++ l |}, cs)
  else (w, [content]).

(** The body of the loop of step 2, lines 50-58, for the chunk at
    [index] out of [total]. *)
Definition processChunk (total index : nat) (chunk : jsstring)
    (w : world) (processedChunks : list jsstring) : world * list jsstring :=
  let w := logged (Entry DEBUG
                     (str "Processing chunk " ++ dec (index + 1) ++ str " ("
                      ++ dec (length chunk) ++ str " chars)") None) w in
  let (w, r) := call chunk w in
  match r with
  | inl processed =>
      (logged (Entry DEBUG
                 (str "Successfully processed chunk " ++ dec (index + 1)
                  ++ str "/" ++ dec total) None) w,
       processedChunks ++ [processed])
  | inr err =>
      (logged (Entry ERROR
                 (str "Failed to process chunk " ++ dec (index + 1) ++ str ":")
                 (Some err)) w,
       processedChunks ++ [chunk])            (* Fallback to original content *)
  end.

(** [for (const [index, chunk] of chunks.entries())] *)
Fixpoint processChunks (total index : nat) (todo : list jsstring)
    (w : world) (processedChunks : list jsstring) : world * list jsstring :=
  match todo with
  | [] => (w, processedChunks)
  | chunk :: rest =>
      let (w', acc) := processChunk total index chunk w processedChunks in
      processChunks total (S index) rest w' acc
  end.

(** Steps 2 and 3, lines 47-62, on a given sequence of chunks. *)
Definition orchestrate (chunks : list jsstring) (w : world) : world * jsstring :=
  let (w', processedChunks) := processChunks (length chunks) 0 chunks w [] in
  (w', join (str (String "010" (String "010" EmptyString))) processedChunks).

(** The callback [processMarkdown] hands to [scheduleWithTimeout], lines
    41-75, when [options.outputPath] is absent (step 5 is skipped).  The
    deadline of [scheduleWithTimeout] is wall-clock time and is not part
    of this model. *)
Definition processMarkdown (content : jsstring) (chunkSize : Z)
    (providerName : jsstring) (intensity : nat) (w : world) : world * jsstring :=
  let (w, chunks) := selectChunks content chunkSize w in
  let (w, processed) := orchestrate chunks w in
  let processed := applyRules processed in
  (logged (Entry INFO
             (str "Processed markdown with " ++ providerName
              ++ str " (intensity: " ++ dec intensity ++ str ")") None) w,
   processed).

(** For the statements below: the outcomes of calling the backend on each
    chunk in turn, each call starting from the state the one before left;
    and the state after the last call. *)
Fixpoint outcomes (b : B) (chunks : list jsstring) : list (jsstring + E) :=
  match chunks with
  | [] => []
  | chunk :: rest =>
      let (b', r) := provider_processMarkdown b chunk in
      r :: outcomes b' rest
  end.

Fixpoint backendAfter (b : B) (chunks : list jsstring) : B :=
  match chunks with
  | [] => b
  | chunk :: rest => backendAfter (fst (provider_processMarkdown b chunk)) rest
  end.

(** The result recorded for a chunk: the annotated text, or the chunk
    itself when the call failed. *)
Definition resultFor (chunk : jsstring) (r : jsstring + E) : jsstring :=
  match r with
  | inl processed => processed
  | inr _ => chunk
  end.

Fixpoint results (chunks : list jsstring) (rs : list (jsstring + E))
  : list jsstring :=
  match chunks, rs with
  | chunk :: chunks', r :: rs' => resultFor chunk r :: results chunks' rs'
  | _, _ => []
  end.

Definition blankLine : jsstring := [chr "010"; chr "010"].

End WithProvider.

(** A sample backend without state: it fails on the text "b" and puts
    any other chunk between angle brackets. *)
Definition sampleBackend (b : unit) (chunk : jsstring) : unit * (jsstring + unit) :=
  if jsstring_eqb chunk (str "b") then (b, inr tt)
  else (b, inl (str "<" ++ chunk ++ str ">")).

Definition sampleWorld : world unit unit :=
  {| backend := tt; calls := []; log := [] |}.

End Orchestrator.
Export Orchestrator.

(* ================================================================== *)
(** * src/processors/fileCleaner.ts: the duplicate file reconciler *)
(* ================================================================== *)

Module Cleaner.

(** A directory entry: its name, its creation time ([stat.birthtime] in
    milliseconds) and whether [unlink] on it is refused (a permission or
    a busy file; [unlink] then rejects and the entry stays). *)
Record file : Type := {
  name : jsstring;
  birthtime : Z;
  locked : bool
}.

(** The entries of [dirPath], in the order [readdir] enumerates them. *)
Definition directory := list file.

Inductive FsError : Type :=
| ENOENT (path : jsstring)
| EPERM (path : jsstring).

Record world : Type := {
  dir : directory;
  log : list (entry FsError)
}.

(** Asynchronous code that may reject: state in, state and outcome out. *)
Definition M (A : Type) : Type := world -> world * (A + FsError).

Definition ret {A : Type} (a : A) : M A := fun w => (w, inl a).

Definition throw {A : Type} (e : FsError) : M A := fun w => (w, inr e).

Definition bind {A C : Type} (m : M A) (f : A -> M C) : M C :=
  fun w => match m w with
           | (w', inl a) => f a w'
           | (w', inr e) => (w', inr e)
           end.

Notation "x <- m ;; f" := (bind m (fun x => f))
  (at level 61, m at next level, right associativity).

Fixpoint forEach {A : Type} (f : A -> M unit) (l : list A) : M unit :=
  match l with
  | [] => ret tt
  | x :: tl => _ <- f x ;; forEach f tl
  end.

Fixpoint mapM {A C : Type} (f : A -> M C) (l : list A) : M (list C) :=
  match l with
  | [] => ret []
  | x :: tl => y <- f x ;; ys <- mapM f tl ;; ret (y :: ys)
  end.

Definition logger (l : level) (msg : jsstring) (err : option FsError) : M unit :=
  fun w => ({| dir := dir w; log := log w ++ [Entry l msg err] |}, inl tt).

(** [fs.readdir(dirPath)] *)
Definition readdir : M (list jsstring) :=
  fun w => (w, inl (map name (dir w))).

(** [fs.stat(path.join(dirPath, file))], of which only [birthtime] is
    read. *)
Definition stat (f : jsstring) : M Z :=
  fun w => match find (fun e => jsstring_eqb (name e) f) (dir w) with
           | Some e => (w, inl (birthtime e))
           | None => (w, inr (ENOENT f))
           end.

(** [fs.unlink(path.join(dirPath, file))] *)
Definition unlink (f : jsstring) : M unit :=
  fun w => match find (fun e => jsstring_eqb (name e) f) (dir w) with
           | Some e =>
               if locked e then (w, inr (EPERM f))
               else ({| dir := filter (fun e => negb (jsstring_eqb (name e) f)) (dir w);
                        log := log w |}, inl tt)
           | None => (w, inr (ENOENT f))
           end.

(** [/\.md$/] *)
Definition re_md_extension : regex :=
  Seq (lit ".") (Seq (lit "m") (Seq (lit "d") Eol)).

(** [/[^a-zA-Z0-9]/g] *)
Definition re_non_alphanumeric : regex :=
  Chr (fun c => negb (is_lower c || is_upper c || is_digit c)).

(** [normalizeFileName], lines 37-42.  [toLowerCase] only ever sees
    [a-zA-Z0-9] here. *)
Definition normalizeFileName (filename : jsstring) : jsstring :=
  toLowerCase_ascii
    (replaceAll re_non_alphanumeric (fun _ _ => [])
       (replaceFirst re_md_extension [] filename)).

(** The stable sort of [Array.prototype.sort] under the comparator
    [a.birthtime.getTime() - b.birthtime.getTime()]: the order of the
    result is fixed by the comparator and stability alone. *)
Fixpoint insertByAge (x : jsstring * Z) (l : list (jsstring * Z))
  : list (jsstring * Z) :=
  match l with
  | [] => [x]
  | y :: tl => if (snd x <=? snd y)%Z then x :: l else y :: insertByAge x tl
  end.

Definition sortByAge (l : list (jsstring * Z)) : list (jsstring * Z) :=
  fold_right insertByAge [] l.

(** [sortFilesByAge], lines 44-55.  The [stat] calls of [Promise.all]
    change nothing, so their interleaving is immaterial when they all
    succeed, and when one of them fails its rejection is the one that
    is raised.  When several fail, the code raises whichever settles
    first, a matter of timing; the model then raises that of the first
    name in the list, and no statement below bears on such a run. *)
Definition sortFilesByAge (files : list jsstring) : M (list jsstring) :=
  withStats <- mapM (fun f => b <- stat f ;; ret (f, b)) files ;;
  ret (map fst (sortByAge withStats)).

(** The insertion-ordered [Map<string, string[]>] of line 11. *)
Definition groupMap := list (jsstring * list jsstring).

(** Lines 13-19: [groups.get(normalized)?.push(file)] after the entry has
    been created when missing. *)
Fixpoint addToGroup (normalized file : jsstring) (groups : groupMap) : groupMap :=
  match groups with
  | [] => [(normalized, [file])]
  | (k, members) :: tl =>
      if jsstring_eqb k normalized
      then (k, members ++ [file]) :: tl
      else (k, members) :: addToGroup normalized file tl
  end.

Definition groupFiles (mdFiles : list jsstring) : groupMap :=
  fold_left (fun groups f => addToGroup (normalizeFileName f) f groups) mdFiles [].

(** Lines 23-30, the body of the loop over the groups. *)
Definition processGroup (g : jsstring * list jsstring) : M unit :=
  let fileGroup := snd g in
  if 1 <? length fileGroup then
    sorted <- sortFilesByAge fileGroup ;;
    forEach (fun f =>
               _ <- unlink f ;;
               logger INFO (str "Deleted duplicate file: " ++ f) None)
            (tl sorted)
  else ret tt.

(** The [try] block, lines 6-31. *)
Definition cleanBody : M unit :=
  files <- readdir ;;
  let mdFiles := filter (fun f => endsWith f (str ".md")) files in
  forEach processGroup (groupFiles mdFiles).

(** [cleanDuplicateFiles], lines 5-35: the promise always resolves; the
    result is the directory and the log it leaves. *)
Definition cleanDuplicateFiles (w : world) : world :=
  match cleanBody w with
  | (w', inl _) => w'
  | (w', inr err) =>
      {| dir := dir w';
         log := log w' ++ [Entry ERROR (str "Failed to clean duplicates: ") (Some err)] |}
  end.

(** For the statements below. *)

Definition isMd (f : jsstring) : bool := endsWith f (str ".md").

Definition lookupFile (d : directory) (f : jsstring) : option file :=
  find (fun e => jsstring_eqb (name e) f) d.

(** The creation time and the lock of a name in a directory. *)
Definition birthtimeIn (d : directory) (f : jsstring) : Z :=
  match lookupFile d f with
  | Some e => birthtime e
  | None => 0%Z
  end.

Definition lockedIn (d : directory) (f : jsstring) : bool :=
  match lookupFile d f with
  | Some e => locked e
  | None => false
  end.

(** A directory without the entries of the given names. *)
Definition without (names : list jsstring) (d : directory) : directory :=
  filter (fun e => negb (existsb (jsstring_eqb (name e)) names)) d.

(** The members of a group that are to be deleted, in the order of the
    [unlink] calls: all but the first of the group sorted by age. *)
Definition victims (d : directory) (members : list jsstring) : list jsstring :=
  tl (map fst (sortByAge (map (fun f => (f, birthtimeIn d f)) members))).

(** All the [unlink] calls a run would make, in order, if none failed. *)
Definition deletionPlan (d : directory) : list jsstring :=
  flat_map (fun g => victims d (snd g))
           (groupFiles (filter isMd (map name d))).

(** Going through a plan up to the first name whose [unlink] is refused:
    the names deleted, and the name that stopped the run if any. *)
Fixpoint attempt (d : directory) (plan : list jsstring)
  : list jsstring * option jsstring :=
  match plan with
  | [] => ([], None)
  | f :: rest =>
      if lockedIn d f then ([], Some f)
      else let (done, stop) := attempt d rest in (f :: done, stop)
  end.

(** The state once the names [deleted] have been removed from [d0]. *)
Definition after (d0 : directory) (deleted : list jsstring)
    (lg : list (entry FsError)) : world :=
  {| dir := without deleted d0; log := lg |}.

(** How the [try] block ends. *)
Definition outcomeOf (stop : option jsstring) : unit + FsError :=
  match stop with
  | None => inl tt
  | Some f => inr (EPERM f)
  end.

Definition deletedLine (f : jsstring) : entry FsError :=
  Entry INFO (str "Deleted duplicate file: " ++ f) None.

Definition failedLine (f : jsstring) : entry FsError :=
  Entry ERROR (str "Failed to clean duplicates: ") (Some (EPERM f)).

(** [x] is the oldest of [l1 ++ x :: l2], the first such in the order of
    the list. *)
Definition firstOldest {A : Type} (age : A -> Z) (l1 : list A) (x : A) (l2 : list A)
  : Prop :=
  (forall y, In y l1 -> (age x < age y)%Z)
  /\ (forall y, In y l2 -> (age x <= age y)%Z).

Definition keyIs (k : jsstring) (f : jsstring) : bool :=
  jsstring_eqb (normalizeFileName f) k.

(** What holds of the map after the files [l]: one entry per key met,
    holding the files of that key in order. *)
Definition grouped (l : list jsstring) (groups : groupMap) : Prop :=
  NoDup (map fst groups)
  /\ forall k members,
       In (k, members) groups <-> (members = filter (keyIs k) l /\ members <> []).

(** Sample directories. *)
Definition entryOf (n : string) (t : Z) (l : bool) : file :=
  {| name := str n; birthtime := t; locked := l |}.

Definition notes (t1 t2 t3 : Z) : directory :=
  [entryOf "note.md" t1 false; entryOf "Note.md" t2 false;
   entryOf "NOTE (1).md" t3 false].

Definition lockedSecond : directory :=
  [entryOf "a.md" 1 false; entryOf "A.md" 2 true; entryOf "a-.md" 3 false;
   entryOf "b.md" 1 false; entryOf "B.md" 2 false].

Definition lockedThird : directory :=
  [entryOf "a.md" 1 false; entryOf "A.md" 2 false; entryOf "a-.md" 3 true;
   entryOf "b.md" 1 false; entryOf "B.md" 2 false].

(** The markdown files of a directory whose names normalise to [key]. *)
Definition groupOf (key : jsstring) (d : directory) : directory :=
  filter (fun e => isMd (name e) && jsstring_eqb (normalizeFileName (name e)) key) d.

End Cleaner.

(* ================================================================== *)
(** * src/backlinks.ts: the backlink indexer *)
(* ================================================================== *)

Module Backlinks.

(** The files of [BACKLINKS_DIR], by file name, on a file system that
    tells names apart code unit by code unit. *)
Definition files := list (jsstring * jsstring).

(** The names for which [path.join(BACKLINKS_DIR, name + '.md')] is the
    file [name ++ ".md"] of the directory: no path separator of either
    platform (code units 47 and 92) and no NUL, no surrogate code unit
    (a lone one is not kept apart from others in a file name), and short
    enough for the name with its extension to fit the 255 bytes of a
    file name. *)
Definition plainChar (c : jschar) : bool :=
  negb (N.eqb c 0) && negb (N.eqb c 47) && negb (N.eqb c 92)
  && negb ((55296 <=? c) && (c <=? 57343))%N.

Definition plainName (name : jsstring) : bool :=
  forallb plainChar name && (length name <=? 84).

Fixpoint readFile (fs : files) (p : jsstring) : option jsstring :=
  match fs with
  | [] => None
  | (q, content) :: tl => if jsstring_eqb q p then Some content else readFile tl p
  end.

Fixpoint writeFile (fs : files) (p data : jsstring) : files :=
  match fs with
  | [] => [(p, data)]
  | (q, content) :: tl =>
      if jsstring_eqb q p then (q, data) :: tl else (q, content) :: writeFile tl p data
  end.

Fixpoint appendFile (fs : files) (p data : jsstring) : files :=
  match fs with
  | [] => [(p, data)]
  | (q, content) :: tl =>
      if jsstring_eqb q p then (q, content ++ data) :: tl
      else (q, content) :: appendFile tl p data
  end.

(** The alternatives of the stop-word pattern of line 27, in order;
    [\d+] is its last alternative. *)
Definition stopWords : list string :=
  ["the"; "and"; "for"; "with"; "this"; "that"; "your"; "have"; "from";
   "about"; "when"; "where"; "how"; "why"; "which"; "their"; "there";
   "been"; "into"; "only"; "more"; "some"; "such"; "than"; "then"; "them";
   "were"; "what"; "will"; "would"; "does"; "said"; "like"; "just"; "also";
   "very"; "much"; "many"; "most"; "more"; "less"; "same"; "other";
   "another"; "first"; "last"; "next"; "previous"; "new"; "old"; "good";
   "bad"; "big"; "small"; "long"; "short"; "high"; "low"; "great";
   "little"; "few"; "several"; "own"; "same"; "different"; "same";
   "number"]%string.

(** [/^(the|and|...|number|\d+)$/i] *)
Definition re_stop_word : regex :=
  Seq Bol
    (Seq (Group (fold_right (fun w r => Alt (Lit_i (str w)) r)
                            (Plus (Chr is_digit)) stopWords))
         Eol).

(** [/\b\w{4,}\b/g] *)
Definition re_significant_word : regex :=
  Seq WordB (Seq (Rep 4 (Chr is_word)) (Seq (Star (Chr is_word)) WordB)).

(** [new RegExp(`\\b${keyword}\\b`, 'gi')]; a keyword holds [\w]
    characters only, so its text is a literal of the pattern. *)
Definition re_keyword (keyword : jsstring) : regex :=
  Seq WordB (Seq (Lit_i keyword) WordB).

(** [/\[\[([^\]]+)\]\]/g] *)
Definition re_link : regex :=
  Seq (Lit (str "[["))
      (Seq (Group (Plus (Chr (fun c => negb (N.eqb c (chr "]"))))))
           (Lit (str "]]"))).

(** [keywords.add(x)] on the insertion-ordered [Set<string>]. *)
Definition setAdd (x : jsstring) (set : list jsstring) : list jsstring :=
  if existsb (jsstring_eqb x) set then set else set ++ [x].

(** Lines 22-30: the significant words of the content. *)
Definition extractKeywords (content : jsstring) : list jsstring :=
  fold_left
    (fun keywords word =>
       if negb (test re_stop_word word)
       then setAdd (toLowerCase_ascii word) keywords
       else keywords)
    (matches re_significant_word content) [].

(** Lines 33-37: every keyword turned into a link. *)
Definition linkKeywords (keywords : list jsstring) (content : jsstring) : jsstring :=
  fold_left
    (fun processedContent keyword =>
       replaceAll (re_keyword keyword)
                  (fun _ _ => str "[[" ++ keyword ++ str "]]")
                  processedContent)
    keywords content.

(** Lines 65-66: the contents of the links of the processed content. *)
Definition extractLinks (processedContent : jsstring) : list jsstring :=
  flat_map (fun g => match g with
                     | Span _ (Some link) => [link]
                     | _ => []
                     end) (matchAll re_link processedContent).

Definition header (keyword : jsstring) : jsstring := str "# " ++ keyword.

Definition referenceLine (title : jsstring) : jsstring :=
  str "[[" ++ title ++ str "]]" ++ [chr "010"].

(** The body shared by the loops of lines 40-62 and 69-92, on a name
    whose path is its file in the directory: create the file of
    [keyword] with its header and a first reference, or append a
    reference to it. *)
Definition writeReference (title keyword : jsstring) (fs : files) : files :=
  let keywordPath := keyword ++ str ".md" in
  let existingContent :=
    match readFile fs keywordPath with
    | Some c => c
    | None => []                                  (* File doesn't exist yet *)
    end in
  if negb (includes existingContent (header keyword))
  then writeFile fs keywordPath
         (header keyword ++ [chr "010"; chr "010"] ++ referenceLine title)
  else appendFile fs keywordPath (referenceLine title).

(** One round of either loop.  For a name that is not plain,
    [path.join] resolves the separators: the write lands on another
    file, outside the directory, or in a directory that is missing, in
    which case it throws and the call is aborted.  Such a round is not
    modelled: [None]. *)
Definition writeBacklink (title keyword : jsstring) (fs : files) : option files :=
  if plainName keyword then Some (writeReference title keyword fs) else None.

Fixpoint writeBacklinks (title : jsstring) (names : list jsstring) (fs : files)
  : option files :=
  match names with
  | [] => Some fs
  | name :: rest =>
      match writeBacklink title name fs with
      | Some fs' => writeBacklinks title rest fs'
      | None => None
      end
  end.


(** [createBacklinks], lines 18-95: the files it leaves and the text it
    returns.  Creating the directory changes no file and is left out. *)
Definition createBacklinks (title content : jsstring) (fs : files)
  : option (files * jsstring) :=
  let keywords := extractKeywords content in
  let processedContent := linkKeywords keywords content in
  match writeBacklinks title keywords fs with
  | None => None
  | Some fs =>
      let links := extractLinks processedContent in
      match writeBacklinks title links fs with
      | None => None
      | Some fs => Some (fs, processedContent)
      end
  end.








End Backlinks.

(* ================================================================== *)
(** * src/llm/providers.ts: provider dispatch *)
(* ================================================================== *)

Module Providers.

Section WithConfig.

(** [Partial<LLMConfig>], passed through to the constructors. *)
Variable Config : Type.

(** [String.prototype.toLowerCase], on arbitrary strings: the Unicode
    case mapping is taken as given. *)
Variable toLowerCase : jsstring -> jsstring.

(** The seven classes that implement [LLMProvider]. *)
Inductive LLMProvider : Type :=
| DeepSeekProvider (config : option Config)
| OpenAIProvider (config : option Config)
| AnthropicProvider (config : option Config)
| GoogleProvider (config : option Config)
| MistralProvider (config : option Config)
| OllamaProvider (config : option Config)
| AzureProvider (config : option Config).

(** The [name] field each class initialises. *)
Definition provider_name (p : LLMProvider) : jsstring :=
  match p with
  | DeepSeekProvider _ => str "deepseek"
  | OpenAIProvider _ => str "openai"
  | AnthropicProvider _ => str "anthropic"
  | GoogleProvider _ => str "google"
  | MistralProvider _ => str "mistral"
  | OllamaProvider _ => str "ollama"
  | AzureProvider _ => str "azure"
  end.

(** [new Error(message)] *)
Inductive Error : Type := mkError (message : jsstring).

(** [getProvider], lines 235-254: the provider returned, or the error
    thrown. *)
Definition getProvider (name : jsstring) (config : option Config)
  : LLMProvider + Error :=
  let key := toLowerCase name in
  if jsstring_eqb key (str "deepseek") then inl (DeepSeekProvider config)
  else if jsstring_eqb key (str "openai") then inl (OpenAIProvider config)
  else if jsstring_eqb key (str "azure") then inl (AzureProvider config)
  else if jsstring_eqb key (str "google") then inl (GoogleProvider config)
  else if jsstring_eqb key (str "anthropic") then inl (AnthropicProvider config)
  else if jsstring_eqb key (str "mistral") then inl (MistralProvider config)
  else if jsstring_eqb key (str "ollama") then inl (OllamaProvider config)
  else inr (mkError (str "Unknown provider: " ++ name)).

(** The registry the [switch] amounts to, for the statements below: one
    instance per class, and the lookup of a key among their names. *)
Definition registry (config : option Config) : list LLMProvider :=
  [DeepSeekProvider config; OpenAIProvider config; AzureProvider config;
   GoogleProvider config; AnthropicProvider config; MistralProvider config;
   OllamaProvider config].

Definition lookup (key : jsstring) (config : option Config)
  : option LLMProvider :=
  find (fun p => jsstring_eqb key (provider_name p)) (registry config).

End WithConfig.

End Providers.

(* ================================================================== *)
(** * src/processors/markdown.ts: the keyword list *)
(* ================================================================== *)

Module Keywords.

(** The insertion-ordered [Map<string, number>] of line 85. *)
Definition keywordMap := list (jsstring * nat).

(** [keywordMap.set(normalized, (keywordMap.get(normalized) || 0) + 1)]:
    an entry that exists is updated where it stands, a new one goes to
    the end. *)
Fixpoint bump (normalized : jsstring) (m : keywordMap) : keywordMap :=
  match m with
  | [] => [(normalized, 1)]
  | (k, n) :: tl =>
      if jsstring_eqb k normalized then (k, n + 1) :: tl
      else (k, n) :: bump normalized tl
  end.

(** The body of the loop of lines 87-94 on the capture [match[1]]. *)
Definition countKeyword (m : keywordMap) (captured : jsstring) : keywordMap :=
  match trim captured with
  | [] => m                                      (* continue *)
  | c :: keyword => bump (normalizeKeyword (c :: keyword)) m
  end.

(** [match[1]] for the matches of [content.matchAll(keywordPattern)];
    the pattern is that of rule 4. *)
Definition spanContents (content : jsstring) : list jsstring :=
  flat_map (fun g => match g with
                     | Span _ (Some captured) => [captured]
                     | _ => []
                     end) (matchAll re_markup content).

Definition keywordMapOf (content : jsstring) : keywordMap :=
  fold_left countKeyword (spanContents content) [].

(** [extractAndSaveKeywords], lines 78-109, when the directory can be
    made and the file written: the text written to
    [keyword_list.txt] under [outputDir] and the line logged. *)
Definition extractAndSaveKeywords (content outputDir : jsstring)
  : jsstring * entry unit :=
  let keywordMap := keywordMapOf content in
  (join [chr "010"] (map fst keywordMap),
   Entry INFO (str "Saved " ++ dec (length keywordMap) ++ str " keywords to "
               ++ outputDir) None).

(** For the statements below: the keywords in the order of the spans,
    one per span with a non-blank content. *)
Definition spanKeywords (content : jsstring) : list jsstring :=
  flat_map (fun captured => match trim captured with
                            | [] => []
                            | c :: keyword => [normalizeKeyword (c :: keyword)]
                            end) (spanContents content).

End Keywords.

(* ================================================================== *)
(** * src/llm/providers.ts and src/processors/markdown.ts: the pipeline
      behind a provider name *)
(* ================================================================== *)

Module Pipeline.
Import Providers.

Section WithProviders.

Variable B : Type.
Variable E : Type.
Variable Config : Type.
Variable toLowerCase : jsstring -> jsstring.

(** [DeepSeekProvider.processMarkdown], lines 35-83 of providers.ts: a
    request to the service, taken as given. *)
Variable deepseek : B -> jsstring -> B * (jsstring + E).

(** [processMarkdown] of each class.  Apart from DeepSeek's they are
    the bodies of lines 116-119, 142-145, 162-165, 183-186, 203-206 and
    224-227, which return their argument ([applyProcessingRules] returns
    its argument too). *)
Definition providerCall (p : LLMProvider Config)
  : B -> jsstring -> B * (jsstring + E) :=
  match p with
  | DeepSeekProvider _ => deepseek
  | _ => fun b content => (b, inl content)
  end.

(** [processMarkdown] of markdown.ts, lines 22-76, without
    [options.outputPath]: the provider is looked up first, and an
    unknown name rejects before anything else is done. *)
Definition processMarkdownByName (providerName : jsstring)
    (config : option Config) (content : jsstring) (chunkSize : Z)
    (intensity : nat) (w : Orchestrator.world B E)
  : Orchestrator.world B E * (jsstring + Error) :=
  match getProvider toLowerCase providerName config with
  | inr err => (w, inr err)
  | inl provider =>
      let (w', processed) :=
        Orchestrator.processMarkdown (providerCall provider) content chunkSize
                                     providerName intensity w in
      (w', inl processed)
  end.

End WithProviders.

End Pipeline.

(* ================================================================== *)
(** * src/scheduler.ts: the scheduled run *)
(* ================================================================== *)

Module Scheduler.

(** The configuration after the defaults of the constructor (lines
    37-45) have been filled in.  The numbers are non-negative integers
    here. *)
Record SchedulerConfig : Type := {
  provider : jsstring;
  intensity : nat;
  timeoutHours : nat
}.

(** How [scheduleWithTimeout(() => processMarkdown(...))] of lines 76-85
    ends for one file: it resolves, it rejects with an [Error] of the
    given message, or the timer of line 13 fires first. *)
Inductive ending : Type :=
| Resolved
| Rejected (message : jsstring)
| TimedOut.

Section WithPipeline.

(** Whatever the pipeline changes. *)
Variable S : Type.

(** [processMarkdown] on the content of one file with the options of
    lines 77-82. *)
Variable processMarkdown : SchedulerConfig -> jsstring -> S -> S * ending.

Record world : Type := {
  state : S;
  log : list (entry unit)
}.

Definition logged (l : level) (msg : jsstring) (w : world) : world :=
  {| state := state w; log := log w ++ [Entry l msg None] |}.

(** [!provider || !intensity || !timeoutHours] *)
Definition missingConfiguration (config : SchedulerConfig) : bool :=
  match provider config with [] => true | _ :: _ => false end
  || (intensity config =? 0) || (timeoutHours config =? 0).

(** The loop of lines 66-86 over (name, content) of the markdown files,
    all readable: the state it leaves and the message of the error that
    ended it, if any. *)
Fixpoint processFiles (config : SchedulerConfig)
    (mdFiles : list (jsstring * jsstring)) (w : world)
  : world * option jsstring :=
  match mdFiles with
  | [] => (w, None)
  | (file, content) :: rest =>
      if missingConfiguration config
      then (w, Some (str "Missing required configuration"))
      else
        match processMarkdown config content (state w) with
        | (s', Resolved) =>
            processFiles config rest {| state := s'; log := log w |}
        | (s', Rejected message) =>
            ({| state := s'; log := log w |}, Some message)
        | (s', TimedOut) =>
            (logged WARN (str "Processing timed out for " ++ file)
                    {| state := s'; log := log w |},
             Some (str "Operation timed out after "
                   ++ dec (timeoutHours config * 3600 * 1000) ++ str "ms"))
        end
  end.

(** [runProcessing], lines 59-96, on the entries of [inputDir]. *)
Definition runProcessing (config : SchedulerConfig)
    (inputDir : list (jsstring * jsstring)) (w : world) : world :=
  let w := logged INFO (str "Starting scheduled processing run") w in
  let mdFiles := filter (fun f => endsWith (fst f) (str ".md")) inputDir in
  match processFiles config mdFiles w with
  | (w', None) =>
      logged INFO (str "Completed processing " ++ dec (length mdFiles)
                   ++ str " files") w'
  | (w', Some message) =>
      logged ERROR (str "Scheduled processing failed: " ++ message) w'
  end.

(** For the statements below: the state after the pipeline has resolved
    on each of the given files in turn. *)
Fixpoint stateAfter (config : SchedulerConfig)
    (done : list (jsstring * jsstring)) (s : S) : S :=
  match done with
  | [] => s
  | (_, content) :: rest =>
      stateAfter config rest (fst (processMarkdown config content s))
  end.

Fixpoint allResolve (config : SchedulerConfig)
    (files : list (jsstring * jsstring)) (s : S) : Prop :=
  match files with
  | [] => True
  | (_, content) :: rest =>
      snd (processMarkdown config content s) = Resolved
      /\ allResolve config rest (fst (processMarkdown config content s))
  end.

End WithPipeline.

(** A sample pipeline: it records the contents it is given and rejects
    on the content "bad". *)
Definition samplePipeline (config : SchedulerConfig) (content : jsstring)
    (s : list jsstring) : list jsstring * ending :=
  (s ++ [content],
   if jsstring_eqb content (str "bad") then Rejected (str "boom") else Resolved).

Definition sampleConfig : SchedulerConfig :=
  {| provider := str "deepseek"; intensity := 1; timeoutHours := 8 |}.

Definition sampleInput : list (jsstring * jsstring) :=
  [(str "a.md", str "one"); (str "notes.txt", str "skip");
   (str "b.md", str "bad"); (str "c.md", str "three")].

(** The message of the error a run ends with. *)
Definition failureMessage (config : SchedulerConfig) (e : ending) : jsstring :=
  match e with
  | Resolved => []
  | Rejected message => message
  | TimedOut =>
      str "Operation timed out after "
      ++ dec (timeoutHours config * 3600 * 1000) ++ str "ms"
  end.

End Scheduler.

(* ================================================================== *)
(** * The server entry point: findAndDeleteDuplicates *)
(* ================================================================== *)

Module Server.

Section WithBasename.

(** [path.basename(file, '.md').toLowerCase()], taken as given. *)
Variable basenameKey : jsstring -> jsstring.

(** The files by path: whether [unlinkSync] on a path is refused. *)
Definition store := list (jsstring * bool).

Definition present (fs : store) (p : jsstring) : option bool :=
  match find (fun e => jsstring_eqb (fst e) p) fs with
  | Some e => Some (snd e)
  | None => None
  end.

Inductive status : Type :=
| deleted
| failedWith (err : Cleaner.FsError).

(** [fs.unlinkSync(file)] inside the [try] of lines 339-347. *)
Definition unlinkSync (p : jsstring) (fs : store) : store * status :=
  match present fs p with
  | Some false =>
      (filter (fun e => negb (jsstring_eqb (fst e) p)) fs, deleted)
  | Some true => (fs, failedWith (Cleaner.EPERM p))
  | None => (fs, failedWith (Cleaner.ENOENT p))
  end.

(** Lines 311-318: the files grouped by key. *)
Definition groupByKey (allFiles : list jsstring) : Cleaner.groupMap :=
  fold_left (fun groups f => Cleaner.addToGroup (basenameKey f) f groups)
            allFiles [].

(** [filenameGroups.get(basename) || []] *)
Fixpoint getGroup (groups : Cleaner.groupMap) (k : jsstring) : list jsstring :=
  match groups with
  | [] => []
  | (k', members) :: tl => if jsstring_eqb k' k then members else getGroup tl k
  end.

(** The test of lines 322-333 on one file of the knowledge base. *)
Definition hasOutsideMatch (groups : Cleaner.groupMap)
    (knowledgeBasePath file : jsstring) : bool :=
  let matches := getGroup groups (basenameKey file) in
  (1 <? length matches)
  && existsb (fun m => negb (jsstring_eqb m file)
                       && negb (startsWith m knowledgeBasePath)) matches.

(** Lines 320-334: the set [filesToDelete], in insertion order. *)
Definition filesToDelete (allFiles deletePathFiles : list jsstring)
    (knowledgeBasePath : jsstring) : list jsstring :=
  fold_left
    (fun set file =>
       if hasOutsideMatch (groupByKey allFiles) knowledgeBasePath file
       then Backlinks.setAdd file set else set)
    deletePathFiles [].

(** Lines 336-348: each file unlinked under its own [try]. *)
Fixpoint deleteEach (files : list jsstring) (fs : store)
    (deletionResults : list (jsstring * status))
  : store * list (jsstring * status) :=
  match files with
  | [] => (fs, deletionResults)
  | file :: rest =>
      let (fs', st) := unlinkSync file fs in
      deleteEach rest fs' (deletionResults ++ [(file, st)])
  end.

Record report : Type := {
  totalFilesScanned : nat;
  duplicatesFound : nat;
  deletionResults : list (jsstring * status)
}.

(** [findAndDeleteDuplicates], lines 299-355 of src/index.ts, from the
    two listings of lines 300-306 on. *)
Definition findAndDeleteDuplicates (allFiles deletePathFiles : list jsstring)
    (knowledgeBasePath : jsstring) (fs : store) : store * report :=
  let toDelete := filesToDelete allFiles deletePathFiles knowledgeBasePath in
  let (fs', results) := deleteEach toDelete fs [] in
  (fs', {| totalFilesScanned := length allFiles;
           duplicatesFound := length toDelete;
           deletionResults := results |}).

(** For the statements below: whether [unlinkSync] goes through. *)
Definition deletable (fs : store) (p : jsstring) : bool :=
  match present fs p with
  | Some false => true
  | _ => false
  end.

Definition statusOf (fs : store) (p : jsstring) : status :=
  match present fs p with
  | Some false => deleted
  | Some true => failedWith (Cleaner.EPERM p)
  | None => failedWith (Cleaner.ENOENT p)
  end.

End WithBasename.

End Server.

(* ================================================================== *)
(** * Vocabulary for the further properties *)
(* ================================================================== *)

Module Vocabulary.

(** [a-zA-Z0-9] *)
Definition isAlnum (c : jschar) : bool := is_lower c || is_upper c || is_digit c.

(** A markdown entry that can be unlinked. *)
Definition mdEntry (stem : jsstring) (t : Z) : Cleaner.file :=
  {| Cleaner.name := stem ++ str ".md"; Cleaner.birthtime := t;
     Cleaner.locked := false |}.

(** Ascending creation times along a list of names. *)
Definition byAge (d : Cleaner.directory) (a b : jsstring) : Prop :=
  (Cleaner.birthtimeIn d a <= Cleaner.birthtimeIn d b)%Z.

(** The names of a list created at time [t], in the order of the list. *)
Definition createdAt (d : Cleaner.directory) (t : Z) (l : list jsstring)
  : list jsstring :=
  filter (fun f => (Cleaner.birthtimeIn d f =? t)%Z) l.

(** A name with its creation time, as line 46 pairs them, and the order
    of the comparator of line 52. *)
Definition pairOf (d : Cleaner.directory) (f : jsstring) : jsstring * Z :=
  (f, Cleaner.birthtimeIn d f).

Definition olderPair (a b : jsstring * Z) : Prop := (snd a <= snd b)%Z.

(** [[A-Z][a-z]+]: a capital letter and one small letter or more. *)
Definition capitalised (w : jsstring) : bool :=
  match w with
  | c :: l :: rest => is_upper c && forallb is_lower (l :: rest)
  | _ => false
  end.

(** [[\d]{4}s?]: four digits, an [s] after them or not. *)
Definition yearName (k : jsstring) : bool :=
  match k with
  | [a; b; c; d] => is_digit a && is_digit b && is_digit c && is_digit d
  | [a; b; c; d; s] =>
      is_digit a && is_digit b && is_digit c && is_digit d && N.eqb s (chr "s")
  | _ => false
  end.

(** The keywords of a document written as texts and spans: the contents
    of its spans in order, trimmed and normalised, blank ones left
    out. *)
Definition documentKeywords (d : list item) : list jsstring :=
  flat_map (fun i => match i with
                     | Text _ => []
                     | Link captured =>
                         match trim captured with
                         | [] => []
                         | c :: keyword => [normalizeKeyword (c :: keyword)]
                         end
                     end) d.

(** A span content the name/number filter cannot match: it begins with
    a character that is neither a capital ASCII letter nor a digit. *)
Definition commonStart (keyword : jsstring) : bool :=
  match keyword with
  | c :: _ => negb (is_upper c) && negb (is_digit c)
  | [] => false
  end.

(** A list without its repetitions: of equal entries the first stays. *)
Fixpoint firstOccurrences (l : list jsstring) : list jsstring :=
  match l with
  | [] => []
  | x :: tl => x :: filter (fun y => negb (jsstring_eqb y x)) (firstOccurrences tl)
  end.

(** [a] is [b] with some of its characters left out. *)
Inductive subseq : jsstring -> jsstring -> Prop :=
| subseq_nil : subseq [] []
| subseq_keep c a b : subseq a b -> subseq (c :: a) (c :: b)
| subseq_skip c a b : subseq a b -> subseq a (c :: b).

End Vocabulary.
Export Vocabulary.

(* ================================================================== *)
(** * Facts about strings *)
(* ================================================================== *)

Lemma jsstring_eqb_eq (a b : jsstring) : jsstring_eqb a b = true <-> a = b.
Proof.
  revert b; induction a as [|x a IH]; intros [|y b]; simpl;
    try (split; [discriminate | congruence | reflexivity]); try tauto;
    try (split; congruence).
  rewrite andb_true_iff, N.eqb_eq, IH. split.
  - intros [-> ->]; reflexivity.
  - intros H; injection H; auto.
Qed.

Lemma jsstring_eqb_refl (a : jsstring) : jsstring_eqb a a = true.
Proof. apply jsstring_eqb_eq; reflexivity. Qed.

Lemma jsstring_eqb_neq (a b : jsstring) : jsstring_eqb a b = false <-> a <> b.
Proof.
  rewrite <- jsstring_eqb_eq. destruct (jsstring_eqb a b); split; congruence.
Qed.

Lemma endsWith_app (a suffix : jsstring) : endsWith (a ++ suffix) suffix = true.
Proof.
  unfold endsWith. rewrite length_app.
  replace (length a + length suffix - length suffix) with (length a) by lia.
  rewrite skipn_app, skipn_all, Nat.sub_diag. simpl.
  rewrite jsstring_eqb_refl, andb_true_r. apply Nat.leb_le. lia.
Qed.

Lemma slice_to_minus_app (a suffix : jsstring) :
  slice_to_minus (length suffix) (a ++ suffix) = a.
Proof.
  unfold slice_to_minus. rewrite length_app.
  replace (length a + length suffix - length suffix) with (length a) by lia.
  rewrite firstn_app, firstn_all, Nat.sub_diag. simpl. apply app_nil_r.
Qed.



(* ================================================================== *)
(** * Keyword normalisation *)
(* ================================================================== *)

Section NormalizeKeyword.

Lemma endsWith_s_app (a : jsstring) (c : jschar) :
  endsWith (a ++ [c; chr "s"]) (str "s") = true.
Proof.
  change (a ++ [c; chr "s"]) with (a ++ [c] ++ str "s").
  rewrite app_assoc. apply endsWith_app.
Qed.

(** What the code does with a keyword in "...es", "ies" included: the
    last two code units go. *)
Lemma normalizeKeyword_es (stem : jsstring) :
  normalizeKeyword (stem ++ str "es") = stem.
Proof.
  unfold normalizeKeyword.
  change (str "es") with [chr "e"; chr "s"] at 1.
  rewrite endsWith_s_app, endsWith_app.
  replace (1 <? length (stem ++ str "es")) with true
    by (symmetry; apply Nat.ltb_lt; rewrite length_app; simpl; lia).
  simpl andb. cbv iota.
  apply (slice_to_minus_app stem (str "es")).
Qed.

(** C6, the code at the keyword "studies": [normalizeKeyword] returns
    "studi", not "study"; the test for "es" comes before the test for
    "ies" and catches every keyword in "ies", which loses its last two
    code units. *)
Theorem normalizeKeyword_studies :
  normalizeKeyword (str "studies") = str "studi"
  /\ forall stem, normalizeKeyword (stem ++ str "ies") = stem ++ str "i".
Proof.
  split; [reflexivity|].
  intros stem.
  change (str "ies") with (str "i" ++ str "es").
  rewrite app_assoc. apply normalizeKeyword_es.
Qed.

End NormalizeKeyword.

(* ================================================================== *)
(** * Provider dispatch *)
(* ================================================================== *)

Module ProvidersFacts.
Import Providers.

Section Dispatch.

Variable Config : Type.
Variable toLowerCase : jsstring -> jsstring.

Lemma getProvider_lookup (name : jsstring) (config : option Config) :
  getProvider toLowerCase name config =
  match lookup (toLowerCase name) config with
  | Some p => inl p
  | None => inr (mkError (str "Unknown provider: " ++ name))
  end.
Proof.
  unfold getProvider, lookup, registry. simpl find.
  repeat match goal with
         | |- context [jsstring_eqb ?a ?b] => destruct (jsstring_eqb a b); [reflexivity|]
         end.
  reflexivity.
Qed.

Lemma registry_names (config : option Config) :
  map (@provider_name Config) (registry config) =
  map str ["deepseek"; "openai"; "azure"; "google"; "anthropic"; "mistral";
           "ollama"]%string.
Proof. reflexivity. Qed.

(** C10: [getProvider] looks the lower-cased name up among the seven
    identifiers: it returns the provider of that name when there is one
    and throws "Unknown provider: {name}" otherwise; two names with the
    same lower-case form are treated alike. *)
Theorem getProvider_dispatch (name : jsstring) (config : option Config) :
  (forall p, In p (registry config) ->
             toLowerCase name = provider_name p ->
             getProvider toLowerCase name config = inl p)
  /\ ((forall p, In p (registry config) -> toLowerCase name <> provider_name p) ->
      getProvider toLowerCase name config
      = inr (mkError (str "Unknown provider: " ++ name)))
  /\ (forall p, getProvider toLowerCase name config = inl p ->
                In p (registry config) /\ provider_name p = toLowerCase name)
  /\ (forall name', toLowerCase name' = toLowerCase name ->
                    match getProvider toLowerCase name config,
                          getProvider toLowerCase name' config with
                    | inl p, inl p' => p = p'
                    | inr _, inr _ => True
                    | _, _ => False
                    end).
Proof.
  repeat split.
  - intros p Hin Hname. rewrite getProvider_lookup. unfold lookup. rewrite Hname.
    simpl in Hin.
    repeat (destruct Hin as [<- | Hin]; [reflexivity|]). destruct Hin.
  - intros Hnone. rewrite getProvider_lookup. unfold lookup.
    destruct (find _ _) as [p|] eqn:Hf; [|reflexivity].
    apply find_some in Hf. destruct Hf as [Hin Heq].
    apply jsstring_eqb_eq in Heq. elim (Hnone p Hin Heq).
  - rewrite getProvider_lookup in H. unfold lookup in H.
    destruct (find _ _) as [q|] eqn:Hf; [|discriminate].
    injection H as <-. apply (find_some _ _ Hf).
  - rewrite getProvider_lookup in H. unfold lookup in H.
    destruct (find _ _) as [q|] eqn:Hf; [|discriminate].
    injection H as <-. apply find_some in Hf. destruct Hf as [_ Heq].
    apply jsstring_eqb_eq in Heq. congruence.
  - intros name' Hsame. rewrite !getProvider_lookup, Hsame.
    destruct (lookup _ _); auto.
Qed.

End Dispatch.

(** The theorem at the names "DeepSeek" and "DEEPSEEK", with the ASCII
    case mapping. *)
Lemma getProvider_dispatch_witness :
  getProvider toLowerCase_ascii (str "DeepSeek") (@None unit)
  = inl (DeepSeekProvider None)
  /\ match getProvider toLowerCase_ascii (str "DeepSeek") (@None unit),
           getProvider toLowerCase_ascii (str "DEEPSEEK") (@None unit) with
     | inl p, inl p' => p = p'
     | inr _, inr _ => True
     | _, _ => False
     end.
Proof.
  destruct (getProvider_dispatch toLowerCase_ascii (str "DeepSeek") (@None unit))
    as (Hfound & _ & _ & Hcase).
  split.
  - apply Hfound; [simpl; auto | reflexivity].
  - apply Hcase. reflexivity.
Defined.

End ProvidersFacts.

(* ================================================================== *)
(** * The chunk orchestration *)
(* ================================================================== *)

Section OrchestratorFacts.

Variable B : Type.
Variable E : Type.
Variable provider : B -> jsstring -> B * (jsstring + E).

(** The loop makes one call per chunk, in order, each from the state the
    previous one left, and pushes one result per chunk. *)
Lemma processChunks_spec (total : nat) (todo : list jsstring) :
  forall (index : nat) (w : Orchestrator.world B E) (acc : list jsstring),
    let w' := fst (processChunks provider total index todo w acc) in
    calls w' = calls w ++ todo
    /\ backend w' = backendAfter provider (backend w) todo
    /\ snd (processChunks provider total index todo w acc)
       = acc ++ results todo (outcomes provider (backend w) todo).
Proof.
  induction todo as [|chunk rest IH]; intros index w acc; simpl.
  - rewrite !app_nil_r. auto.
  - unfold processChunk, call. simpl.
    destruct (provider (backend w) chunk) as [b' r] eqn:Hcall.
    destruct r as [processed | err];
      match goal with
      | |- context [processChunks provider total (S index) rest ?w1 ?acc1] =>
          specialize (IH (S index) w1 acc1)
      end;
      simpl in IH; destruct IH as (Hc & Hb & Hr);
      rewrite Hc, Hb, Hr; simpl;
      rewrite <- !app_assoc; simpl; auto.
Qed.

Lemma orchestrate_spec (chunks : list jsstring) (w : Orchestrator.world B E) :
  calls (fst (orchestrate provider chunks w)) = calls w ++ chunks
  /\ snd (orchestrate provider chunks w)
     = join blankLine (results chunks (outcomes provider (backend w) chunks)).
Proof.
  unfold orchestrate.
  pose proof (processChunks_spec (length chunks) chunks 0 w []) as H.
  destruct (processChunks provider (length chunks) 0 chunks w []) as [w' acc].
  simpl in H. destruct H as (Hc & _ & Hr). simpl. subst acc. auto.
Qed.

(** The results when exactly the call at position [i] fails. *)
Lemma results_one_failure (chunks : list jsstring) :
  forall (rs : list (jsstring + E)) (outs : list jsstring) (i : nat) (c : jsstring),
    length rs = length chunks ->
    length outs = length chunks ->
    nth_error chunks i = Some c ->
    (exists e, nth_error rs i = Some (inr e)) ->
    (forall j, j <> i -> j < length chunks ->
               nth_error rs j = option_map inl (nth_error outs j)) ->
    results chunks rs = firstn i outs ++ c :: skipn (S i) outs.
Proof.
  induction chunks as [|chunk chunks IH]; intros rs outs i c Hrs Houts Hi Hfail Hok.
  - destruct i; discriminate.
  - destruct rs as [|r rs]; [discriminate|].
    destruct outs as [|o outs]; [discriminate|].
    simpl in Hrs, Houts.
    destruct i as [|i].
    + simpl in Hi. injection Hi as ->.
      destruct Hfail as [e He]. simpl in He. injection He as ->.
      simpl. f_equal.
      clear IH. revert rs outs Hrs Houts Hok.
      induction chunks as [|d chunks IHc]; intros rs outs Hrs Houts Hok.
      * destruct outs; [reflexivity | discriminate].
      * destruct rs as [|r rs]; [discriminate|].
        destruct outs as [|o' outs]; [discriminate|].
        simpl.
        pose proof (Hok 1 ltac:(discriminate) ltac:(simpl; lia)) as H1.
        simpl in H1. injection H1 as ->. simpl. f_equal.
        apply IHc; simpl in *; try lia.
        intros j Hj Hlt. destruct j as [|j]; [congruence|].
        apply (Hok (S (S j))); simpl; [discriminate | lia].
    + simpl in Hi. simpl.
      pose proof (Hok 0 ltac:(discriminate) ltac:(simpl; lia)) as H0.
      simpl in H0. injection H0 as ->. simpl. f_equal.
      apply IH; try lia; auto.
      intros j Hj Hlt. apply (Hok (S j)); simpl; [congruence | lia].
Qed.

Lemma outcomes_length (chunks : list jsstring) :
  forall b, length (outcomes provider b chunks) = length chunks.
Proof.
  induction chunks as [|c chunks IH]; intros b; simpl; [reflexivity|].
  destruct (provider b c). simpl. rewrite IH. reflexivity.
Qed.

(** C1: the backend is called on every chunk, in the original order; when
    the call for chunk [i] fails and every other call succeeds, the batch
    still completes, and the merged text is the outputs of the other
    chunks with the original text of chunk [i] in its place, in order,
    two consecutive results separated by exactly one blank line. *)
Theorem orchestrate_one_failure
    (chunks : list jsstring) (w : Orchestrator.world B E) (outs : list jsstring)
    (i : nat) (c : jsstring) :
  length outs = length chunks ->
  nth_error chunks i = Some c ->
  (exists e, nth_error (outcomes provider (backend w) chunks) i = Some (inr e)) ->
  (forall j, j <> i -> j < length chunks ->
             nth_error (outcomes provider (backend w) chunks) j
             = option_map inl (nth_error outs j)) ->
  calls (fst (orchestrate provider chunks w)) = calls w ++ chunks
  /\ snd (orchestrate provider chunks w)
     = join blankLine (firstn i outs ++ c :: skipn (S i) outs).
Proof.
  intros Houts Hi Hfail Hok.
  destruct (orchestrate_spec chunks w) as [Hc Hm].
  split; [exact Hc|].
  rewrite Hm. f_equal.
  apply results_one_failure; auto using outcomes_length.
Qed.

(** C3: a document of length at most twice the chunk size is not split:
    the chunker is not run, and the backend is called exactly once, on
    the whole content. *)
Theorem processMarkdown_short_document
    (content : jsstring) (chunkSize : Z) (providerName : jsstring)
    (intensity : nat) (w : Orchestrator.world B E) :
  (Z.of_nat (length content) <= 2 * chunkSize)%Z ->
  selectChunks content chunkSize w = (w, [content])
  /\ calls (fst (processMarkdown provider content chunkSize providerName intensity w))
     = calls w ++ [content]
  /\ snd (processMarkdown provider content chunkSize providerName intensity w)
     = applyRules (resultFor content (snd (provider (backend w) content))).
Proof.
  intros Hshort.
  assert (Hsel : selectChunks content chunkSize w = (w, [content])).
  { unfold selectChunks.
    destruct (Z.of_nat (length content) >? chunkSize * 2)%Z eqn:Hgt; [|reflexivity].
    apply Z.gtb_lt in Hgt. lia. }
  split; [exact Hsel|].
  unfold processMarkdown. rewrite Hsel.
  destruct (orchestrate_spec [content] w) as [Hc Hm].
  destruct (orchestrate provider [content] w) as [w' merged].
  simpl in Hc, Hm. simpl. split; [exact Hc|].
  rewrite Hm. destruct (provider (backend w) content); reflexivity.
Qed.

End OrchestratorFacts.

Lemma orchestrate_one_failure_witness :
  calls (fst (orchestrate sampleBackend [str "a"; str "b"; str "c"] sampleWorld))
  = [str "a"; str "b"; str "c"]
  /\ snd (orchestrate sampleBackend [str "a"; str "b"; str "c"] sampleWorld)
     = str ("<a>" ++ String "010" (String "010" "b") ++ String "010" (String "010" "<c>")).
Proof.
  apply (@orchestrate_one_failure unit unit sampleBackend
           [str "a"; str "b"; str "c"] sampleWorld
           [str "<a>"; str "?"; str "<c>"] 1 (str "b")).
  - reflexivity.
  - reflexivity.
  - exists tt. reflexivity.
  - intros j Hj Hlt. simpl in Hlt.
    destruct j as [|[|[|j]]]; try reflexivity; [congruence | lia].
Defined.

Lemma processMarkdown_short_document_witness :
  selectChunks (str "one two") 4 sampleWorld = (sampleWorld, [str "one two"])
  /\ calls (fst (processMarkdown sampleBackend (str "one two") 4 (str "deepseek") 1
                   sampleWorld))
     = [str "one two"]
  /\ snd (processMarkdown sampleBackend (str "one two") 4 (str "deepseek") 1
            sampleWorld)
     = applyRules (str "<one two>").
Proof.
  apply (@processMarkdown_short_document unit unit sampleBackend
           (str "one two") 4%Z (str "deepseek") 1 sampleWorld).
  simpl. lia.
Defined.

(* ================================================================== *)
(** * The matcher: soundness *)
(* ================================================================== *)

Section MatcherSound.

Lemma star_loop_sound (r : regex) (keeps : bool) m :
  sound_for (Matches r) keeps m ->
  forall fuel, sound_for (Matches (Star r)) keeps (fun prev s cap k => star_loop m k fuel prev s cap).
Proof.
  intros Hm fuel. induction fuel as [|fuel IH]; intros prev s cap k x H; simpl in H.
  - exists [], s, prev, cap. repeat split; auto. constructor.
  - unfold orElse in H.
    destruct (m prev s cap _) as [y|] eqn:Hstep.
    + injection H as ->.
      apply Hm in Hstep. destruct Hstep as (t & s' & prev' & cap' & -> & Ht & Hk & Hcap).
      destruct (length s' <? length (t ++ s')); [|discriminate].
      apply IH in Hk. destruct Hk as (t2 & s2 & prev2 & cap2 & -> & Ht2 & Hk2 & Hcap2).
      exists (t ++ t2), s2, prev2, cap2. repeat split.
      * apply app_assoc.
      * constructor; assumption.
      * assumption.
      * intros Hkeep. rewrite Hcap2, Hcap; auto.
    + exists [], s, prev, cap. repeat split; auto. constructor.
Qed.

Lemma rmatch_sound (r : regex) :
  sound_for (Matches r) (negb (has_group r)) (rmatch r).
Proof.
  induction r as [ |p|r1 IH1 r2 IH2|r1 IH1 r2 IH2|r1 IH1|r1 IH1| | | ];
    intros prev s cap k x H; cbn [rmatch] in H.
  - exists [], s, prev, cap. repeat split; auto. constructor.
  - destruct s as [|c s]; [discriminate|].
    destruct (p c) eqn:Hp; [|discriminate].
    exists [c], s, (Some c), cap. repeat split; auto. constructor; assumption.
  - apply IH1 in H. destruct H as (t1 & s1 & prev1 & cap1 & -> & Ht1 & Hk & Hcap1).
    apply IH2 in Hk. destruct Hk as (t2 & s2 & prev2 & cap2 & -> & Ht2 & Hk2 & Hcap2).
    exists (t1 ++ t2), s2, prev2, cap2. repeat split.
    + apply app_assoc.
    + constructor; assumption.
    + assumption.
    + simpl. rewrite negb_orb, andb_true_iff. intros [G1 G2].
      rewrite Hcap2, Hcap1; auto.
  - unfold orElse in H.
    destruct (rmatch r1 prev s cap k) as [y|] eqn:H1.
    + injection H as ->. apply IH1 in H1.
      destruct H1 as (t & s' & prev' & cap' & -> & Ht & Hk & Hcap).
      exists t, s', prev', cap'. repeat split; auto.
      * apply MAltL; assumption.
      * simpl. rewrite negb_orb, andb_true_iff. intros [G1 G2]. auto.
    + apply IH2 in H.
      destruct H as (t & s' & prev' & cap' & -> & Ht & Hk & Hcap).
      exists t, s', prev', cap'. repeat split; auto.
      * apply MAltR; assumption.
      * simpl. rewrite negb_orb, andb_true_iff. intros [G1 G2]. auto.
  - apply (star_loop_sound IH1) in H. exact H.
  - apply IH1 in H. destruct H as (t & s' & prev' & cap' & -> & Ht & Hk & _).
    eexists t, s', prev', _. split; [reflexivity|].
    split; [constructor; assumption|].
    split; [exact Hk|].
    simpl. intros Hf; discriminate Hf.
  - destruct prev; [discriminate|].
    exists [], s, None, cap. repeat split; auto. constructor.
  - destruct s; [|discriminate].
    exists [], [], prev, cap. repeat split; auto. constructor.
  - destruct (xorb _ _); [|discriminate].
    exists [], s, prev, cap. repeat split; auto. constructor.
Qed.

Lemma firstn_length_app (t s' : jsstring) :
  firstn (length (t ++ s') - length s') (t ++ s') = t.
Proof.
  rewrite length_app. replace (length t + length s' - length s') with (length t) by lia.
  rewrite firstn_app, firstn_all, Nat.sub_diag. simpl. apply app_nil_r.
Qed.

(** A successful [exec] splits the input into the match and the rest, and
    the match is a text of the pattern. *)
Lemma exec_sound (r : regex) (prev : option jschar) (s m rest : jsstring)
    (cap : option jsstring) :
  exec r prev s = Some (m, cap, rest) ->
  s = m ++ rest /\ Matches r m.
Proof.
  unfold exec. intros H.
  destruct (rmatch r prev s None _) as [[s' cap']|] eqn:Hm; [|discriminate].
  injection H as <- <- <-.
  apply rmatch_sound in Hm.
  destruct Hm as (t & s'' & prev' & cap'' & -> & Ht & Hk & _).
  injection Hk as <- <-.
  rewrite firstn_length_app. auto.
Qed.

(** A pattern without a group captures nothing. *)
Lemma exec_no_group (r : regex) (prev : option jschar) (s m rest : jsstring)
    (cap : option jsstring) :
  has_group r = false ->
  exec r prev s = Some (m, cap, rest) -> cap = None.
Proof.
  unfold exec. intros Hg H.
  destruct (rmatch r prev s None _) as [[s' cap']|] eqn:Hm; [|discriminate].
  injection H as <- <- <-.
  apply rmatch_sound in Hm.
  destruct Hm as (t & s'' & prev' & cap'' & -> & Ht & Hk & Hcap).
  injection Hk as <- <-. apply Hcap. rewrite Hg. reflexivity.
Qed.

End MatcherSound.

(* ================================================================== *)
(** * The scanner *)
(* ================================================================== *)

Section Scanner.

Variable r : regex.

(** The segments spell the input. *)
Lemma scan_source (fuel : nat) :
  forall prev s, concat (map source (scan fuel r prev s)) = s.
Proof.
  induction fuel as [|fuel IH]; intros prev s; simpl.
  - induction s as [|c s IHs]; simpl; [reflexivity | rewrite IHs; reflexivity].
  - assert (Hstep : concat (map source
                        match s with
                        | [] => []
                        | c :: s' => Plain c :: scan fuel r (Some c) s'
                        end) = s).
    { destruct s as [|c s']; simpl; [reflexivity | rewrite IH; reflexivity]. }
    destruct (exec r prev s) as [[[m cap] rest]|] eqn:He; [|exact Hstep].
    apply exec_sound in He. destruct He as [-> _].
    destruct m as [|c m]; simpl.
    + simpl in Hstep. exact Hstep.
    + rewrite IH. reflexivity.
Qed.

Lemma matchAll_source (s : jsstring) : concat (map source (matchAll r s)) = s.
Proof. apply scan_source. Qed.

(** Every span is the result of a successful match attempt. *)
Variable P : jsstring -> option jsstring -> Prop.
Hypothesis exec_P :
  forall prev s m cap rest, exec r prev s = Some (m, cap, rest) -> P m cap.

Lemma scan_spans (fuel : nat) :
  forall prev s, Forall (span_has P) (scan fuel r prev s).
Proof.
  induction fuel as [|fuel IH]; intros prev s; simpl.
  - induction s; simpl; constructor; simpl; auto.
  - assert (Hstep : Forall (span_has P)
                        match s with
                        | [] => []
                        | c :: s' => Plain c :: scan fuel r (Some c) s'
                        end).
    { destruct s; constructor; simpl; auto. }
    destruct (exec r prev s) as [[[m cap] rest]|] eqn:He; [|exact Hstep].
    apply exec_P in He.
    destruct m; constructor; simpl; auto.
Qed.

Lemma matchAll_spans (s : jsstring) : Forall (span_has P) (matchAll r s).
Proof. apply scan_spans. Qed.

End Scanner.

(* ================================================================== *)
(** * Texts of particular patterns *)
(* ================================================================== *)

Section PatternTexts.

Lemma Matches_Chr (p : jschar -> bool) (t : jsstring) :
  Matches (Chr p) t -> exists c, t = [c] /\ p c = true.
Proof. inversion 1; subst; eauto. Qed.

Lemma Matches_Seq (r1 r2 : regex) (t : jsstring) :
  Matches (Seq r1 r2) t ->
  exists t1 t2, t = t1 ++ t2 /\ Matches r1 t1 /\ Matches r2 t2.
Proof. inversion 1; subst; eauto. Qed.

Lemma Matches_Alt (r1 r2 : regex) (t : jsstring) :
  Matches (Alt r1 r2) t -> Matches r1 t \/ Matches r2 t.
Proof. inversion 1; subst; auto. Qed.

Lemma Matches_Lit (l t : jsstring) : Matches (Lit l) t -> t = l.
Proof.
  revert t; induction l as [|c l IH]; intros t H; simpl in H.
  - inversion H; reflexivity.
  - apply Matches_Seq in H. destruct H as (t1 & t2 & -> & H1 & H2).
    apply Matches_Chr in H1. destruct H1 as (d & -> & Hd).
    apply N.eqb_eq in Hd. subst d. rewrite (IH _ H2). reflexivity.
Qed.

Lemma Matches_Star_Chr (p : jschar -> bool) (t : jsstring) :
  Matches (Star (Chr p)) t -> forallb p t = true.
Proof.
  intros H. remember (Star (Chr p)) as r eqn:Hr.
  induction H; try discriminate; [reflexivity|].
  injection Hr as ->.
  apply Matches_Chr in H. destruct H as (c & -> & Hc).
  simpl. rewrite Hc. auto.
Qed.

Lemma Matches_Plus_Chr (p : jschar -> bool) (t : jsstring) :
  Matches (Plus (Chr p)) t -> t <> [] /\ forallb p t = true.
Proof.
  intros H. apply Matches_Seq in H. destruct H as (t1 & t2 & -> & H1 & H2).
  apply Matches_Chr in H1. destruct H1 as (c & -> & Hc).
  apply Matches_Star_Chr in H2. simpl. rewrite Hc, H2. split; [discriminate | reflexivity].
Qed.

Lemma last_cons_default {A : Type} (l : list A) (a d : A) :
  last (a :: l) d = last l a.
Proof.
  revert a d; induction l as [|b l IH]; intros a d; [reflexivity|].
  change (last (a :: b :: l) d) with (last (b :: l) d).
  rewrite (IH b d), (IH b a). reflexivity.
Qed.

(** A greedy class loop runs to the end of the run of class characters
    when the continuation accepts there. *)
Lemma star_chr_run (p : jschar -> bool) (k : cont) (x : outcome) (tail : jsstring) :
  match tail with c :: _ => p c = false | [] => True end ->
  forall (run : jsstring) (fuel : nat) (prev : option jschar) (cap : option jsstring),
    forallb p run = true ->
    length run <= fuel ->
    k (last (map Some run) prev) tail cap = Some x ->
    star_loop (rmatch (Chr p)) k fuel prev (run ++ tail) cap = Some x.
Proof.
  intros Htail run. induction run as [|c run IH]; intros fuel prev cap Hrun Hfuel Hk.
  - simpl in Hk |- *. destruct fuel as [|fuel]; simpl; [exact Hk|].
    destruct tail as [|d tail]; simpl; [exact Hk|]. rewrite Htail. exact Hk.
  - destruct fuel as [|fuel]; [simpl in Hfuel; lia|].
    simpl in Hrun. apply andb_true_iff in Hrun. destruct Hrun as [Hc Hrun].
    cbn [star_loop app rmatch]. rewrite Hc.
    replace (length (run ++ tail) <? length (c :: run ++ tail)) with true
      by (symmetry; apply Nat.ltb_lt; simpl; lia).
    assert (Hrest : star_loop (rmatch (Chr p)) k fuel (Some c) (run ++ tail) cap = Some x).
    { apply IH; [exact Hrun | simpl in Hfuel; lia |].
      rewrite <- last_cons_default with (d := prev). exact Hk. }
    cbn [rmatch] in Hrest. rewrite Hrest. reflexivity.
Qed.

(** The spans of [re_markup]. *)
Lemma exec_markup (prev : option jschar) (s m rest : jsstring) (cap : option jsstring) :
  exec re_markup prev s = Some (m, cap, rest) -> markup_span m cap.
Proof.
  unfold exec, re_markup. intros H.
  destruct (rmatch _ prev s None _) as [[s' cap']|] eqn:Hm; [|discriminate].
  injection H as <- <- <-.
  cbn [rmatch] in Hm.
  apply rmatch_sound in Hm.
  destruct Hm as (t1 & s1 & prev1 & cap1 & -> & Ht1 & Hk1 & _).
  apply Matches_Lit in Ht1. subst t1.
  apply (@rmatch_sound (Plus (Chr not_bracket))) in Hk1.
  destruct Hk1 as (t2 & s2 & prev2 & cap2 & -> & Ht2 & Hk2 & _).
  apply Matches_Plus_Chr in Ht2. destruct Ht2 as [Hne Hnb].
  apply rmatch_sound in Hk2.
  destruct Hk2 as (t3 & s3 & prev3 & cap3 & -> & Ht3 & Hk3 & Hcap3).
  apply Matches_Lit in Ht3. subst t3.
  injection Hk3 as <- <-.
  rewrite (Hcap3 eq_refl), firstn_length_app.
  exists t2. repeat split; auto.
  replace (str "[[" ++ t2 ++ str "]]" ++ s3) with (markup t2 ++ s3)
    by (unfold markup; rewrite <- !app_assoc; reflexivity).
  apply firstn_length_app.
Qed.

(** Conversely, a span in the text is found where it stands. *)
Lemma exec_markup_at (prev : option jschar) (keyword rest : jsstring) :
  keyword <> [] -> forallb not_bracket keyword = true ->
  exec re_markup prev (markup keyword ++ rest)
  = Some (markup keyword, Some keyword, rest).
Proof.
  intros Hne Hnb. destruct keyword as [|c run]; [congruence|].
  simpl in Hnb. apply andb_true_iff in Hnb. destruct Hnb as [Hc Hrun].
  unfold exec.
  assert (Hm : rmatch re_markup prev (markup (c :: run) ++ rest) None
                 (fun _ s' cap' => Some (s', cap'))
               = Some (rest, Some (c :: run))).
  { unfold re_markup, markup. cbn [rmatch Lit str map list_ascii_of_string app].
    change (N_of_ascii "[") with 91%N. cbn [N.eqb Pos.eqb].
    unfold Plus. cbn [rmatch]. rewrite Hc.
    rewrite <- app_assoc.
    apply star_chr_run; auto.
    - reflexivity.
    - rewrite length_app. lia.
    - cbn [rmatch Lit str map list_ascii_of_string app].
      change (N_of_ascii "]") with 93%N. cbn [N.eqb Pos.eqb].
      do 3 f_equal.
      apply (firstn_length_app (c :: run) (93%N :: 93%N :: rest)). }
  rewrite Hm. do 3 f_equal.
  apply firstn_length_app.
Qed.

(** No span starts at a character other than an opening bracket. *)
Lemma exec_markup_plain (prev : option jschar) (c : jschar) (s : jsstring) :
  N.eqb c (chr "[") = false -> exec re_markup prev (c :: s) = None.
Proof.
  intros Hc. unfold exec, re_markup. cbn [rmatch Lit str map list_ascii_of_string].
  rewrite N.eqb_sym. unfold chr in Hc. rewrite Hc. reflexivity.
Qed.

End PatternTexts.

(* ================================================================== *)
(** * Duplicate suppression *)
(* ================================================================== *)

Section DuplicateSuppression.

Lemma jsstring_eqb_sym (a b : jsstring) : jsstring_eqb a b = jsstring_eqb b a.
Proof.
  destruct (jsstring_eqb a b) eqn:H1, (jsstring_eqb b a) eqn:H2; auto.
  - apply jsstring_eqb_eq in H1. subst. rewrite jsstring_eqb_refl in H2. discriminate.
  - apply jsstring_eqb_eq in H2. subst. rewrite jsstring_eqb_refl in H1. discriminate.
Qed.

(** The set [seen] always holds exactly the normalised forms of the spans
    passed so far. *)
Lemma dedupe_keepFirst (segs : list segment) :
  forall seen earlier,
    (forall x, has seen x
               = existsb (fun k => jsstring_eqb (normalizeKeyword k) x) earlier) ->
    dedupe seen segs = keepFirst earlier segs.
Proof.
  induction segs as [|g segs IH]; intros seen earlier Hinv; [reflexivity|].
  destruct g as [c | m [keyword|]]; simpl.
  - f_equal. apply IH. exact Hinv.
  - rewrite (Hinv (normalizeKeyword keyword)).
    destruct (existsb _ earlier) eqn:Hseen.
    + f_equal. apply IH. intros x. rewrite existsb_app. simpl. rewrite orb_false_r.
      rewrite Hinv.
      destruct (jsstring_eqb (normalizeKeyword keyword) x) eqn:Hx;
        [|rewrite orb_false_r; reflexivity].
      apply jsstring_eqb_eq in Hx. subst x. rewrite Hseen. reflexivity.
    + f_equal. apply IH. intros x. unfold has in *. rewrite !existsb_app. simpl.
      rewrite !orb_false_r, <- Hinv. f_equal. apply jsstring_eqb_sym.
  - f_equal. apply IH. exact Hinv.
Qed.

Lemma removeDuplicates_keepFirst (text : jsstring) :
  removeDuplicates text = keepFirst [] (matchAll re_markup text).
Proof. unfold removeDuplicates. apply dedupe_keepFirst. reflexivity. Qed.

Lemma scan_markup_end (fuel : nat) (prev : option jschar) :
  scan fuel re_markup prev [] = [].
Proof. destruct fuel; reflexivity. Qed.

Lemma scan_markup_text (t : jsstring) :
  forall fuel prev rest,
    plain t -> length t <= fuel ->
    exists prev',
      scan fuel re_markup prev (t ++ rest)
      = map Plain t ++ scan (fuel - length t) re_markup prev' rest.
Proof.
  induction t as [|c t IH]; intros fuel prev rest Hplain Hfuel.
  - exists prev. simpl. rewrite Nat.sub_0_r. reflexivity.
  - unfold plain in Hplain. simpl in Hplain. apply andb_true_iff in Hplain.
    destruct Hplain as [Hc Hplain]. apply negb_true_iff in Hc.
    destruct fuel as [|fuel]; [simpl in Hfuel; lia|].
    destruct (IH fuel (Some c) rest Hplain ltac:(simpl in Hfuel; lia)) as [prev' Hs].
    exists prev'. cbn [scan app]. rewrite exec_markup_plain by exact Hc.
    rewrite Hs. reflexivity.
Qed.

(** The scanner finds the spans of a document exactly where they were
    written. *)
Lemma scan_markup_doc (d : list item) :
  forall fuel prev,
    Forall item_ok d -> length (render d) <= fuel ->
    scan fuel re_markup prev (render d) = segments_of d.
Proof.
  induction d as [|i d IH]; intros fuel prev Hok Hfuel.
  - apply scan_markup_end.
  - inversion Hok as [|? ? Hi Hd]; subst.
    destruct i as [t | keyword]; cbn [segments_of flat_map].
    + change (render (Text t :: d)) with (t ++ render d) in *.
      rewrite length_app in Hfuel.
      destruct (@scan_markup_text t fuel prev (render d) Hi ltac:(lia))
        as [prev' ->].
      f_equal. apply IH; [exact Hd | lia].
    + change (render (Link keyword :: d)) with (markup keyword ++ render d) in *.
      rewrite length_app in Hfuel.
      destruct Hi as [Hne Hnb].
      assert (Hlen : 4 <= length (markup keyword))
        by (unfold markup; rewrite !length_app; simpl; lia).
      destruct fuel as [|fuel]; [lia|].
      cbn [scan]. rewrite exec_markup_at by assumption.
      unfold markup at 1. cbn [str map list_ascii_of_string app]. cbn [app].
      f_equal. apply IH; [exact Hd | lia].
Qed.

Lemma matchAll_markup_doc (d : list item) :
  Forall item_ok d -> matchAll re_markup (render d) = segments_of d.
Proof. intros Hok. apply scan_markup_doc; [exact Hok | lia]. Qed.

Lemma keepFirst_text (t : jsstring) (earlier : list jsstring) (segs : list segment) :
  keepFirst earlier (map Plain t ++ segs) = t ++ keepFirst earlier segs.
Proof.
  induction t as [|c t IH]; simpl; [reflexivity | rewrite IH; reflexivity].
Qed.

Lemma keepFirst_text_end (t : jsstring) (earlier : list jsstring) :
  keepFirst earlier (map Plain t) = t.
Proof.
  induction t as [|c t IH]; simpl; [reflexivity | rewrite IH; reflexivity].
Qed.

Lemma cat_ok : item_ok (Link (str "Cat")) /\ item_ok (Link (str "Cats")).
Proof. repeat split; simpl; try discriminate; reflexivity. Qed.

(** Rule 4 taken alone, lines 160-167: it goes through the markup spans
    from left to right; a span stays [[...]] markup exactly when no
    earlier span has its normalised form, and is otherwise replaced by
    its content, the brackets gone.  With [[Cat]] twice and [[Cats]]
    once, in any order and with any bracket-free text around them, the
    first of the three stays markup and the other two become their plain
    text.  In [applyRules] the rule comes after the name/number filter,
    which has deleted such spans by then. *)
Lemma removeDuplicates_keeps_first :
  (forall text,
      applyRulesWith onlyRemoveDuplicates text = removeDuplicates text
      /\ concat (map source (matchAll re_markup text)) = text
      /\ Forall (span_has markup_span) (matchAll re_markup text)
      /\ removeDuplicates text = keepFirst [] (matchAll re_markup text))
  /\ (forall t0 t1 t2 t3 k1 k2 k3,
        plain t0 -> plain t1 -> plain t2 -> plain t3 ->
        In (k1, k2, k3) [(str "Cat", str "Cat", str "Cats");
                         (str "Cat", str "Cats", str "Cat");
                         (str "Cats", str "Cat", str "Cat")] ->
        removeDuplicates
          (t0 ++ markup k1 ++ t1 ++ markup k2 ++ t2 ++ markup k3 ++ t3)
        = t0 ++ markup k1 ++ t1 ++ k2 ++ t2 ++ k3 ++ t3).
Proof.
  split.
  - intros text. split; [reflexivity|]. split; [apply matchAll_source|].
    split; [|apply removeDuplicates_keepFirst].
    apply matchAll_spans. intros prev s m cap rest. apply exec_markup.
  - intros t0 t1 t2 t3 k1 k2 k3 H0 H1 H2 H3 Hk.
    rewrite removeDuplicates_keepFirst.
    replace (t0 ++ markup k1 ++ t1 ++ markup k2 ++ t2 ++ markup k3 ++ t3)
      with (render [Text t0; Link k1; Text t1; Link k2; Text t2; Link k3; Text t3])
      by (unfold render; simpl; rewrite app_nil_r; reflexivity).
    destruct cat_ok as [Hcat Hcats].
    rewrite matchAll_markup_doc.
    + cbn [segments_of flat_map]. rewrite app_nil_r.
      rewrite keepFirst_text. f_equal.
      simpl in Hk.
      destruct Hk as [Hk | [Hk | [Hk | []]]]; injection Hk as <- <- <-;
        simpl; repeat (rewrite keepFirst_text; simpl);
        rewrite keepFirst_text_end; reflexivity.
    + simpl in Hk.
      destruct Hk as [Hk | [Hk | [Hk | []]]]; injection Hk as <- <- <-;
        repeat constructor; auto; try discriminate.
Qed.

Lemma removeDuplicates_keeps_first_witness :
  removeDuplicates (str "[[Cat]] and [[Cats]] and [[Cat]]")
  = str "[[Cat]] and Cats and Cat".
Proof.
  apply (proj2 removeDuplicates_keeps_first
           [] (str " and ") (str " and ") [] (str "Cat") (str "Cats") (str "Cat"));
    try reflexivity.
  simpl. auto.
Defined.

End DuplicateSuppression.

(* ================================================================== *)
(** * The order of the rules *)
(* ================================================================== *)

Section RuleOrder.

Lemma lacks_spec (a : ascii) (t : jsstring) : lacks a t <-> ~ In (chr a) t.
Proof.
  unfold lacks. induction t as [|c t IH]; simpl.
  - split; auto.
  - rewrite andb_true_iff, IH, negb_true_iff, N.eqb_neq. intuition congruence.
Qed.

(** A filter that deletes its matches only drops characters. *)
Lemma replaceAll_delete_chars (r : regex) (s : jsstring) (c : jschar) :
  In c (replaceAll r (fun _ _ => []) s) -> In c s.
Proof.
  unfold replaceAll. rewrite <- (matchAll_source r s) at 2.
  induction (matchAll r s) as [|g segs IH]; simpl; [auto|].
  rewrite !in_app_iff. destruct g as [d | m cap]; simpl; tauto.
Qed.

Lemma dedupe_chars (segs : list segment) (c : jschar) :
  Forall (span_has markup_span) segs ->
  forall seen, In c (dedupe seen segs) -> In c (concat (map source segs)).
Proof.
  induction 1 as [|g segs Hg Hsegs IH]; intros seen; simpl; [auto|].
  destruct g as [d | m [keyword|]]; simpl.
  - intros [-> | Hin]; [auto | right; eapply IH; eauto].
  - destruct Hg as (kw & -> & Hcap & _). injection Hcap as <-.
    rewrite in_app_iff.
    destruct (has seen (normalizeKeyword keyword));
      rewrite in_app_iff; intros [Hin | Hin].
    + left. unfold markup. rewrite !in_app_iff. auto.
    + right. eapply IH; eauto.
    + auto.
    + right. eapply IH; eauto.
  - rewrite !in_app_iff. intros [Hin | Hin]; [auto | right; eapply IH; eauto].
Qed.

Lemma removeDuplicates_chars (s : jsstring) (c : jschar) :
  In c (removeDuplicates s) -> In c s.
Proof.
  intros H. rewrite <- (matchAll_source re_markup s).
  eapply dedupe_chars; [|exact H].
  apply matchAll_spans. intros prev s' m cap rest. apply exec_markup.
Qed.

(** A reference span holds an at-sign or a colon. *)
Lemma Matches_reference (m : jsstring) :
  Matches re_reference m -> In (chr "@") m \/ In (chr ":") m.
Proof.
  unfold re_reference. intros H.
  apply Matches_Seq in H. destruct H as (t1 & t2 & -> & _ & H).
  apply Matches_Seq in H. destruct H as (t3 & t4 & -> & H & _).
  apply Matches_Alt in H. destruct H as [H | H].
  - apply Matches_Chr in H. destruct H as (c & -> & Hc).
    apply N.eqb_eq in Hc. subst c.
    left. rewrite !in_app_iff. simpl. auto.
  - apply Matches_Seq in H. destruct H as (t5 & t6 & -> & _ & H).
    apply Matches_Seq in H. destruct H as (t7 & t8 & -> & _ & H).
    apply Matches_Lit in H. subst t8.
    right. rewrite !in_app_iff. simpl. auto 10.
Qed.

(** Without an at-sign and without a colon there is nothing for the
    reference filter to remove. *)
Lemma ignoreReferences_id (s : jsstring) :
  lacks "@" s -> lacks ":" s -> ignoreReferences s = s.
Proof.
  rewrite !lacks_spec. intros Hat Hcolon.
  unfold ignoreReferences, replaceAll.
  pose proof (matchAll_source re_reference s) as Hsrc.
  assert (Hspans : Forall (span_has (fun m _ => Matches re_reference m))
                          (matchAll re_reference s)).
  { apply matchAll_spans. intros prev s' m cap rest He.
    apply exec_sound in He. tauto. }
  rewrite <- Hsrc at 2.
  rewrite <- Hsrc in Hat, Hcolon. clear Hsrc.
  induction Hspans as [|g segs Hg Hsegs IH]; [reflexivity|].
  simpl in Hat, Hcolon |- *. rewrite in_app_iff in Hat, Hcolon.
  destruct g as [d | m cap]; simpl in *.
  - f_equal. apply IH; tauto.
  - apply Matches_reference in Hg. tauto.
Qed.

Lemma lacks_skipConventionalNames (a : ascii) (s : jsstring) :
  lacks a s -> lacks a (skipConventionalNames s).
Proof.
  rewrite !lacks_spec. intros H Hin. apply H.
  eapply replaceAll_delete_chars. exact Hin.
Qed.

Lemma lacks_removeDuplicates (a : ascii) (s : jsstring) :
  lacks a s -> lacks a (removeDuplicates s).
Proof.
  rewrite !lacks_spec. intros H Hin. apply H.
  apply removeDuplicates_chars. exact Hin.
Qed.

(** C5 (as amended): [applyRules] runs the name/number filter, then
    duplicate suppression, then the reference filter; so only the
    name/number filter takes effect before duplicate suppression.  On a
    text with no at-sign and no colon, where no reference span can
    arise, this is the same as running both filters first and duplicate
    suppression last. *)
Theorem applyRules_order (text : jsstring) :
  applyRules text = ignoreReferences (removeDuplicates (skipConventionalNames text))
  /\ (lacks "@" text -> lacks ":" text ->
      applyRules text = removeDuplicates (ignoreReferences (skipConventionalNames text))
      /\ applyRules text = removeDuplicates (skipConventionalNames (ignoreReferences text))).
Proof.
  split; [reflexivity|].
  intros Hat Hcolon.
  change (applyRules text)
    with (ignoreReferences (removeDuplicates (skipConventionalNames text))).
  rewrite (ignoreReferences_id (s := removeDuplicates _))
    by (apply lacks_removeDuplicates, lacks_skipConventionalNames; assumption).
  rewrite (ignoreReferences_id (s := skipConventionalNames _))
    by (apply lacks_skipConventionalNames; assumption).
  rewrite (ignoreReferences_id Hat Hcolon).
  auto.
Qed.

Lemma applyRules_order_witness :
  applyRules (str "[[cats]] and [[cat]] in [[Rome]]")
  = removeDuplicates (ignoreReferences (skipConventionalNames
                        (str "[[cats]] and [[cat]] in [[Rome]]"))).
Proof.
  apply (proj2 (applyRules_order (str "[[cats]] and [[cat]] in [[Rome]]")));
    reflexivity.
Defined.

(** C5 as stated fails: on two reference spans with the same content the
    first is counted as the kept occurrence, the second loses its
    brackets, and only then is the first removed; with the filters first
    both spans are removed. *)
Lemma applyRules_filters_first_counterexample :
  applyRules (str "[[@a]] [[@a]]") = str " @a"
  /\ removeDuplicates (ignoreReferences (skipConventionalNames (str "[[@a]] [[@a]]")))
     = str " "
  /\ removeDuplicates (skipConventionalNames (ignoreReferences (str "[[@a]] [[@a]]")))
     = str " "
  /\ ~ (forall text,
          applyRules text
          = removeDuplicates (ignoreReferences (skipConventionalNames text)))
  /\ ~ (forall text,
          applyRules text
          = removeDuplicates (skipConventionalNames (ignoreReferences text))).
Proof.
  repeat split; try (vm_compute; reflexivity);
    intros H; specialize (H (str "[[@a]] [[@a]]")); vm_compute in H; discriminate H.
Qed.

End RuleOrder.

(* ================================================================== *)
(** * Backlink files *)
(* ================================================================== *)

Module BacklinksFacts.
Import Backlinks.

















End BacklinksFacts.

(* ================================================================== *)
(** * The chunker *)
(* ================================================================== *)

Section Tokens.

Lemma countTokens_inside (s : jsstring) :
  countTokens true s <= countTokens false s.
Proof.
  induction s as [|c s IH]; simpl; [lia|].
  destruct (is_space c); lia.
Qed.

Lemma countTokens_allSpace (w : jsstring) (inside : bool) :
  allSpace w -> countTokens inside w = 0.
Proof.
  unfold allSpace. revert inside. induction w as [|c w IH]; intros inside H; simpl in *.
  - reflexivity.
  - apply andb_true_iff in H. destruct H as [Hc Hw]. rewrite Hc. auto.
Qed.

(** Whitespace at the end adds no token. *)
Lemma countTokens_app_space (a w : jsstring) (inside : bool) :
  allSpace w -> countTokens inside (a ++ w) = countTokens inside a.
Proof.
  intros Hw. revert inside. induction a as [|c a IH]; intros inside; simpl.
  - apply countTokens_allSpace. exact Hw.
  - destruct (is_space c); [apply IH|]. destruct inside; rewrite IH; reflexivity.
Qed.

(** Joining two texts never makes more tokens than they have apart. *)
Lemma countTokens_app_le (a b : jsstring) (inside : bool) :
  countTokens inside (a ++ b) <= countTokens inside a + countTokens false b.
Proof.
  revert inside. induction a as [|c a IH]; intros inside; simpl.
  - destruct inside; [apply countTokens_inside | lia].
  - destruct (is_space c); [apply IH|].
    destruct inside; [apply IH|]. specialize (IH true). lia.
Qed.

Lemma tokenCount_unit (u : jsstring * jsstring) :
  allSpace (snd u) -> tokenCount (unitText u) = tokenCount (fst u).
Proof. intros H. apply countTokens_app_space. exact H. Qed.

Lemma tokenCount_flatten (g : list (jsstring * jsstring)) :
  Forall (fun u => allSpace (snd u)) g ->
  tokenCount (flatten g) <= list_sum (map (fun u => tokenCount (fst u)) g).
Proof.
  induction 1 as [|u g Hu Hg IH]; simpl; [unfold tokenCount; simpl; lia|].
  unfold flatten in *. simpl. unfold tokenCount in *.
  pose proof (countTokens_app_le (unitText u) (concat (map unitText g)) false) as H.
  pose proof (tokenCount_unit u Hu) as Hu'. unfold tokenCount in Hu'. lia.
Qed.

End Tokens.

Section WhitespacePattern.

Lemma star_loop_total m (k : cont) (fuel : nat) prev s cap :
  (forall prev' s' cap', k prev' s' cap' <> None) ->
  star_loop m k fuel prev s cap <> None.
Proof.
  intros Hk. destruct fuel as [|fuel]; simpl; [apply Hk|].
  unfold orElse. destruct (m prev s cap _); [discriminate | apply Hk].
Qed.

Lemma exec_whitespace (prev : option jschar) (s m rest : jsstring)
    (cap : option jsstring) :
  exec re_whitespace prev s = Some (m, cap, rest) -> m <> [] /\ allSpace m.
Proof.
  intros H. apply exec_sound in H. destruct H as [_ H].
  apply Matches_Plus_Chr in H. exact H.
Qed.

(** At a whitespace character the pattern matches. *)
Lemma exec_whitespace_at (prev : option jschar) (c : jschar) (s : jsstring) :
  is_space c = true -> exec re_whitespace prev (c :: s) <> None.
Proof.
  intros Hc. unfold exec, re_whitespace, Plus. cbn [rmatch]. rewrite Hc.
  destruct (star_loop _ _ _ _ _ _) as [[s' cap']|] eqn:H; [discriminate|].
  exfalso. revert H. apply star_loop_total. discriminate.
Qed.

Lemma scan_whitespace (fuel : nat) :
  forall prev s, length s < fuel ->
                 Forall cutAtSpace (scan fuel re_whitespace prev s).
Proof.
  induction fuel as [|fuel IH]; intros prev s Hfuel; [lia|].
  cbn [scan].
  destruct (exec re_whitespace prev s) as [[[m cap] rest]|] eqn:He.
  - pose proof (exec_whitespace _ _ He) as [Hne Hsp].
    apply exec_sound in He. destruct He as [-> _].
    destruct m as [|c m]; [congruence|].
    constructor; [split; assumption|].
    apply IH. rewrite length_app in Hfuel. simpl in Hfuel. lia.
  - destruct s as [|c s]; constructor.
    + simpl. destruct (is_space c) eqn:Hc; [|reflexivity].
      exfalso. revert He. apply exec_whitespace_at. exact Hc.
    + apply IH. simpl in Hfuel. lia.
Qed.

Lemma split_segs_length (segs : list segment) :
  forall cur, S (length (filter is_span segs)) <= length (split_segs cur segs).
Proof.
  induction segs as [|g segs IH]; intros cur; simpl; [lia|].
  destruct g as [c | m [cap|]]; simpl.
  - apply IH.
  - specialize (IH []). lia.
  - specialize (IH []). lia.
Qed.

Lemma countTokens_segments (segs : list segment) :
  Forall cutAtSpace segs ->
  forall inside,
    countTokens inside (concat (map source segs))
    <= length (filter is_span segs) + (if inside then 0 else 1).
Proof.
  induction 1 as [|g segs Hg Hsegs IH]; intros inside; simpl; [lia|].
  destruct g as [c | m cap]; simpl in *.
  - rewrite Hg. specialize (IH true). cbv iota in IH. destruct inside; lia.
  - destruct Hg as [Hne Hsp]. destruct m as [|c m]; [congruence|].
    unfold allSpace in Hsp. simpl in Hsp. apply andb_true_iff in Hsp.
    destruct Hsp as [Hc Hm]. simpl. rewrite Hc.
    pose proof (countTokens_app_le m (concat (map source segs)) false) as Happ.
    rewrite (countTokens_allSpace false Hm) in Happ.
    specialize (IH false). cbv iota in IH. destruct inside; lia.
Qed.

(** The count the loop uses for a paragraph is at least its number of
    tokens. *)
Lemma paraWordCount_tokens (para : jsstring) :
  (Z.of_nat (tokenCount para) <= paraWordCount para)%Z.
Proof.
  unfold paraWordCount, split, tokenCount.
  pose proof (split_segs_length (matchAll re_whitespace para) []) as Hlen.
  pose proof (@scan_whitespace (S (length para)) None para ltac:(lia)) as Hcut.
  pose proof (countTokens_segments Hcut false) as Htok.
  fold (matchAll re_whitespace para) in Htok.
  rewrite matchAll_source in Htok. lia.
Qed.

Lemma paraWordCount_pos (para : jsstring) : (0 < paraWordCount para)%Z.
Proof.
  unfold paraWordCount, split.
  pose proof (split_segs_length (matchAll re_whitespace para) []). lia.
Qed.

End WhitespacePattern.

Section ParagraphPattern.

Lemma Matches_Star_lit (a : ascii) (t : jsstring) :
  Matches (Star (lit a)) t -> forallb (N.eqb (chr a)) t = true.
Proof. apply Matches_Star_Chr. Qed.

Lemma allSpace_newlines (t : jsstring) :
  forallb (N.eqb (chr "010")) t = true -> allSpace t.
Proof.
  unfold allSpace. induction t as [|c t IH]; cbn [forallb]; [reflexivity|].
  rewrite andb_true_iff. intros [Hc Ht]. apply N.eqb_eq in Hc. subst c.
  rewrite (IH Ht). reflexivity.
Qed.

Lemma allSpace_app (a b : jsstring) : allSpace a -> allSpace b -> allSpace (a ++ b).
Proof. unfold allSpace. rewrite forallb_app. intros -> ->. reflexivity. Qed.

Lemma exec_paragraph_break (prev : option jschar) (s m rest : jsstring)
    (cap : option jsstring) :
  exec re_paragraph_break prev s = Some (m, cap, rest) -> breakSpan m cap.
Proof.
  unfold exec, re_paragraph_break. intros H.
  destruct (rmatch _ prev s None _) as [[s' cap']|] eqn:Hm; [|discriminate].
  injection H as <- <- <-.
  cbn [rmatch] in Hm.
  apply (@rmatch_sound (Seq (lit "010") (Seq (Star (Chr is_space)) (Plus (lit "010")))))
    in Hm.
  destruct Hm as (t & s'' & prev' & cap'' & -> & Ht & Hk & _).
  injection Hk as <- <-.
  rewrite firstn_length_app.
  apply Matches_Seq in Ht. destruct Ht as (t1 & t23 & -> & H1 & H23).
  apply Matches_Seq in H23. destruct H23 as (t2 & t3 & -> & H2 & H3).
  apply Matches_Chr in H1. destruct H1 as (c & -> & Hc). apply N.eqb_eq in Hc. subst c.
  apply Matches_Star_Chr in H2.
  apply Matches_Plus_Chr in H3. destruct H3 as [_ H3].
  split; [reflexivity|]. split; [|discriminate].
  apply (allSpace_app (a := [chr "010"])); [reflexivity|].
  apply allSpace_app; [exact H2 | apply allSpace_newlines; exact H3].
Qed.

(** The array [split] gives: paragraphs at the even places, whitespace
    separators at the odd ones; together they spell the text. *)
Lemma units_split_segs (segs : list segment) :
  Forall (span_has breakSpan) segs ->
  forall cur,
    Forall (fun u => allSpace (snd u)) (units (split_segs cur segs))
    /\ concat (map unitText (units (split_segs cur segs)))
       = cur ++ concat (map source segs).
Proof.
  induction 1 as [|g segs Hg Hsegs IH]; intros cur.
  - simpl. split.
    + constructor; [reflexivity | constructor].
    + unfold unitText. simpl. rewrite !app_nil_r. reflexivity.
  - destruct g as [c | m cap].
    + cbn [split_segs map concat source].
      destruct (IH (cur ++ [c])) as [Hsp Hsrc]. split; [exact Hsp|].
      rewrite Hsrc, <- app_assoc. reflexivity.
    + destruct Hg as (-> & Hm & _).
      cbn [split_segs units map concat source].
      destruct (IH []) as [Hsp Hsrc]. split.
      * constructor; [exact Hm | exact Hsp].
      * rewrite Hsrc. unfold unitText. simpl. rewrite <- app_assoc. reflexivity.
Qed.

Lemma units_split (content : jsstring) :
  Forall (fun u => allSpace (snd u)) (units (split re_paragraph_break content))
  /\ concat (map unitText (units (split re_paragraph_break content))) = content.
Proof.
  unfold split.
  destruct (@units_split_segs (matchAll re_paragraph_break content)) with (cur := @nil jschar)
    as [Hsp Hsrc].
  - apply matchAll_spans. intros prev s m cap rest. apply exec_paragraph_break.
  - split; [exact Hsp|]. rewrite Hsrc. apply matchAll_source.
Qed.

End ParagraphPattern.

Section SplitLoop.

Variable chunkSize : Z.

Lemma splitLoop_units (paragraphs : list jsstring) :
  forall st,
    splitLoop chunkSize paragraphs st
    = fold_left (fun st u => splitStep chunkSize (fst u) (snd u) st)
                (units paragraphs) st.
Proof.
  assert (H : (forall st, splitLoop chunkSize paragraphs st
                 = fold_left (fun st u => splitStep chunkSize (fst u) (snd u) st)
                             (units paragraphs) st)
              /\ (forall a st, splitLoop chunkSize (a :: paragraphs) st
                    = fold_left (fun st u => splitStep chunkSize (fst u) (snd u) st)
                                (units (a :: paragraphs)) st)).
  { induction paragraphs as [|b rest [IH1 IH2]].
    - split; reflexivity.
    - split; [apply IH2|].
      intros a st. cbn [splitLoop units fold_left fst snd]. apply IH1. }
  apply H.
Qed.

Lemma sumZ_app (a b : list Z) : sumZ (a ++ b) = (sumZ a + sumZ b)%Z.
Proof. induction a as [|x a IH]; simpl; [reflexivity | rewrite IH; lia]. Qed.

Lemma sumZ_counts_pos (cur : list (jsstring * jsstring)) :
  cur <> [] -> (0 < sumZ (map (fun u => paraWordCount (fst u)) cur))%Z.
Proof.
  destruct cur as [|u cur]; [congruence|]. intros _. simpl.
  pose proof (paraWordCount_pos (fst u)).
  assert (0 <= sumZ (map (fun u => paraWordCount (fst u)) cur))%Z; [|lia].
  induction cur as [|v cur IH]; simpl; [lia|].
  pose proof (paraWordCount_pos (fst v)). lia.
Qed.

Lemma sumZ_counts_tokens (cur : list (jsstring * jsstring)) :
  (Z.of_nat (list_sum (map (fun u => tokenCount (fst u)) cur))
   <= sumZ (map (fun u => paraWordCount (fst u)) cur))%Z.
Proof.
  induction cur as [|u cur IH]; simpl; [lia|].
  pose proof (paraWordCount_tokens (fst u)). lia.
Qed.

(** A chunk whose count respects the bound as soon as it has two
    paragraphs is fine. *)
Lemma chunkOk_group (cur : list (jsstring * jsstring)) :
  cur <> [] ->
  Forall (fun u => allSpace (snd u)) cur ->
  (2 <= length cur ->
   (sumZ (map (fun u => paraWordCount (fst u)) cur) <= chunkSize)%Z) ->
  chunkOk chunkSize cur.
Proof.
  intros Hne Hsp Hcount. split; [exact Hne|].
  destruct cur as [|u [|v cur]]; [congruence| |].
  - destruct (Z.le_gt_cases (Z.of_nat (tokenCount (flatten [u]))) chunkSize) as [Hle|Hgt].
    + left. exact Hle.
    + right. exists u. split; [reflexivity|].
      unfold flatten in Hgt. simpl in Hgt. rewrite app_nil_r in Hgt.
      inversion Hsp; subst. rewrite tokenCount_unit in Hgt; assumption.
  - left.
    pose proof (tokenCount_flatten Hsp) as H1.
    pose proof (sumZ_counts_tokens (u :: v :: cur)) as H2.
    specialize (Hcount ltac:(simpl; lia)). lia.
Qed.

Lemma splitInv_init : splitInv chunkSize []
                        {| chunks := []; currentChunk := []; currentCount := 0 |}.
Proof.
  exists [], []. simpl. repeat split; auto. intros H; lia.
Qed.

Lemma blank_spec (para : jsstring) :
  blank para = match trim para with [] => true | _ :: _ => false end.
Proof. reflexivity. Qed.

Lemma splitInv_step (us : list (jsstring * jsstring)) (u : jsstring * jsstring)
    (st : splitter) :
  allSpace (snd u) ->
  splitInv chunkSize us st ->
  splitInv chunkSize (us ++ [u]) (splitStep chunkSize (fst u) (snd u) st).
Proof.
  intros Hu (done & cur & Hcat & Hchunks & Hcur & Hcount & Hdone & Hsp & Hbound).
  unfold splitInv. rewrite filter_app. cbn [filter].
  unfold splitStep. rewrite blank_spec.
  destruct (trim (fst u)) as [|c t]; cbn [negb].
  - exists done, cur. rewrite app_nil_r. repeat split; assumption.
  - destruct ((currentCount st + paraWordCount (fst u) >? chunkSize)%Z
              && (currentCount st >? 0)%Z) eqn:Hflush.
    + apply andb_true_iff in Hflush. destruct Hflush as [_ Hpos].
      apply Z.gtb_lt in Hpos.
      assert (Hne : cur <> []).
      { intros ->. simpl in Hcount. lia. }
      exists (done ++ [cur]), [u]. cbn [chunks currentChunk currentCount].
      repeat split.
      * rewrite concat_app. simpl. rewrite app_nil_r, <- Hcat, <- app_assoc. reflexivity.
      * rewrite map_app, Hchunks, Hcur. reflexivity.
      * simpl. lia.
      * apply Forall_app. split; [exact Hdone|]. constructor; [|constructor].
        apply chunkOk_group; auto. rewrite <- Hcount. exact Hbound.
      * constructor; [exact Hu | constructor].
      * simpl. lia.
    + exists done, (cur ++ [u]). cbn [chunks currentChunk currentCount].
      repeat split.
      * rewrite app_assoc, Hcat. reflexivity.
      * exact Hchunks.
      * rewrite map_app, Hcur. reflexivity.
      * rewrite map_app, sumZ_app, Hcount. simpl. lia.
      * exact Hdone.
      * apply Forall_app. split; [exact Hsp | constructor; [exact Hu | constructor]].
      * rewrite length_app. simpl. intros Hlen.
        assert (Hne : cur <> []) by (destruct cur; simpl in Hlen; [lia | discriminate]).
        pose proof (sumZ_counts_pos Hne) as Hpos. rewrite <- Hcount in Hpos.
        apply andb_false_iff in Hflush. destruct Hflush as [Hf | Hf].
        -- rewrite Z.gtb_ltb, Z.ltb_ge in Hf. lia.
        -- rewrite Z.gtb_ltb, Z.ltb_ge in Hf. lia.
Qed.

Lemma splitInv_fold (rest : list (jsstring * jsstring)) :
  forall us st,
    Forall (fun u => allSpace (snd u)) rest ->
    splitInv chunkSize us st ->
    splitInv chunkSize (us ++ rest)
      (fold_left (fun st u => splitStep chunkSize (fst u) (snd u) st) rest st).
Proof.
  induction rest as [|u rest IH]; intros us st Hsp Hinv.
  - rewrite app_nil_r. exact Hinv.
  - inversion Hsp; subst. simpl.
    replace (us ++ u :: rest) with ((us ++ [u]) ++ rest)
      by (rewrite <- app_assoc; reflexivity).
    apply IH; [assumption|]. apply splitInv_step; assumption.
Qed.

End SplitLoop.


(* ================================================================== *)
(** * The duplicate file reconciler *)
(* ================================================================== *)

Module CleanerFacts.
Import Cleaner.

Section Sorting.

Lemma insertByAge_perm (x : jsstring * Z) (l : list (jsstring * Z)) :
  Permutation (insertByAge x l) (x :: l).
Proof.
  induction l as [|y l IH]; simpl; [apply Permutation_refl|].
  destruct (snd x <=? snd y)%Z; [apply Permutation_refl|].
  eapply Permutation_trans; [apply perm_skip, IH | apply perm_swap].
Qed.

Lemma sortByAge_perm (l : list (jsstring * Z)) : Permutation (sortByAge l) l.
Proof.
  induction l as [|x l IH]; simpl; [apply Permutation_refl|].
  eapply Permutation_trans; [apply insertByAge_perm | apply perm_skip, IH].
Qed.

(** The first of the sorted list is the oldest entry, the earliest in the
    list among the oldest. *)
Lemma sortByAge_head (l : list (jsstring * Z)) :
  l <> [] ->
  exists l1 x l2 rest,
    l = l1 ++ x :: l2 /\ sortByAge l = x :: rest
    /\ firstOldest snd l1 x l2.
Proof.
  induction l as [|y l IH]; [congruence|]. intros _.
  destruct l as [|z l].
  - exists [], y, [], []. repeat split; auto; intros ? [].
  - destruct IH as (l1 & x & l2 & rest & Hl & Hs & Hlt & Hle); [discriminate|].
    change (sortByAge (y :: z :: l)) with (insertByAge y (sortByAge (z :: l))).
    rewrite Hs. simpl.
    destruct (snd y <=? snd x)%Z eqn:Hcmp.
    + apply Z.leb_le in Hcmp.
      exists [], y, (z :: l), (x :: rest). repeat split; auto.
      * intros ? [].
      * intros w Hw. rewrite Hl in Hw. apply in_app_iff in Hw.
        destruct Hw as [Hw | [<- | Hw]].
        -- specialize (Hlt _ Hw). lia.
        -- exact Hcmp.
        -- specialize (Hle _ Hw). lia.
    + apply Z.leb_gt in Hcmp.
      exists (y :: l1), x, l2, (insertByAge y rest). repeat split.
      * rewrite Hl. reflexivity.
      * intros w [<- | Hw]; [exact Hcmp | apply Hlt; exact Hw].
      * exact Hle.
Qed.

End Sorting.

Section Grouping.

Lemma addToGroup_keys (k f : jsstring) (groups : groupMap) :
  map fst (addToGroup k f groups)
  = if existsb (jsstring_eqb k) (map fst groups)
    then map fst groups else map fst groups ++ [k].
Proof.
  induction groups as [|[k' ms] groups IH]; simpl; [reflexivity|].
  rewrite (jsstring_eqb_sym k k').
  destruct (jsstring_eqb k' k); simpl; [reflexivity|].
  rewrite IH. destruct (existsb _ _); reflexivity.
Qed.

Lemma addToGroup_in (k f : jsstring) (groups : groupMap) :
  NoDup (map fst groups) ->
  forall k' ms',
    In (k', ms') (addToGroup k f groups) <->
    (k' <> k /\ In (k', ms') groups)
    \/ (k' = k /\ ((exists ms, In (k, ms) groups /\ ms' = ms ++ [f])
                   \/ (~ In k (map fst groups) /\ ms' = [f]))).
Proof.
  induction groups as [|[k0 ms0] groups IH]; intros Hnd k' ms'; simpl.
  - split.
    + intros [H | []]. injection H as <- <-. right. split; [reflexivity|].
      right. split; [tauto | reflexivity].
    + intros [[_ []] | [-> [(ms & [] & _) | [_ ->]]]]. auto.
  - inversion Hnd as [|? ? Hk0 Hnd']; subst.
    destruct (jsstring_eqb k0 k) eqn:Hk.
    + apply jsstring_eqb_eq in Hk. subst k0. simpl. split.
      * intros [H | H].
        -- injection H as <- <-. right. split; [reflexivity|]. left. eauto.
        -- left. split; [|auto]. intros ->. apply Hk0.
           change k with (fst (k, ms')). apply in_map. exact H.
      * intros [[Hne [H | H]] | [-> [(ms & [H | H] & ->) | [Hnot _]]]].
        -- injection H as -> ->. congruence.
        -- auto.
        -- injection H as ->. auto.
        -- exfalso. apply Hk0. change k with (fst (k, ms)). apply in_map. exact H.
        -- exfalso. apply Hnot. auto.
    + apply jsstring_eqb_neq in Hk. simpl. rewrite (IH Hnd'). split.
      * intros [H | [[Hne H] | [-> [(ms & H & ->) | [Hnot ->]]]]].
        -- injection H as <- <-. left. auto.
        -- left. auto.
        -- right. split; [reflexivity|]. left. eauto.
        -- right. split; [reflexivity|]. right. split; [|reflexivity].
           intros [H | H]; [congruence | contradiction].
      * intros [[Hne [H | H]] | [-> [(ms & [H | H] & ->) | [Hnot ->]]]].
        -- auto.
        -- right. left. auto.
        -- injection H as ->. congruence.
        -- right. right. split; [reflexivity|]. left. eauto.
        -- right. right. split; [reflexivity|]. right. split; [|reflexivity].
           intros H. apply Hnot. auto.
Qed.

Lemma addToGroup_nodup (k f : jsstring) (groups : groupMap) :
  NoDup (map fst groups) -> NoDup (map fst (addToGroup k f groups)).
Proof.
  intros Hnd. rewrite addToGroup_keys.
  destruct (existsb _ _) eqn:Hex; [exact Hnd|].
  apply NoDup_app; [exact Hnd | repeat constructor; intros [] |].
  intros x Hx [Heq | []]. subst x.
  assert (existsb (jsstring_eqb k) (map fst groups) = true); [|congruence].
  apply existsb_exists. exists k. split; [exact Hx | apply jsstring_eqb_refl].
Qed.

Lemma grouped_step (l : list jsstring) (f : jsstring) (groups : groupMap) :
  grouped l groups ->
  grouped (l ++ [f]) (addToGroup (normalizeFileName f) f groups).
Proof.
  intros [Hnd Hin]. split; [apply addToGroup_nodup; exact Hnd|].
  intros k ms. rewrite (@addToGroup_in _ f groups Hnd). rewrite filter_app. simpl.
  unfold keyIs at 2.
  destruct (jsstring_eqb (normalizeFileName f) k) eqn:Hk.
  - apply jsstring_eqb_eq in Hk. subst k. split.
    + intros [[Hne _] | [_ [(ms0 & H0 & ->) | [Hnot ->]]]]; [congruence | |].
      * apply Hin in H0. destruct H0 as [-> _].
        split; [reflexivity | intros H; apply app_eq_nil in H; destruct H; discriminate].
      * split; [|discriminate].
        destruct (filter (keyIs (normalizeFileName f)) l) as [|x t] eqn:Hf;
          [reflexivity|].
        exfalso. apply Hnot.
        change (normalizeFileName f) with (fst (normalizeFileName f, x :: t)).
        apply in_map. apply Hin. split; [symmetry; exact Hf | discriminate].
    + intros [-> _]. right. split; [reflexivity|].
      destruct (filter (keyIs (normalizeFileName f)) l) as [|x t] eqn:Hf.
      * right. split; [|reflexivity]. intros Hk. apply in_map_iff in Hk.
        destruct Hk as ([k' ms'] & Hfst & Hk). simpl in Hfst. subst k'.
        apply Hin in Hk. destruct Hk as [-> Hne]. congruence.
      * left. exists (x :: t). split; [|reflexivity].
        apply Hin. split; [symmetry; exact Hf | discriminate].
  - apply jsstring_eqb_neq in Hk. rewrite app_nil_r. rewrite <- Hin. split.
    + intros [[_ H] | [-> _]]; [exact H | congruence].
    + intros H. left. split; [congruence | exact H].
Qed.

Lemma grouped_fold (l : list jsstring) :
  forall l0 groups,
    grouped l0 groups ->
    grouped (l0 ++ l)
      (fold_left (fun groups f => addToGroup (normalizeFileName f) f groups) l groups).
Proof.
  induction l as [|f l IH]; intros l0 groups H; simpl.
  - rewrite app_nil_r. exact H.
  - replace (l0 ++ f :: l) with ((l0 ++ [f]) ++ l) by (rewrite <- app_assoc; reflexivity).
    apply IH. apply grouped_step. exact H.
Qed.

Lemma groupFiles_grouped (l : list jsstring) : grouped l (groupFiles l).
Proof.
  apply (grouped_fold l (l0 := []) (groups := [])).
  split; [constructor|]. intros k ms. simpl. split; [intros [] | intros [-> H]; congruence].
Qed.

Lemma addToGroup_members (k f : jsstring) (groups : groupMap) :
  Permutation (flat_map snd (addToGroup k f groups)) (f :: flat_map snd groups).
Proof.
  induction groups as [|[k' ms] groups IH]; simpl; [apply Permutation_refl|].
  destruct (jsstring_eqb k' k); simpl.
  - rewrite <- app_assoc. simpl. apply Permutation_sym, Permutation_middle.
  - eapply Permutation_trans; [apply Permutation_app_head, IH|].
    apply Permutation_sym, Permutation_middle.
Qed.

Lemma groupFiles_members (l : list jsstring) :
  Permutation (flat_map snd (groupFiles l)) l.
Proof.
  unfold groupFiles.
  assert (H : forall groups,
             Permutation
               (flat_map snd (fold_left (fun groups f =>
                                addToGroup (normalizeFileName f) f groups) l groups))
               (flat_map snd groups ++ l)).
  { induction l as [|f l IH]; intros groups; simpl.
    - rewrite app_nil_r. apply Permutation_refl.
    - eapply Permutation_trans; [apply IH|].
      eapply Permutation_trans; [apply Permutation_app_tail, addToGroup_members|].
      simpl. apply Permutation_middle. }
  apply (H []).
Qed.

End Grouping.

Section Running.

Variable d0 : directory.

Lemma without_nil (d : directory) : without [] d = d.
Proof.
  unfold without. induction d as [|e d IH]; simpl; [reflexivity|].
  f_equal. exact IH.
Qed.

Lemma lookupFile_without (deleted : list jsstring) (f : jsstring) (d : directory) :
  ~ In f deleted -> lookupFile (without deleted d) f = lookupFile d f.
Proof.
  intros Hf. unfold lookupFile, without.
  induction d as [|e d IH]; simpl; [reflexivity|].
  destruct (existsb (jsstring_eqb (name e)) deleted) eqn:Hdel; simpl.
  - destruct (jsstring_eqb (name e) f) eqn:He; [|exact IH].
    apply jsstring_eqb_eq in He. exfalso. apply Hf.
    apply existsb_exists in Hdel. destruct Hdel as (x & Hx & Heq).
    apply jsstring_eqb_eq in Heq. congruence.
  - destruct (jsstring_eqb (name e) f); [reflexivity | exact IH].
Qed.

Lemma without_snoc (deleted : list jsstring) (f : jsstring) (d : directory) :
  filter (fun e => negb (jsstring_eqb (name e) f)) (without deleted d)
  = without (deleted ++ [f]) d.
Proof.
  unfold without. induction d as [|e d IH]; simpl; [reflexivity|].
  rewrite existsb_app. simpl. rewrite orb_false_r.
  destruct (existsb (jsstring_eqb (name e)) deleted); simpl.
  - exact IH.
  - destruct (jsstring_eqb (name e) f); simpl; [exact IH | rewrite IH; reflexivity].
Qed.

Lemma lookupFile_name (d : directory) (f : jsstring) :
  In f (map name d) -> exists e, lookupFile d f = Some e.
Proof.
  unfold lookupFile. induction d as [|e d IH]; simpl; [intros []|].
  intros [<- | Hin].
  - rewrite jsstring_eqb_refl. eauto.
  - destruct (jsstring_eqb (name e) f); eauto.
Qed.

Lemma stat_present (deleted : list jsstring) (lg : list (entry FsError)) (f : jsstring) :
  In f (map name d0) -> ~ In f deleted ->
  stat f (after d0 deleted lg) = (after d0 deleted lg, inl (birthtimeIn d0 f)).
Proof.
  intros Hin Hdel. unfold stat, birthtimeIn, after. cbn [dir].
  fold (lookupFile (without deleted d0) f).
  rewrite lookupFile_without by exact Hdel.
  destruct (lookupFile_name _ _ Hin) as [e ->]. reflexivity.
Qed.

Lemma unlink_present (deleted : list jsstring) (lg : list (entry FsError)) (f : jsstring) :
  In f (map name d0) -> ~ In f deleted ->
  unlink f (after d0 deleted lg)
  = if lockedIn d0 f then (after d0 deleted lg, inr (EPERM f))
    else (after d0 (deleted ++ [f]) lg, inl tt).
Proof.
  intros Hin Hdel. unfold unlink, lockedIn, after. cbn [dir log].
  fold (lookupFile (without deleted d0) f).
  rewrite lookupFile_without by exact Hdel.
  destruct (lookupFile_name _ _ Hin) as [e ->].
  destruct (locked e); [reflexivity|]. rewrite without_snoc. reflexivity.
Qed.

(** The inner loop: the names are unlinked in order up to the first
    refusal. *)
Lemma forEach_unlink (plan : list jsstring) :
  forall deleted lg,
    NoDup plan ->
    (forall f, In f plan -> In f (map name d0) /\ ~ In f deleted) ->
    forEach (fun f => _ <- unlink f ;;
                      logger INFO (str "Deleted duplicate file: " ++ f) None)
            plan (after d0 deleted lg)
    = (after d0 (deleted ++ fst (attempt d0 plan))
         (lg ++ map deletedLine (fst (attempt d0 plan))),
       outcomeOf (snd (attempt d0 plan))).
Proof.
  induction plan as [|f plan IH]; intros deleted lg Hnd Hin.
  - simpl. unfold ret. rewrite !app_nil_r. reflexivity.
  - inversion Hnd as [|? ? Hf Hnd']; subst.
    destruct (Hin f (or_introl eq_refl)) as [Hpresent Hfresh].
    cbn [forEach attempt]. unfold bind at 1. unfold bind at 1.
    rewrite unlink_present by assumption.
    destruct (lockedIn d0 f).
    + simpl. rewrite !app_nil_r. reflexivity.
    + unfold logger at 1. cbn [dir log after].
      change {| dir := without (deleted ++ [f]) d0; log := lg ++ [Entry INFO (str "Deleted duplicate file: " ++ f) None] |}
        with (after d0 (deleted ++ [f]) (lg ++ [deletedLine f])).
      rewrite IH.
      * destruct (attempt d0 plan) as [done stop]. cbn [fst snd map].
        rewrite <- !app_assoc. reflexivity.
      * exact Hnd'.
      * intros x Hx. destruct (Hin x (or_intror Hx)) as [Hp Hd]. split; [exact Hp|].
        rewrite in_app_iff. intros [H | [<- | []]]; [contradiction | contradiction].
Qed.

Lemma mapM_stat (files : list jsstring) (deleted : list jsstring)
    (lg : list (entry FsError)) :
  (forall f, In f files -> In f (map name d0) /\ ~ In f deleted) ->
  mapM (fun f => b <- stat f ;; ret (f, b)) files (after d0 deleted lg)
  = (after d0 deleted lg, inl (map (fun f => (f, birthtimeIn d0 f)) files)).
Proof.
  induction files as [|f files IH]; intros Hin; [reflexivity|].
  destruct (Hin f (or_introl eq_refl)) as [Hp Hd].
  cbn [mapM]. unfold bind at 1. unfold bind at 1.
  rewrite stat_present by assumption. unfold ret at 1.
  unfold bind at 1. rewrite IH by (intros x Hx; apply Hin; right; exact Hx).
  reflexivity.
Qed.

Lemma victims_small (members : list jsstring) :
  (1 <? length members) = false -> victims d0 members = [].
Proof.
  intros H. apply Nat.ltb_ge in H.
  destruct members as [|a [|b t]]; [reflexivity | reflexivity | simpl in H; lia].
Qed.

Lemma victims_perm (members : list jsstring) :
  members <> [] ->
  exists h, Permutation (h :: victims d0 members) members.
Proof.
  intros Hne. unfold victims.
  pose proof (sortByAge_perm (map (fun f => (f, birthtimeIn d0 f)) members)) as Hp.
  apply (Permutation_map fst) in Hp. rewrite map_map in Hp. simpl in Hp.
  rewrite map_id in Hp.
  destruct (map fst (sortByAge _)) as [|h t] eqn:Hs.
  - apply Permutation_nil in Hp. congruence.
  - exists h. exact Hp.
Qed.

Lemma victims_in (members : list jsstring) (f : jsstring) :
  In f (victims d0 members) -> In f members.
Proof.
  destruct members as [|a t]; [intros []|].
  destruct (@victims_perm (a :: t)) as [h Hp]; [discriminate|].
  intros Hin. eapply Permutation_in; [exact Hp | right; exact Hin].
Qed.

Lemma victims_nodup (members : list jsstring) :
  NoDup members -> NoDup (victims d0 members).
Proof.
  destruct members as [|a t]; [intros _; constructor|].
  destruct (@victims_perm (a :: t)) as [h Hp]; [discriminate|].
  intros Hnd. apply Permutation_sym in Hp.
  pose proof (Permutation_NoDup Hp Hnd) as H. inversion H; assumption.
Qed.

(** One group: its victims are unlinked in order up to the first
    refusal. *)
Lemma processGroup_run (g : jsstring * list jsstring) (deleted : list jsstring)
    (lg : list (entry FsError)) :
  NoDup (snd g) ->
  (forall f, In f (snd g) -> In f (map name d0) /\ ~ In f deleted) ->
  processGroup g (after d0 deleted lg)
  = (after d0 (deleted ++ fst (attempt d0 (victims d0 (snd g))))
       (lg ++ map deletedLine (fst (attempt d0 (victims d0 (snd g))))),
     outcomeOf (snd (attempt d0 (victims d0 (snd g))))).
Proof.
  intros Hnd Hin. unfold processGroup.
  destruct (1 <? length (snd g)) eqn:Hlen.
  - unfold sortFilesByAge. unfold bind at 1. unfold bind at 1.
    rewrite mapM_stat by exact Hin. unfold ret at 1.
    apply forEach_unlink.
    + apply victims_nodup. exact Hnd.
    + intros f Hf. apply Hin. apply victims_in. exact Hf.
  - rewrite (victims_small _ Hlen). simpl. unfold ret. rewrite !app_nil_r. reflexivity.
Qed.

Lemma attempt_app (a b : list jsstring) :
  attempt d0 (a ++ b)
  = match snd (attempt d0 a) with
    | Some f => attempt d0 a
    | None => (fst (attempt d0 a) ++ fst (attempt d0 b), snd (attempt d0 b))
    end.
Proof.
  induction a as [|x a IH]; simpl.
  - destruct (attempt d0 b); reflexivity.
  - destruct (lockedIn d0 x); [reflexivity|].
    rewrite IH. destruct (attempt d0 a) as [done [f|]]; simpl; [reflexivity|].
    destruct (attempt d0 b); reflexivity.
Qed.

Lemma attempt_done_in (plan : list jsstring) (f : jsstring) :
  In f (fst (attempt d0 plan)) -> In f plan.
Proof.
  induction plan as [|x plan IH]; simpl; [auto|].
  destruct (lockedIn d0 x); [intros []|].
  destruct (attempt d0 plan) as [done stop]. simpl in *. intros [<- | H]; auto.
Qed.

(** The loop over the groups. *)
Lemma forEach_processGroup (groups : groupMap) :
  forall deleted lg,
    NoDup (flat_map snd groups) ->
    (forall f, In f (flat_map snd groups) -> In f (map name d0) /\ ~ In f deleted) ->
    forEach processGroup groups (after d0 deleted lg)
    = (after d0 (deleted ++ fst (attempt d0 (flat_map (fun g => victims d0 (snd g)) groups)))
         (lg ++ map deletedLine
                    (fst (attempt d0 (flat_map (fun g => victims d0 (snd g)) groups)))),
       outcomeOf (snd (attempt d0 (flat_map (fun g => victims d0 (snd g)) groups)))).
Proof.
  induction groups as [|g groups IH]; intros deleted lg Hnd Hin.
  - simpl. unfold ret. rewrite !app_nil_r. reflexivity.
  - cbn [flat_map] in Hnd, Hin |- *.
    apply NoDup_app_remove_l in Hnd as Hnd2.
    pose proof (NoDup_app_remove_r _ _ Hnd) as Hnd1.
    cbn [forEach]. unfold bind at 1.
    rewrite processGroup_run;
      [| exact Hnd1 | intros f Hf; apply Hin, in_app_iff; left; exact Hf].
    rewrite attempt_app.
    destruct (attempt d0 (victims d0 (snd g))) as [done [f|]] eqn:Hatt; cbn [fst snd outcomeOf].
    + reflexivity.
    + rewrite IH.
      * rewrite <- !app_assoc, map_app. reflexivity.
      * exact Hnd2.
      * intros x Hx. destruct (Hin x) as [Hp Hd]; [apply in_app_iff; right; exact Hx|].
        split; [exact Hp|]. rewrite in_app_iff. intros [H | H]; [contradiction|].
        assert (Hxg : In x (snd g)).
        { apply victims_in. apply attempt_done_in. rewrite Hatt. exact H. }
        clear - Hnd Hxg Hx.
        induction (snd g) as [|y l IHl]; [destruct Hxg|].
        simpl in Hnd. inversion Hnd as [|? ? Hy Hnd']; subst.
        destruct Hxg as [<- | Hxg]; [apply Hy, in_app_iff; right; exact Hx | auto].
Qed.

End Running.

Lemma filter_map_name (p : jsstring -> bool) (d : directory) :
  filter p (map name d) = map name (filter (fun e => p (name e)) d).
Proof.
  induction d as [|e d IH]; simpl; [reflexivity|].
  destruct (p (name e)); simpl; rewrite IH; reflexivity.
Qed.

Lemma deletionPlan_members (d : directory) :
  NoDup (map name d) ->
  NoDup (flat_map snd (groupFiles (filter isMd (map name d))))
  /\ forall f, In f (flat_map snd (groupFiles (filter isMd (map name d)))) ->
               In f (map name d) /\ isMd f = true.
Proof.
  intros Hnd.
  pose proof (groupFiles_members (filter isMd (map name d))) as Hp.
  split.
  - apply (Permutation_NoDup (Permutation_sym Hp)). apply NoDup_filter. exact Hnd.
  - intros f Hf. apply (Permutation_in _ Hp) in Hf. apply filter_In in Hf. exact Hf.
Qed.

(** The whole run: the deletion plan is followed up to the first refusal;
    what was deleted before stays deleted, the refusal is logged, and
    nothing is raised. *)
Lemma cleanDuplicateFiles_attempt (d : directory) (lg : list (entry FsError)) :
  NoDup (map name d) ->
  cleanDuplicateFiles {| dir := d; log := lg |}
  = {| dir := without (fst (attempt d (deletionPlan d))) d;
       log := lg ++ map deletedLine (fst (attempt d (deletionPlan d)))
                 ++ match snd (attempt d (deletionPlan d)) with
                    | Some f => [failedLine f]
                    | None => []
                    end |}.
Proof.
  intros Hnd. destruct (@deletionPlan_members d Hnd) as [Hnd' Hin].
  unfold cleanDuplicateFiles, cleanBody. unfold bind at 1. unfold readdir at 1.
  cbn [dir].
  replace {| dir := d; log := lg |} with (after d [] lg)
    by (unfold after; rewrite without_nil; reflexivity).
  change (filter (fun f => endsWith f (str ".md")) (map name d))
    with (filter isMd (map name d)).
  rewrite (@forEach_processGroup d _ [] lg Hnd')
    by (intros f Hf; split; [apply Hin; exact Hf | intros []]).
  fold (deletionPlan d). unfold after. cbn [app].
  destruct (attempt d (deletionPlan d)) as [done [f|]]; cbn [fst snd outcomeOf dir log].
  - rewrite <- app_assoc. reflexivity.
  - rewrite app_nil_r. reflexivity.
Qed.

Section Failure.

Lemma nodup_app_disjoint {A : Type} (l1 l2 : list A) (x : A) :
  NoDup (l1 ++ l2) -> In x l1 -> In x l2 -> False.
Proof.
  induction l1 as [|y l1 IH]; simpl; [intros _ []|].
  intros Hnd [<- | H1] H2.
  - inversion Hnd as [|? ? Hy _]; subst. apply Hy, in_app_iff. right. exact H2.
  - inversion Hnd; subst. auto.
Qed.

Lemma attempt_stop (d : directory) (done todo : list jsstring) (f : jsstring) :
  (forall x, In x done -> lockedIn d x = false) ->
  lockedIn d f = true ->
  attempt d (done ++ f :: todo) = (done, Some f).
Proof.
  intros Hdone Hf. induction done as [|x done IH]; simpl.
  - rewrite Hf. reflexivity.
  - rewrite (Hdone x (or_introl eq_refl)), IH; [reflexivity|].
    intros y Hy. apply Hdone. right. exact Hy.
Qed.

Lemma victims_flat_nodup (d : directory) (groups : groupMap) :
  NoDup (flat_map snd groups) ->
  NoDup (flat_map (fun g => victims d (snd g)) groups).
Proof.
  induction groups as [|g groups IH]; simpl; [constructor|].
  intros Hnd. apply NoDup_app.
  - apply victims_nodup. eapply NoDup_app_remove_r. exact Hnd.
  - apply IH. eapply NoDup_app_remove_l. exact Hnd.
  - intros x Hx Hx'. apply victims_in in Hx.
    apply in_flat_map in Hx'. destruct Hx' as (g' & Hg' & Hx').
    apply victims_in in Hx'.
    assert (Hx2 : In x (flat_map snd groups)) by (apply in_flat_map; eauto).
    clear - Hnd Hx Hx2.
    induction (snd g) as [|y l IHl]; [destruct Hx|].
    simpl in Hnd. inversion Hnd as [|? ? Hy Hnd']; subst.
    destruct Hx as [<- | Hx]; [apply Hy, in_app_iff; right; exact Hx2 | auto].
Qed.

Lemma deletionPlan_nodup (d : directory) :
  NoDup (map name d) -> NoDup (deletionPlan d).
Proof.
  intros Hnd. apply victims_flat_nodup. apply (@deletionPlan_members d Hnd).
Qed.

Lemma deletionPlan_in (d : directory) (f : jsstring) :
  NoDup (map name d) -> In f (deletionPlan d) -> In f (map name d) /\ isMd f = true.
Proof.
  intros Hnd Hf. apply in_flat_map in Hf. destruct Hf as (g & Hg & Hf).
  apply victims_in in Hf.
  apply (proj2 (@deletionPlan_members d Hnd)). apply in_flat_map. eauto.
Qed.

Lemma without_keeps (d : directory) (deleted : list jsstring) (f : jsstring) :
  In f (map name d) -> ~ In f deleted -> In f (map name (without deleted d)).
Proof.
  intros Hin Hdel. apply in_map_iff in Hin. destruct Hin as (e & <- & He).
  apply in_map. apply filter_In. split; [exact He|].
  apply negb_true_iff. destruct (existsb _ deleted) eqn:Hex; [|reflexivity].
  apply existsb_exists in Hex. destruct Hex as (x & Hx & Heq).
  apply jsstring_eqb_eq in Heq. subst x. contradiction.
Qed.

(** C9 (as amended): a refused [unlink] is logged and never raised to the
    caller, but it ends the run: the duplicates unlinked before it stay
    deleted, and the refused file and every duplicate that was still to
    come, in its group and in the later groups, are left in place. *)
Theorem cleanDuplicateFiles_stops_at_failure
    (d : directory) (lg : list (entry FsError))
    (done todo : list jsstring) (f : jsstring) :
  NoDup (map name d) ->
  deletionPlan d = done ++ f :: todo ->
  (forall x, In x done -> lockedIn d x = false) ->
  lockedIn d f = true ->
  cleanDuplicateFiles {| dir := d; log := lg |}
  = {| dir := without done d;
       log := lg ++ map deletedLine done ++ [failedLine f] |}
  /\ forall x, In x (f :: todo) ->
               In x (map name (dir (cleanDuplicateFiles {| dir := d; log := lg |}))).
Proof.
  intros Hnd Hplan Hdone Hf.
  assert (Hrun : cleanDuplicateFiles {| dir := d; log := lg |}
                 = {| dir := without done d;
                      log := lg ++ map deletedLine done ++ [failedLine f] |}).
  { rewrite (@cleanDuplicateFiles_attempt d lg Hnd), Hplan.
    rewrite (@attempt_stop d done todo f Hdone Hf). reflexivity. }
  split; [exact Hrun|].
  intros x Hx. rewrite Hrun. cbn [dir].
  pose proof (@deletionPlan_nodup d Hnd) as Hnp. rewrite Hplan in Hnp.
  apply without_keeps.
  - apply (@deletionPlan_in d x Hnd). rewrite Hplan. apply in_app_iff. right. exact Hx.
  - intros Hd. exact (@nodup_app_disjoint _ done (f :: todo) x Hnp Hd Hx).
Qed.

Lemma cleanDuplicateFiles_stops_at_failure_witness :
  cleanDuplicateFiles {| dir := lockedThird; log := [] |}
  = {| dir := without [str "A.md"] lockedThird;
       log := [deletedLine (str "A.md"); failedLine (str "a-.md")] |}
  /\ forall x, In x [str "a-.md"; str "B.md"] ->
               In x (map name (dir (cleanDuplicateFiles
                                      {| dir := lockedThird; log := [] |}))).
Proof.
  apply (@cleanDuplicateFiles_stops_at_failure lockedThird []
           [str "A.md"] [str "B.md"] (str "a-.md")).
  - vm_compute. repeat constructor; simpl; intuition discriminate.
  - vm_compute. reflexivity.
  - intros x [<- | []]. reflexivity.
  - reflexivity.
Defined.

(** C9 as stated fails: when the second file of a group cannot be
    unlinked, the third file of that group and the duplicate of the next
    group, both free to be deleted, are still there at the end. *)
Lemma cleanDuplicateFiles_failure_counterexample :
  deletionPlan lockedSecond = [str "A.md"; str "a-.md"; str "B.md"]
  /\ lockedIn lockedSecond (str "a-.md") = false
  /\ lockedIn lockedSecond (str "B.md") = false
  /\ map name (dir (cleanDuplicateFiles {| dir := lockedSecond; log := [] |}))
     = [str "a.md"; str "A.md"; str "a-.md"; str "b.md"; str "B.md"]
  /\ log (cleanDuplicateFiles {| dir := lockedSecond; log := [] |})
     = [failedLine (str "A.md")].
Proof. repeat split; vm_compute; reflexivity. Qed.

End Failure.

Section Survivors.

Variable d : directory.
Hypothesis names_distinct : NoDup (map name d).

Lemma lookupFile_self (e : file) : In e d -> lookupFile d (name e) = Some e.
Proof.
  unfold lookupFile. revert names_distinct.
  induction d as [|e0 d' IH]; simpl; [intros _ []|].
  intros Hnd [<- | Hin].
  - rewrite jsstring_eqb_refl. reflexivity.
  - inversion Hnd as [|? ? Hnot Hnd']; subst.
    destruct (jsstring_eqb (name e0) (name e)) eqn:Heq; [|auto].
    apply jsstring_eqb_eq in Heq. exfalso. apply Hnot. rewrite Heq.
    apply in_map. exact Hin.
Qed.

Lemma birthtimeIn_self (e : file) : In e d -> birthtimeIn d (name e) = birthtime e.
Proof. intros H. unfold birthtimeIn. rewrite lookupFile_self; auto. Qed.

Lemma groupOf_members (key : jsstring) :
  filter (keyIs key) (filter isMd (map name d)) = map name (groupOf key d).
Proof.
  rewrite !filter_map_name. f_equal. unfold groupOf.
  clear. unfold keyIs. induction d as [|e d' IH]; cbn [filter]; [reflexivity|].
  destruct (isMd (name e)); cbn [filter andb]; [|exact IH].
  destruct (jsstring_eqb (normalizeFileName (name e)) key); rewrite IH; reflexivity.
Qed.

Lemma groupOf_pairs (key : jsstring) :
  map (fun f => (f, birthtimeIn d f)) (map name (groupOf key d))
  = map (fun e => (name e, birthtime e)) (groupOf key d).
Proof.
  rewrite map_map. apply map_ext_in. intros e He.
  apply filter_In in He. rewrite birthtimeIn_self; tauto.
Qed.

Lemma groupOf_in_groups (key : jsstring) :
  groupOf key d <> [] ->
  In (key, map name (groupOf key d)) (groupFiles (filter isMd (map name d))).
Proof.
  intros Hne. apply (groupFiles_grouped (filter isMd (map name d))).
  split; [symmetry; apply groupOf_members|].
  destruct (groupOf key d); [congruence | discriminate].
Qed.

(** The names in the plan that belong to the group of [key] are the
    victims of that group. *)
Lemma deletionPlan_group (key : jsstring) (e : file) :
  In e (groupOf key d) ->
  In (name e) (deletionPlan d) <->
  In (name e) (victims d (map name (groupOf key d))).
Proof.
  intros He. split.
  - intros Hin. apply in_flat_map in Hin. destruct Hin as ([k ms] & Hg & Hv).
    simpl in Hv.
    apply (groupFiles_grouped (filter isMd (map name d))) in Hg.
    destruct Hg as [-> _].
    pose proof (victims_in _ _ _ Hv) as Hm.
    apply filter_In in Hm. destruct Hm as [_ Hk]. unfold keyIs in Hk.
    apply jsstring_eqb_eq in Hk.
    apply filter_In in He. destruct He as [_ He].
    apply andb_true_iff in He. destruct He as [_ He]. apply jsstring_eqb_eq in He.
    assert (Hkk : k = key) by congruence.
    rewrite Hkk, groupOf_members in Hv. exact Hv.
  - intros Hv. apply in_flat_map. exists (key, map name (groupOf key d)). split.
    + apply groupOf_in_groups. intros Hnil. rewrite Hnil in He. destruct He.
    + exact Hv.
Qed.

Lemma filter_comm {A : Type} (p q : A -> bool) (l : list A) :
  filter p (filter q l) = filter q (filter p l).
Proof.
  induction l as [|x l IH]; simpl; [reflexivity|].
  destruct (p x) eqn:Hp, (q x) eqn:Hq; simpl; rewrite ?Hp, ?Hq, IH; reflexivity.
Qed.

Lemma filter_only (q : file -> bool) (l1 l2 : list file) (e : file) :
  q e = true ->
  (forall y, In y (l1 ++ l2) -> q y = false) ->
  filter q (l1 ++ e :: l2) = [e].
Proof.
  intros He Hrest. rewrite filter_app. simpl. rewrite He.
  assert (H1 : filter q l1 = []).
  { clear - Hrest. induction l1 as [|y l1 IH]; simpl; [reflexivity|].
    rewrite (Hrest y (or_introl eq_refl)). apply IH.
    intros z Hz. apply Hrest. right. exact Hz. }
  assert (H2 : filter q l2 = []).
  { clear - Hrest. induction l2 as [|y l2 IH]; simpl; [reflexivity|].
    rewrite (Hrest y) by (apply in_app_iff; right; left; reflexivity). apply IH.
    intros z Hz. apply Hrest. apply in_app_iff in Hz. apply in_app_iff.
    destruct Hz; [left | right; right]; assumption. }
  rewrite H1, H2. reflexivity.
Qed.

(** The oldest member of a group, first among ties, and the fact that
    the victims of the group are all the others. *)
Lemma group_keeper (key : jsstring) :
  groupOf key d <> [] ->
  exists l1 e l2,
    groupOf key d = l1 ++ e :: l2
    /\ firstOldest birthtime l1 e l2
    /\ ~ In (name e) (victims d (map name (groupOf key d)))
    /\ forall y, In y (l1 ++ l2) ->
                 In (name y) (victims d (map name (groupOf key d))).
Proof.
  intros Hne.
  assert (Hnd : NoDup (map name (groupOf key d))).
  { unfold groupOf. rewrite <- filter_map_name with (p := fun f => isMd f && jsstring_eqb (normalizeFileName f) key).
    apply NoDup_filter. exact names_distinct. }
  unfold victims. rewrite groupOf_pairs.
  destruct (@sortByAge_head (map (fun e => (name e, birthtime e)) (groupOf key d)))
    as (p1 & x & p2 & rest & Hsplit & Hsort & Hlt & Hle).
  { destruct (groupOf key d); [congruence | discriminate]. }
  apply map_eq_app in Hsplit. destruct Hsplit as (l1 & l' & HG & Hp1 & Hl').
  apply map_eq_cons in Hl'. destruct Hl' as (e & l2 & -> & Hx & Hp2).
  exists l1, e, l2. split; [exact HG|]. split.
  { split.
    - intros y Hy. specialize (Hlt (name y, birthtime y)). rewrite <- Hx in Hlt.
      apply Hlt. rewrite <- Hp1. apply (in_map (fun e => (name e, birthtime e))). exact Hy.
    - intros y Hy. specialize (Hle (name y, birthtime y)). rewrite <- Hx in Hle.
      apply Hle. rewrite <- Hp2. apply (in_map (fun e => (name e, birthtime e))). exact Hy. }
  rewrite Hsort. cbn [map tl].
  pose proof (sortByAge_perm (map (fun e => (name e, birthtime e)) (groupOf key d))) as Hperm.
  rewrite Hsort in Hperm.
  apply (Permutation_map fst) in Hperm. rewrite map_map in Hperm.
  cbn [map fst] in Hperm. rewrite <- Hx in Hperm. cbn [fst] in Hperm.
  change (map (fun x0 : file => fst (name x0, birthtime x0)) (groupOf key d))
    with (map name (groupOf key d)) in Hperm.
  pose proof (Permutation_NoDup (Permutation_sym Hperm) Hnd) as Hnd'.
  inversion Hnd' as [|? ? Hnot _]; subst.
  split; [exact Hnot|].
  intros y Hy.
  assert (HyG : In (name y) (map name (groupOf key d))).
  { apply in_map. rewrite HG. apply in_app_iff. apply in_app_iff in Hy.
    destruct Hy; [left | right; right]; assumption. }
  apply (Permutation_in _ (Permutation_sym Hperm)) in HyG.
  destruct HyG as [Heq | Hin]; [|exact Hin].
  exfalso. rewrite HG in Hnd. rewrite map_app in Hnd. cbn [map] in Hnd.
  apply NoDup_remove_2 in Hnd. apply Hnd. rewrite Heq, <- map_app.
  apply in_map. exact Hy.
Qed.

End Survivors.

Lemma filter_all {A : Type} (q : A -> bool) (l : list A) :
  (forall x, In x l -> q x = true) -> filter q l = l.
Proof.
  induction l as [|x l IH]; simpl; [reflexivity|]. intros H.
  rewrite (H x (or_introl eq_refl)), IH; [reflexivity|].
  intros y Hy. apply H. right. exact Hy.
Qed.

Lemma attempt_unlocked (d : directory) (plan : list jsstring) :
  (forall e, In e d -> locked e = false) -> attempt d plan = (plan, None).
Proof.
  intros Hfree. induction plan as [|f plan IH]; simpl; [reflexivity|].
  assert (Hf : lockedIn d f = false).
  { unfold lockedIn, lookupFile. destruct (find _ d) as [e|] eqn:Hfind; [|reflexivity].
    apply find_some in Hfind. apply Hfree. tauto. }
  rewrite Hf, IH. reflexivity.
Qed.

(** C8 (as amended): when every [unlink] succeeds, the files that are not
    markdown are untouched, and of each group of markdown files whose
    names normalise to the same key exactly one member is left: the one
    created earliest, the first in the order of enumeration among equals;
    every other member is deleted.  Digits are kept by the
    normalisation, so of note.md, Note.md and NOTE (1).md the first two
    form one group, of which the older survives, and NOTE (1).md, of key
    "note1", survives as well: two files remain. *)
Theorem cleanDuplicateFiles_keeps_oldest :
  (forall (d : directory) (lg : list (entry FsError)) (key : jsstring),
      NoDup (map name d) ->
      (forall e, In e d -> locked e = false) ->
      let d' := dir (cleanDuplicateFiles {| dir := d; log := lg |}) in
      filter (fun e => negb (isMd (name e))) d'
      = filter (fun e => negb (isMd (name e))) d
      /\ (groupOf key d <> [] ->
          exists l1 e l2,
            groupOf key d = l1 ++ e :: l2
            /\ firstOldest birthtime l1 e l2
            /\ groupOf key d' = [e]))
  /\ (forall t1 t2 t3 : Z,
        map name (dir (cleanDuplicateFiles {| dir := notes t1 t2 t3; log := [] |}))
        = [if (t1 <=? t2)%Z then str "note.md" else str "Note.md";
           str "NOTE (1).md"]).
Proof.
  split.
  - intros d lg key Hnd Hfree d'. subst d'.
    rewrite (@cleanDuplicateFiles_attempt d lg Hnd).
    rewrite (@attempt_unlocked d (deletionPlan d) Hfree). cbn [dir fst]. split.
    + unfold without. rewrite filter_comm.
      apply filter_all. intros e He. apply filter_In in He. destruct He as [He Hmd].
      apply negb_true_iff in Hmd. apply negb_true_iff.
      destruct (existsb _ (deletionPlan d)) eqn:Hex; [|reflexivity].
      apply existsb_exists in Hex. destruct Hex as (x & Hx & Heq).
      apply jsstring_eqb_eq in Heq. subst x.
      apply (@deletionPlan_in d (name e) Hnd) in Hx. destruct Hx as [_ Hx]. congruence.
    + intros Hne.
      destruct (@group_keeper d Hnd key Hne) as (l1 & e & l2 & HG & Hold & Hkeep & Hgone).
      exists l1, e, l2. split; [exact HG|]. split; [exact Hold|].
      unfold groupOf at 1. unfold without. rewrite filter_comm.
      fold (groupOf key d). rewrite HG.
      assert (HeG : In e (groupOf key d)) by (rewrite HG; apply in_app_iff; right; left; reflexivity).
      apply filter_only.
      * apply negb_true_iff. destruct (existsb _ (deletionPlan d)) eqn:Hex; [|reflexivity].
        apply existsb_exists in Hex. destruct Hex as (x & Hx & Heq).
        apply jsstring_eqb_eq in Heq. subst x.
        apply (@deletionPlan_group d key e HeG) in Hx. contradiction.
      * intros y Hy. apply negb_false_iff. apply existsb_exists.
        exists (name y). split; [|apply jsstring_eqb_refl].
        apply (@deletionPlan_group d key y).
        -- rewrite HG. apply in_app_iff. apply in_app_iff in Hy.
           destruct Hy; [left | right; right]; assumption.
        -- apply Hgone. exact Hy.
  - intros t1 t2 t3.
    rewrite cleanDuplicateFiles_attempt
      by (vm_compute; repeat constructor; simpl; intuition discriminate).
    rewrite attempt_unlocked
      by (intros e [<- | [<- | [<- | []]]]; reflexivity).
    cbn [dir fst].
    assert (Hplan : deletionPlan (notes t1 t2 t3)
                    = [if (t1 <=? t2)%Z then str "Note.md" else str "note.md"]).
    { unfold deletionPlan.
      replace (groupFiles (filter isMd (map name (notes t1 t2 t3))))
        with [(str "note", [str "note.md"; str "Note.md"]);
              (str "note1", [str "NOTE (1).md"])]
        by (vm_compute; reflexivity).
      cbn [flat_map snd]. unfold victims. cbn [map].
      replace (birthtimeIn (notes t1 t2 t3) (str "note.md")) with t1 by reflexivity.
      replace (birthtimeIn (notes t1 t2 t3) (str "Note.md")) with t2 by reflexivity.
      unfold sortByAge. cbn [fold_right insertByAge snd].
      destruct (t1 <=? t2)%Z; reflexivity. }
    rewrite Hplan. destruct (t1 <=? t2)%Z; reflexivity.
Qed.

Lemma cleanDuplicateFiles_keeps_oldest_witness :
  exists l1 e l2,
    groupOf (str "note") (notes 30 10 20) = l1 ++ e :: l2
    /\ firstOldest birthtime l1 e l2
    /\ groupOf (str "note")
         (dir (cleanDuplicateFiles {| dir := notes 30 10 20; log := [] |}))
       = [e].
Proof.
  apply (proj1 cleanDuplicateFiles_keeps_oldest (notes 30 10 20) [] (str "note")).
  - vm_compute. repeat constructor; simpl; intuition discriminate.
  - intros e [<- | [<- | [<- | []]]]; reflexivity.
  - vm_compute. discriminate.
Defined.

(** C8 as stated fails on its own example: with the three files created
    at distinct times, NOTE (1).md being the earliest, two files are
    left, not one. *)
Lemma cleanDuplicateFiles_notes_counterexample :
  map name (dir (cleanDuplicateFiles {| dir := notes 20 30 10; log := [] |}))
  = [str "note.md"; str "NOTE (1).md"]
  /\ normalizeFileName (str "NOTE (1).md") = str "note1"
  /\ normalizeFileName (str "note.md") = str "note"
  /\ normalizeFileName (str "Note.md") = str "note".
Proof. repeat split; vm_compute; reflexivity. Qed.

End CleanerFacts.

(* ================================================================== *)
(** * Worked examples *)
(* ================================================================== *)

Section Examples.

(** [" a  b ".split(/\s+/)] is ["", "a", "b", ""]. *)
Example split_whitespace_example :
  split re_whitespace (str " a  b ") = [[]; str "a"; str "b"; []].
Proof. reflexivity. Qed.

(** The separator is kept, and runs from the first to the last newline
    of a whitespace run. *)
Example split_paragraph_example :
  split re_paragraph_break (str ("a " ++ NL ++ " " ++ NL ++ NL ++ " b" ++ NL ++ "c"))
  = [str "a "; str (NL ++ " " ++ NL ++ NL); str (" b" ++ NL ++ "c")].
Proof. reflexivity. Qed.

Example splitMarkdown_example :
  fst (@splitMarkdown unit
         (str ("a b" ++ NL ++ NL ++ "c d e" ++ NL ++ NL ++ "f" ++ NL ++ NL ++ "g h")) 3)
  = [str ("a b" ++ NL ++ NL); str ("c d e" ++ NL ++ NL);
     str ("f" ++ NL ++ NL ++ "g h")].
Proof. vm_compute. reflexivity. Qed.

(** In the whole of [applyRules] the name/number filter comes first and
    deletes capitalised spans, content included. *)
Example applyRules_example :
  applyRules (str "[[New York]] in [[1990s]]: [[cats]], [[cat]], [[https://x.y]]")
  = str " in : [[cats]], cat, ".
Proof. vm_compute. reflexivity. Qed.

Example applyRules_capitalised_example :
  applyRules (str "[[Cat]] and [[Cats]] and [[Cat]]") = str " and  and ".
Proof. vm_compute. reflexivity. Qed.

Example normalizeKeyword_examples :
  map normalizeKeyword (map str ["cats"; "boxes"; "s"; "es"; "cat"; "glass"]%string)
  = map str ["cat"; "box"; "s"; ""; "cat"; "glas"]%string.
Proof. vm_compute. reflexivity. Qed.

Example normalizeFileName_examples :
  map Cleaner.normalizeFileName
      (map str ["note.md"; "Note.md"; "NOTE (1).md"; "my-note_2.md.md"]%string)
  = map str ["note"; "note"; "note1"; "mynote2md"]%string.
Proof. vm_compute. reflexivity. Qed.

Example createBacklinks_example :
  Backlinks.createBacklinks (str "A") (str "Hello there, hello world 2024") []
  = Some
    ([(str "hello.md",
       str ("# hello" ++ NL ++ NL ++ "[[A]]" ++ NL ++ "[[A]]" ++ NL ++ "[[A]]" ++ NL));
      (str "world.md",
       str ("# world" ++ NL ++ NL ++ "[[A]]" ++ NL ++ "[[A]]" ++ NL))],
     str "[[hello]] there, [[hello]] [[world]] 2024").
Proof. vm_compute. reflexivity. Qed.

End Examples.

(* ================================================================== *)
(** * Further properties: file names and the reconciler *)
(* ================================================================== *)

Module CleanerMore.
Import Cleaner CleanerFacts.

Section ClassPattern.

Variable p : jschar -> bool.

Lemma exec_class (prev : option jschar) (s : jsstring) :
  exec (Chr p) prev s
  = match s with
    | c :: s' => if p c then Some ([c], None, s') else None
    | [] => None
    end.
Proof.
  unfold exec. destruct s as [|c s']; cbn [rmatch]; [reflexivity|].
  destruct (p c); [|reflexivity].
  replace (firstn (length (c :: s') - length s') (c :: s')) with [c]
    by (symmetry; exact (firstn_length_app [c] s')).
  reflexivity.
Qed.

Lemma scan_class_delete (fuel : nat) :
  forall prev s,
    length s < fuel ->
    concat (map (fun g => match g with
                          | Plain c => [c]
                          | Span _ _ => []
                          end) (scan fuel (Chr p) prev s))
    = filter (fun c => negb (p c)) s.
Proof.
  induction fuel as [|fuel IH]; intros prev s Hfuel; [lia|].
  cbn [scan]. rewrite exec_class.
  destruct s as [|c s]; [reflexivity|].
  simpl in Hfuel. cbn [filter].
  destruct (p c); cbn [negb map concat app].
  - apply IH. lia.
  - f_equal. apply IH. lia.
Qed.

(** Deleting the matches of a class leaves the characters outside it. *)
Lemma replaceAll_class_delete (s : jsstring) :
  replaceAll (Chr p) (fun _ _ => []) s = filter (fun c => negb (p c)) s.
Proof. unfold replaceAll, matchAll. apply scan_class_delete. lia. Qed.

End ClassPattern.

Section FileNames.

Lemma exec_md_extension (prev : option jschar) (s m rest : jsstring)
    (cap : option jsstring) :
  exec re_md_extension prev s = Some (m, cap, rest) -> s = str ".md".
Proof.
  unfold exec, re_md_extension, lit. cbn [rmatch].
  destruct s as [|a [|b [|c [|x s]]]]; try discriminate;
    try (destruct (N.eqb (chr ".") a); discriminate);
    try (destruct (N.eqb (chr ".") a); [|discriminate];
         destruct (N.eqb (chr "m") b); discriminate).
  - destruct (N.eqb (chr ".") a) eqn:Ha; [|discriminate].
    destruct (N.eqb (chr "m") b) eqn:Hb; [|discriminate].
    destruct (N.eqb (chr "d") c) eqn:Hc; [|discriminate].
    apply N.eqb_eq in Ha, Hb, Hc. subst. reflexivity.
  - destruct (N.eqb (chr ".") a); [|discriminate].
    destruct (N.eqb (chr "m") b); [|discriminate].
    destruct (N.eqb (chr "d") c); discriminate.
Qed.

Lemma exec_md_extension_at (prev : option jschar) :
  exec re_md_extension prev (str ".md") = Some (str ".md", None, []).
Proof. reflexivity. Qed.

Lemma scan_md_extension (stem : jsstring) :
  forall fuel prev,
    length (stem ++ str ".md") < fuel ->
    replaceFirst_segs [] (scan fuel re_md_extension prev (stem ++ str ".md")) = stem.
Proof.
  induction stem as [|c stem IH]; intros fuel prev Hfuel.
  - destruct fuel as [|fuel]; [simpl in Hfuel; lia|].
    cbn [scan app]. rewrite exec_md_extension_at.
    cbn [str map list_ascii_of_string replaceFirst_segs app].
    apply scan_source.
  - destruct fuel as [|fuel]; [simpl in Hfuel; lia|].
    cbn [scan app].
    destruct (exec re_md_extension prev (c :: stem ++ str ".md"))
      as [[[m cap] rest]|] eqn:He.
    + apply exec_md_extension in He. apply (f_equal (@length _)) in He.
      simpl in He. rewrite length_app in He. simpl in He. lia.
    + cbn [replaceFirst_segs]. f_equal. apply IH. simpl in Hfuel. lia.
Qed.

(** X1: for a name that ends in ".md", the key is what is left of the
    rest of the name when everything but ASCII letters and digits is
    dropped, in lower case. *)
Theorem normalizeFileName_md (stem : jsstring) :
  normalizeFileName (stem ++ str ".md")
  = toLowerCase_ascii (filter isAlnum stem).
Proof.
  unfold normalizeFileName, replaceFirst, matchAll, re_non_alphanumeric.
  rewrite scan_md_extension by lia.
  rewrite replaceAll_class_delete. f_equal.
  apply filter_ext. intros c. apply negb_involutive.
Qed.

Lemma lower_ascii_alnum (c : jschar) :
  isAlnum c = true -> is_lower (lower_ascii c) || is_digit (lower_ascii c) = true.
Proof.
  unfold isAlnum, lower_ascii, is_lower, is_upper, is_digit.
  destruct ((65 <=? c) && (c <=? 90))%N eqn:Hup.
  - intros _. apply andb_true_iff in Hup. destruct Hup as [H1 H2].
    apply N.leb_le in H1, H2.
    apply orb_true_iff. left. apply andb_true_iff. split; apply N.leb_le; lia.
  - rewrite orb_false_r. auto.
Qed.

(** X2: whatever the name, its key holds nothing but lower-case ASCII
    letters and digits. *)
Theorem normalizeFileName_chars (filename : jsstring) :
  forallb (fun c => is_lower c || is_digit c) (normalizeFileName filename) = true.
Proof.
  unfold normalizeFileName, re_non_alphanumeric. rewrite replaceAll_class_delete.
  apply forallb_forall. intros c Hc. unfold toLowerCase_ascii in Hc.
  apply in_map_iff in Hc. destruct Hc as (x & <- & Hx).
  apply filter_In in Hx. destruct Hx as [_ Hx]. rewrite negb_involutive in Hx.
  apply lower_ascii_alnum. exact Hx.
Qed.

End FileNames.

Section SortingByAge.

Variable d : directory.

Lemma insertByAge_sorted (x : jsstring * Z) (l : list (jsstring * Z)) :
  StronglySorted olderPair l -> StronglySorted olderPair (insertByAge x l).
Proof.
  induction 1 as [|y l Hl IH Hy]; simpl.
  - constructor; constructor.
  - destruct (snd x <=? snd y)%Z eqn:Hcmp.
    + apply Z.leb_le in Hcmp. constructor.
      * constructor; assumption.
      * constructor; [exact Hcmp|].
        eapply Forall_impl; [|exact Hy]. unfold olderPair. intros; lia.
    + apply Z.leb_gt in Hcmp. constructor; [exact IH|].
      apply (Permutation_Forall (Permutation_sym (insertByAge_perm x l))).
      constructor; [unfold olderPair; lia | exact Hy].
Qed.

Lemma sortByAge_sorted (l : list (jsstring * Z)) :
  StronglySorted olderPair (sortByAge l).
Proof.
  induction l as [|x l IH]; simpl; [constructor | apply insertByAge_sorted, IH].
Qed.

(** Insertion never passes an entry of the same age. *)
Lemma insertByAge_stable (t : Z) (x : jsstring * Z) (l : list (jsstring * Z)) :
  filter (fun p => (snd p =? t)%Z) (insertByAge x l)
  = filter (fun p => (snd p =? t)%Z) (x :: l).
Proof.
  induction l as [|y l IH]; [reflexivity|].
  cbn [insertByAge]. destruct (snd x <=? snd y)%Z eqn:Hcmp; [reflexivity|].
  apply Z.leb_gt in Hcmp.
  cbn [filter] in IH |- *. rewrite IH.
  destruct (snd x =? t)%Z eqn:Hx, (snd y =? t)%Z eqn:Hy; try reflexivity.
  apply Z.eqb_eq in Hx, Hy. lia.
Qed.

Lemma sortByAge_stable (t : Z) (l : list (jsstring * Z)) :
  filter (fun p => (snd p =? t)%Z) (sortByAge l)
  = filter (fun p => (snd p =? t)%Z) l.
Proof.
  induction l as [|x l IH]; [reflexivity|].
  change (sortByAge (x :: l)) with (insertByAge x (sortByAge l)).
  rewrite insertByAge_stable. cbn [filter]. rewrite IH. reflexivity.
Qed.

Lemma pairs_names (l : list (jsstring * Z)) :
  Forall (fun p => snd p = birthtimeIn d (fst p)) l ->
  StronglySorted olderPair l ->
  StronglySorted (byAge d) (map fst l).
Proof.
  intros Hp Hs. induction Hs as [|y l Hl IH Hy]; simpl; [constructor|].
  inversion Hp as [|? ? Hy0 Hp']; subst.
  constructor; [apply IH; exact Hp'|].
  apply Forall_map. apply Forall_forall. intros z Hz.
  rewrite Forall_forall in Hy, Hp'. specialize (Hy z Hz). specialize (Hp' z Hz).
  unfold byAge, olderPair in *. lia.
Qed.

Lemma pairs_createdAt (t : Z) (l : list (jsstring * Z)) :
  Forall (fun p => snd p = birthtimeIn d (fst p)) l ->
  createdAt d t (map fst l) = map fst (filter (fun p => (snd p =? t)%Z) l).
Proof.
  induction 1 as [|y l Hy Hl IH]; [reflexivity|].
  unfold createdAt in *. cbn [map filter]. rewrite <- Hy, IH.
  destruct (snd y =? t)%Z; reflexivity.
Qed.

Lemma pairs_of_names (files : list jsstring) :
  Forall (fun p => snd p = birthtimeIn d (fst p)) (map (pairOf d) files).
Proof. apply Forall_map. apply Forall_forall. intros; reflexivity. Qed.

(** X3: when every listed name is in the directory, [sortFilesByAge]
    leaves the directory as it is and returns the same names in
    ascending order of creation time, names of equal time in the order
    they were given. *)
Theorem sortFilesByAge_stable_sort (lg : list (entry FsError)) (files : list jsstring) :
  (forall f, In f files -> In f (map name d)) ->
  exists sorted,
    sortFilesByAge files {| dir := d; log := lg |}
    = ({| dir := d; log := lg |}, inl sorted)
    /\ Permutation sorted files
    /\ StronglySorted (byAge d) sorted
    /\ forall t, createdAt d t sorted = createdAt d t files.
Proof.
  intros Hin.
  exists (map fst (sortByAge (map (pairOf d) files))).
  assert (Hpairs : Forall (fun p => snd p = birthtimeIn d (fst p))
                          (sortByAge (map (pairOf d) files))).
  { apply (Permutation_Forall (Permutation_sym (sortByAge_perm _))).
    apply pairs_of_names. }
  split; [|split; [|split]].
  - replace {| dir := d; log := lg |} with (after d [] lg)
      by (unfold after; rewrite without_nil; reflexivity).
    unfold sortFilesByAge, bind.
    rewrite mapM_stat by (intros f Hf; split; [apply Hin; exact Hf | intros []]).
    reflexivity.
  - pose proof (Permutation_map fst (sortByAge_perm (map (pairOf d) files))) as Hp.
    rewrite map_map in Hp. simpl in Hp. rewrite map_id in Hp. exact Hp.
  - apply pairs_names; [exact Hpairs | apply sortByAge_sorted].
  - intros t. rewrite (pairs_createdAt t Hpairs), sortByAge_stable.
    rewrite <- (pairs_createdAt t (pairs_of_names files)).
    rewrite map_map. simpl. rewrite map_id. reflexivity.
Qed.

Lemma stat_missing (lg : list (entry FsError)) (f : jsstring) :
  ~ In f (map name d) ->
  stat f {| dir := d; log := lg |} = ({| dir := d; log := lg |}, inr (ENOENT f)).
Proof.
  intros Hf. unfold stat. cbn [dir].
  destruct (find _ d) as [e|] eqn:Hfind; [|reflexivity].
  apply find_some in Hfind. destruct Hfind as [He Heq].
  apply jsstring_eqb_eq in Heq. subst f. elim Hf. apply in_map. exact He.
Qed.

(** X4: when exactly one of the listed names is not in the directory,
    the others before and after it being there, [sortFilesByAge] rejects
    with ENOENT for that name and changes nothing. *)
Theorem sortFilesByAge_missing (lg : list (entry FsError))
    (found rest : list jsstring) (f : jsstring) :
  (forall x, In x found -> In x (map name d)) ->
  (forall x, In x rest -> In x (map name d)) ->
  ~ In f (map name d) ->
  sortFilesByAge (found ++ f :: rest) {| dir := d; log := lg |}
  = ({| dir := d; log := lg |}, inr (ENOENT f)).
Proof.
  intros Hfound _ Hf. unfold sortFilesByAge. unfold bind at 1.
  assert (Hm : mapM (fun f0 => b <- stat f0 ;; ret (f0, b)) (found ++ f :: rest)
                    {| dir := d; log := lg |}
               = ({| dir := d; log := lg |}, inr (ENOENT f))).
  { induction found as [|x found IH]; cbn [mapM app].
    - unfold bind at 1. unfold bind at 1. rewrite stat_missing by exact Hf.
      reflexivity.
    - unfold bind at 1. unfold bind at 1.
      replace {| dir := d; log := lg |} with (after d [] lg)
        by (unfold after; rewrite without_nil; reflexivity).
      rewrite stat_present by (auto using in_eq; intros []).
      unfold ret at 1. unfold bind at 1.
      replace (after d [] lg) with {| dir := d; log := lg |}
        by (unfold after; rewrite without_nil; reflexivity).
      rewrite IH by (intros y Hy; apply Hfound; right; exact Hy).
      reflexivity. }
  rewrite Hm. reflexivity.
Qed.

End SortingByAge.

Section Keepers.

Variable d : directory.
Hypothesis names_distinct : NoDup (map name d).

(** The oldest member of a group is not in the plan, and every other
    member is. *)
Lemma keeper_not_planned (key : jsstring) :
  groupOf key d <> [] ->
  exists l1 e l2,
    groupOf key d = l1 ++ e :: l2
    /\ firstOldest birthtime l1 e l2
    /\ ~ In (name e) (deletionPlan d)
    /\ forall y, In y (l1 ++ l2) -> In (name y) (deletionPlan d).
Proof.
  intros Hne.
  destruct (@group_keeper d names_distinct key Hne)
    as (l1 & e & l2 & HG & Hold & Hkeep & Hgone).
  exists l1, e, l2. split; [exact HG|]. split; [exact Hold|].
  assert (HeG : In e (groupOf key d))
    by (rewrite HG; apply in_app_iff; right; left; reflexivity).
  split.
  - intros Hx. apply (@deletionPlan_group d key e HeG) in Hx. contradiction.
  - intros y Hy. apply (@deletionPlan_group d key y).
    + rewrite HG. apply in_app_iff. apply in_app_iff in Hy.
      destruct Hy; [left | right; right]; assumption.
    + apply Hgone. exact Hy.
Qed.

Lemma in_without (deleted : list jsstring) (e : file) :
  In e d -> ~ In (name e) deleted -> In e (without deleted d).
Proof.
  intros He Hdel. apply filter_In. split; [exact He|].
  apply negb_true_iff. destruct (existsb _ deleted) eqn:Hex; [|reflexivity].
  apply existsb_exists in Hex. destruct Hex as (x & Hx & Heq).
  apply jsstring_eqb_eq in Heq. subst x. contradiction.
Qed.

(** X6: whether or not an [unlink] is refused, the run only removes
    entries: what is left was there before; entries that are not
    markdown are all left; and the oldest member of every group, the
    first in the order of enumeration among the oldest, is left. *)
Theorem cleanDuplicateFiles_never_deletes_oldest
    (lg : list (entry FsError)) (key : jsstring) :
  let d' := dir (cleanDuplicateFiles {| dir := d; log := lg |}) in
  (forall e, In e d' -> In e d)
  /\ (forall e, In e d -> isMd (name e) = false -> In e d')
  /\ (groupOf key d <> [] ->
      exists l1 e l2,
        groupOf key d = l1 ++ e :: l2
        /\ firstOldest birthtime l1 e l2
        /\ In e d').
Proof.
  intros d'. subst d'. rewrite (@cleanDuplicateFiles_attempt d lg names_distinct).
  cbn [dir]. split; [|split].
  - intros e He. apply filter_In in He. tauto.
  - intros e He Hmd. apply in_without; [exact He|].
    intros Hdone. apply attempt_done_in in Hdone.
    apply (@deletionPlan_in d (name e) names_distinct) in Hdone.
    destruct Hdone as [_ Hdone]. congruence.
  - intros Hne.
    destruct (@keeper_not_planned key Hne) as (l1 & e & l2 & HG & Hold & Hkeep & _).
    exists l1, e, l2. split; [exact HG|]. split; [exact Hold|].
    apply in_without.
    + assert (HeG : In e (groupOf key d))
        by (rewrite HG; apply in_app_iff; right; left; reflexivity).
      apply filter_In in HeG. tauto.
    + intros Hdone. apply attempt_done_in in Hdone. contradiction.
Qed.

(** After a run in which nothing was refused, a group has one member. *)
Lemma groupOf_after_plan (key : jsstring) :
  groupOf key (without (deletionPlan d) d) <> [] ->
  exists e, groupOf key (without (deletionPlan d) d) = [e].
Proof.
  intros Hne.
  assert (Hcomm : groupOf key (without (deletionPlan d) d)
                  = filter (fun e => negb (existsb (jsstring_eqb (name e))
                                                    (deletionPlan d)))
                           (groupOf key d)).
  { unfold groupOf, without. apply filter_comm. }
  assert (HneG : groupOf key d <> []).
  { intros Hnil. apply Hne. rewrite Hcomm, Hnil. reflexivity. }
  destruct (@keeper_not_planned key HneG) as (l1 & e & l2 & HG & _ & Hkeep & Hgone).
  exists e. rewrite Hcomm, HG. apply filter_only.
  - apply negb_true_iff. destruct (existsb _ (deletionPlan d)) eqn:Hex; [|reflexivity].
    apply existsb_exists in Hex. destruct Hex as (x & Hx & Heq).
    apply jsstring_eqb_eq in Heq. subst x. contradiction.
  - intros y Hy. apply negb_false_iff. apply existsb_exists.
    exists (name y). split; [apply Hgone; exact Hy | apply jsstring_eqb_refl].
Qed.

End Keepers.

Lemma nodup_names_filter (q : file -> bool) (d : directory) :
  NoDup (map name d) -> NoDup (map name (filter q d)).
Proof.
  induction d as [|e d IH]; simpl; [auto|].
  intros Hnd. inversion Hnd as [|? ? Hnot Hnd']; subst.
  destruct (q e); simpl; [|auto].
  constructor; [|auto].
  intros Hin. apply Hnot. apply in_map_iff in Hin. destruct Hin as (x & Hx & Hin).
  apply filter_In in Hin. rewrite <- Hx. apply in_map. tauto.
Qed.

Lemma deletionPlan_after_plan (d : directory) :
  NoDup (map name d) ->
  deletionPlan (without (deletionPlan d) d) = [].
Proof.
  intros Hnd. set (d1 := without (deletionPlan d) d).
  unfold deletionPlan at 1.
  assert (Hall : forall g, In g (groupFiles (filter isMd (map name d1))) ->
                           victims d1 (snd g) = []).
  { intros [k ms] Hg. simpl.
    apply (groupFiles_grouped (filter isMd (map name d1))) in Hg.
    destruct Hg as [Hms Hne]. rewrite groupOf_members in Hms.
    destruct (@groupOf_after_plan d Hnd k) as [e He].
    { fold d1. intros Hnil. rewrite Hnil in Hms. simpl in Hms. congruence. }
    fold d1 in He. rewrite Hms, He. reflexivity. }
  induction (groupFiles (filter isMd (map name d1))) as [|g gs IH]; [reflexivity|].
  simpl. rewrite (Hall g (or_introl eq_refl)). simpl.
  apply IH. intros g' Hg'. apply Hall. right. exact Hg'.
Qed.

(** X5: when every [unlink] succeeds, a second run finds nothing to do:
    it deletes nothing and logs nothing. *)
Theorem cleanDuplicateFiles_idempotent (d : directory) (lg : list (entry FsError)) :
  NoDup (map name d) ->
  (forall e, In e d -> locked e = false) ->
  cleanDuplicateFiles (cleanDuplicateFiles {| dir := d; log := lg |})
  = cleanDuplicateFiles {| dir := d; log := lg |}.
Proof.
  intros Hnd Hfree.
  rewrite (@cleanDuplicateFiles_attempt d lg Hnd).
  rewrite (@attempt_unlocked d (deletionPlan d) Hfree). cbn [fst snd].
  rewrite cleanDuplicateFiles_attempt
    by (apply nodup_names_filter; exact Hnd).
  rewrite (@deletionPlan_after_plan d Hnd). cbn [attempt fst snd map].
  rewrite without_nil, !app_nil_r. reflexivity.
Qed.

Lemma key_of_md (stem : jsstring) :
  normalizeFileName (stem ++ str ".md") = toLowerCase_ascii (filter isAlnum stem).
Proof.
  unfold normalizeFileName, replaceFirst, matchAll, re_non_alphanumeric.
  rewrite scan_md_extension by lia.
  rewrite replaceAll_class_delete. f_equal.
  apply filter_ext. intros c. apply negb_involutive.
Qed.

(** X7: two markdown files whose names differ only in characters other
    than ASCII letters and digits, or in the case of letters, are taken
    for duplicates: of the two, only the one created first is left (the
    first listed when the times are equal). *)
Theorem cleanDuplicateFiles_similar_names
    (s1 s2 : jsstring) (t1 t2 : Z) (lg : list (entry FsError)) :
  s1 <> s2 ->
  toLowerCase_ascii (filter isAlnum s1) = toLowerCase_ascii (filter isAlnum s2) ->
  dir (cleanDuplicateFiles {| dir := [mdEntry s1 t1; mdEntry s2 t2]; log := lg |})
  = [if (t1 <=? t2)%Z then mdEntry s1 t1 else mdEntry s2 t2].
Proof.
  intros Hs Hkey.
  assert (Hn : s1 ++ str ".md" <> s2 ++ str ".md")
    by (intros Heq; apply app_inv_tail in Heq; contradiction).
  assert (Hnd : NoDup (map name [mdEntry s1 t1; mdEntry s2 t2])).
  { cbn [map mdEntry name]. constructor; [|constructor; [intros []|constructor]].
    intros [Heq | []]. congruence. }
  rewrite (@cleanDuplicateFiles_attempt _ lg Hnd).
  rewrite attempt_unlocked by (intros e [<- | [<- | []]]; reflexivity).
  cbn [fst snd dir].
  assert (Hplan : deletionPlan [mdEntry s1 t1; mdEntry s2 t2]
                  = [if (t1 <=? t2)%Z then s2 ++ str ".md" else s1 ++ str ".md"]).
  { unfold deletionPlan. cbn [map mdEntry name filter]. unfold isMd.
    rewrite !endsWith_app. unfold groupFiles. cbn [fold_left addToGroup].
    rewrite !key_of_md, Hkey, jsstring_eqb_refl.
    cbn [flat_map snd app]. rewrite app_nil_r.
    unfold victims, birthtimeIn, lookupFile. cbn [map find name mdEntry].
    rewrite !jsstring_eqb_refl.
    apply jsstring_eqb_neq in Hn. rewrite Hn. cbn [birthtime].
    unfold sortByAge. cbn [fold_right insertByAge snd birthtime mdEntry].
    destruct (t1 <=? t2)%Z; reflexivity. }
  rewrite Hplan. unfold without.
  assert (Hn' : s2 ++ str ".md" <> s1 ++ str ".md") by congruence.
  apply jsstring_eqb_neq in Hn, Hn'.
  destruct (t1 <=? t2)%Z; cbn [filter name mdEntry existsb];
    rewrite ?jsstring_eqb_refl, ?Hn, ?Hn'; reflexivity.
Qed.

Lemma cleanDuplicateFiles_similar_names_witness :
  dir (cleanDuplicateFiles
         {| dir := [mdEntry (str "plan (2024)") 5; mdEntry (str "Plan 2024") 3];
            log := [] |})
  = [if (5 <=? 3)%Z then mdEntry (str "plan (2024)") 5
     else mdEntry (str "Plan 2024") 3].
Proof.
  apply cleanDuplicateFiles_similar_names.
  - vm_compute. discriminate.
  - vm_compute. reflexivity.
Defined.

Lemma cleanDuplicateFiles_idempotent_witness :
  cleanDuplicateFiles (cleanDuplicateFiles {| dir := notes 30 10 20; log := [] |})
  = cleanDuplicateFiles {| dir := notes 30 10 20; log := [] |}.
Proof.
  apply cleanDuplicateFiles_idempotent.
  - vm_compute. repeat constructor; simpl; intuition discriminate.
  - intros e [<- | [<- | [<- | []]]]; reflexivity.
Defined.

Lemma sortFilesByAge_stable_sort_witness :
  exists sorted,
    sortFilesByAge [str "note.md"; str "Note.md"; str "NOTE (1).md"]
                   {| dir := notes 20 10 20; log := [] |}
    = ({| dir := notes 20 10 20; log := [] |}, inl sorted)
    /\ Permutation sorted [str "note.md"; str "Note.md"; str "NOTE (1).md"]
    /\ StronglySorted (byAge (notes 20 10 20)) sorted
    /\ forall t, createdAt (notes 20 10 20) t sorted
                 = createdAt (notes 20 10 20) t
                     [str "note.md"; str "Note.md"; str "NOTE (1).md"].
Proof.
  apply sortFilesByAge_stable_sort.
  intros f [<- | [<- | [<- | []]]]; vm_compute; auto.
Defined.

Lemma sortFilesByAge_missing_witness :
  sortFilesByAge [str "note.md"; str "gone.md"; str "Note.md"]
                 {| dir := notes 20 10 20; log := [] |}
  = ({| dir := notes 20 10 20; log := [] |}, inr (ENOENT (str "gone.md"))).
Proof.
  apply (@sortFilesByAge_missing (notes 20 10 20) [] [str "note.md"] [str "Note.md"]
           (str "gone.md")).
  - intros x [<- | []]. vm_compute. auto.
  - intros x [<- | []]. vm_compute. auto.
  - vm_compute. intuition discriminate.
Defined.

Lemma cleanDuplicateFiles_never_deletes_oldest_witness :
  exists l1 e l2,
    groupOf (str "a") lockedSecond = l1 ++ e :: l2
    /\ firstOldest birthtime l1 e l2
    /\ In e (dir (cleanDuplicateFiles {| dir := lockedSecond; log := [] |})).
Proof.
  apply (@cleanDuplicateFiles_never_deletes_oldest lockedSecond).
  - vm_compute. repeat constructor; simpl; intuition discriminate.
  - vm_compute. discriminate.
Defined.

End CleanerMore.

(* ================================================================== *)
(** * More on the chunker and the orchestration *)
(* ================================================================== *)

Section BlankParagraphs.

Lemma dropWhile_all (p : jschar -> bool) (s : jsstring) :
  forallb p s = true -> dropWhile p s = [].
Proof.
  induction s as [|c s IH]; cbn [forallb dropWhile]; [reflexivity|].
  rewrite andb_true_iff. intros [-> Hs]. apply IH, Hs.
Qed.

Lemma dropWhile_nil (p : jschar -> bool) (s : jsstring) :
  dropWhile p s = [] -> forallb p s = true.
Proof.
  induction s as [|c s IH]; cbn [forallb dropWhile]; [reflexivity|].
  destruct (p c); [exact IH | discriminate].
Qed.

Lemma dropWhile_head (p : jschar -> bool) (s : jsstring) (c : jschar) (t : jsstring) :
  dropWhile p s = c :: t -> p c = false /\ In c s.
Proof.
  induction s as [|x s IH]; cbn [dropWhile]; [discriminate|].
  destruct (p x) eqn:Hx.
  - intros H. destruct (IH H). split; [assumption | right; assumption].
  - intros H. injection H as -> _. split; [exact Hx | left; reflexivity].
Qed.

(** [!para.trim()] holds of the texts made of whitespace only. *)
Lemma blank_allSpace (s : jsstring) : blank s = true <-> allSpace s.
Proof.
  unfold blank, trim, allSpace. split.
  - intros H.
    destruct (rev (dropWhile is_space (rev (dropWhile is_space s)))) as [|x l] eqn:Hr;
      [|discriminate].
    apply (f_equal (@rev _)) in Hr. rewrite rev_involutive in Hr. simpl in Hr.
    apply dropWhile_nil in Hr.
    destruct (dropWhile is_space s) as [|c t] eqn:Hd; [apply dropWhile_nil, Hd|].
    apply dropWhile_head in Hd. destruct Hd as [Hc _].
    rewrite forallb_forall in Hr.
    rewrite (Hr c) in Hc; [discriminate|].
    apply -> in_rev. left. reflexivity.
  - intros H. rewrite (dropWhile_all _ _ H). reflexivity.
Qed.

Lemma blank_false_app (a b : jsstring) : blank a = false -> blank (a ++ b) = false.
Proof.
  intros Ha. destruct (blank (a ++ b)) eqn:Hab; [|reflexivity].
  apply blank_allSpace in Hab. unfold allSpace in Hab. rewrite forallb_app in Hab.
  apply andb_true_iff in Hab. destruct Hab as [Hab _].
  apply blank_allSpace in Hab. congruence.
Qed.

Lemma countTokens_zero (s : jsstring) : countTokens false s = 0 -> allSpace s.
Proof.
  unfold allSpace. induction s as [|c s IH]; cbn [countTokens forallb]; [reflexivity|].
  destruct (is_space c); [exact IH | discriminate].
Qed.

Lemma flatten_concat (groups : list (list (jsstring * jsstring))) :
  concat (map flatten groups) = flatten (concat groups).
Proof.
  unfold flatten. induction groups as [|g groups IH]; [reflexivity|].
  cbn [map concat]. rewrite map_app, concat_app, IH. reflexivity.
Qed.

(** The chunks are the non-blank paragraphs, grouped in order. *)
Lemma splitMarkdown_groups (E : Type) (content : jsstring) (chunkSize : Z) :
  exists groups : list (list (jsstring * jsstring)),
    concat groups
    = filter (fun u => negb (blank (fst u))) (units (split re_paragraph_break content))
    /\ fst (@splitMarkdown E content chunkSize) = map flatten groups
    /\ Forall (chunkOk chunkSize) groups.
Proof.
  destruct (units_split content) as [Hsp _].
  pose proof (@splitInv_fold chunkSize (units (split re_paragraph_break content)) [] _
                Hsp (splitInv_init chunkSize)) as Hinv.
  unfold splitMarkdown. cbn [fst]. rewrite splitLoop_units.
  simpl app in Hinv.
  destruct Hinv as (done & cur & Hcat & Hchunks & Hcur & Hcount & Hdone & Hsep & Hbound).
  rewrite Hchunks, Hcur.
  destruct cur as [|u cur].
  - exists done. rewrite app_nil_r in Hcat. simpl. auto.
  - exists (done ++ [u :: cur]). cbn [map]. repeat split.
    + rewrite concat_app. simpl. rewrite app_nil_r. exact Hcat.
    + rewrite map_app. reflexivity.
    + apply Forall_app. split; [exact Hdone|]. constructor; [|constructor].
      apply chunkOk_group; [discriminate | exact Hsep |].
      rewrite <- Hcount. exact Hbound.
Qed.

Lemma filter_true {A : Type} (q : A -> bool) (l : list A) :
  (forall x, In x l -> q x = true) -> filter q l = l.
Proof.
  induction l as [|x l IH]; intros H; [reflexivity|].
  cbn [filter]. rewrite (H x (or_introl eq_refl)). f_equal.
  apply IH. intros y Hy. apply H. right. exact Hy.
Qed.

Lemma filter_false {A : Type} (q : A -> bool) (l : list A) :
  (forall x, In x l -> q x = false) -> filter q l = [].
Proof.
  induction l as [|x l IH]; intros H; [reflexivity|].
  cbn [filter]. rewrite (H x (or_introl eq_refl)).
  apply IH. intros y Hy. apply H. right. exact Hy.
Qed.

(** X8: when no paragraph of the document is blank, the chunks put end
    to end give the document back. *)
Theorem splitMarkdown_lossless (E : Type) (content : jsstring) (chunkSize : Z) :
  (forall u, In u (units (split re_paragraph_break content)) -> blank (fst u) = false) ->
  concat (fst (@splitMarkdown E content chunkSize)) = content.
Proof.
  intros Hnb.
  destruct (splitMarkdown_groups E content chunkSize) as (groups & Hcat & Hchunks & _).
  destruct (units_split content) as [_ Hsrc].
  rewrite Hchunks, flatten_concat, Hcat.
  rewrite filter_true by (intros u Hu; rewrite (Hnb u Hu); reflexivity).
  exact Hsrc.
Qed.

Lemma allSpace_units (content : jsstring) :
  allSpace content ->
  forall u, In u (units (split re_paragraph_break content)) -> blank (fst u) = true.
Proof.
  intros Hsp u Hu. destruct (units_split content) as [_ Hsrc].
  apply blank_allSpace. rewrite <- Hsrc in Hsp. clear Hsrc.
  induction (units (split re_paragraph_break content)) as [|v us IH]; [destruct Hu|].
  unfold allSpace in Hsp. cbn [map concat] in Hsp. rewrite forallb_app in Hsp.
  apply andb_true_iff in Hsp. destruct Hsp as [Hv Hus].
  destruct Hu as [-> | Hu].
  - unfold unitText in Hv. rewrite forallb_app in Hv.
    apply andb_true_iff in Hv. tauto.
  - apply IH; assumption.
Qed.

Lemma splitMarkdown_blank_chunks (E : Type) (content : jsstring) (chunkSize : Z) :
  allSpace content -> fst (@splitMarkdown E content chunkSize) = [].
Proof.
  intros Hsp.
  destruct (splitMarkdown_groups E content chunkSize) as (groups & Hcat & Hchunks & Hok).
  rewrite filter_false in Hcat
    by (intros u Hu; rewrite (allSpace_units Hsp u Hu); reflexivity).
  rewrite Hchunks. destruct groups as [|g groups]; [reflexivity|].
  inversion Hok as [|? ? [Hg _] _]; subst.
  destruct g; [congruence | discriminate].
Qed.

(** X9: a document of whitespace only is split into no chunk at all, and
    the line logged says so. *)
Theorem splitMarkdown_blank (E : Type) (content : jsstring) (chunkSize : Z) :
  allSpace content ->
  @splitMarkdown E content chunkSize
  = ([], [Entry INFO (str "Split content into 0 chunks") None]).
Proof.
  intros Hsp. pose proof (splitMarkdown_blank_chunks E chunkSize Hsp) as H.
  unfold splitMarkdown in *. cbn [fst] in H. rewrite H. reflexivity.
Qed.

(** X10: no chunk is blank: every chunk holds a character that is not
    whitespace. *)
Theorem splitMarkdown_chunks_not_blank (E : Type) (content : jsstring) (chunkSize : Z) :
  forallb (fun chunk => negb (blank chunk)) (fst (@splitMarkdown E content chunkSize))
  = true.
Proof.
  destruct (splitMarkdown_groups E content chunkSize) as (groups & Hcat & Hchunks & Hok).
  rewrite Hchunks. apply forallb_forall. intros chunk Hchunk.
  apply in_map_iff in Hchunk. destruct Hchunk as (g & <- & Hg).
  rewrite Forall_forall in Hok. destruct (Hok g Hg) as [Hne _].
  destruct g as [|u g]; [congruence|].
  assert (Hu : In u (filter (fun u => negb (blank (fst u)))
                            (units (split re_paragraph_break content)))).
  { rewrite <- Hcat. apply in_concat. exists (u :: g). split; [exact Hg | left; reflexivity]. }
  apply filter_In in Hu. destruct Hu as [_ Hu]. apply negb_true_iff in Hu.
  apply negb_true_iff. unfold flatten, unitText. cbn [map concat].
  rewrite <- app_assoc. apply blank_false_app. exact Hu.
Qed.

(** X11: with a chunk size of zero or less every paragraph that is not
    blank is a chunk of its own, with the separator that follows it. *)
Theorem splitMarkdown_one_per_chunk (E : Type) (content : jsstring) (chunkSize : Z) :
  (chunkSize <= 0)%Z ->
  fst (@splitMarkdown E content chunkSize)
  = map unitText
        (filter (fun u => negb (blank (fst u)))
                (units (split re_paragraph_break content))).
Proof.
  intros Hsize.
  destruct (splitMarkdown_groups E content chunkSize) as (groups & Hcat & Hchunks & Hok).
  rewrite Hchunks, <- Hcat. clear Hchunks.
  assert (Hnb : forall g u, In g groups -> In u g -> blank (fst u) = false).
  { intros g u Hg Hu.
    assert (Hin : In u (concat groups)) by (apply in_concat; exists g; auto).
    rewrite Hcat in Hin. apply filter_In in Hin. destruct Hin as [_ Hin].
    apply negb_true_iff in Hin. exact Hin. }
  clear Hcat. induction Hok as [|g groups Hg Hok IH]; [reflexivity|].
  cbn [map concat]. rewrite map_app, <- IH
    by (intros g' u Hg' Hu; apply (Hnb g' u); [right; exact Hg' | exact Hu]).
  destruct Hg as [Hne [Hle | (u & -> & _)]].
  - exfalso. destruct g as [|u g]; [congruence|].
    assert (Htok : tokenCount (flatten (u :: g)) = 0) by lia.
    apply countTokens_zero in Htok.
    assert (Hb : blank (flatten (u :: g)) = false).
    { unfold flatten, unitText. cbn [map concat]. rewrite <- app_assoc.
      apply blank_false_app. apply (Hnb (u :: g) u); left; reflexivity. }
    apply blank_allSpace in Htok. congruence.
  - unfold flatten. cbn [map concat app]. rewrite app_nil_r. reflexivity.
Qed.

End BlankParagraphs.

Lemma splitMarkdown_lossless_witness :
  concat (fst (@splitMarkdown unit
                 (str ("a b" ++ NL ++ NL ++ "c d e" ++ NL ++ " " ++ NL ++ "f")) 3))
  = str ("a b" ++ NL ++ NL ++ "c d e" ++ NL ++ " " ++ NL ++ "f").
Proof.
  apply splitMarkdown_lossless.
  intros u Hu. vm_compute in Hu.
  destruct Hu as [<- | [<- | [<- | []]]]; reflexivity.
Defined.

Lemma splitMarkdown_blank_witness :
  @splitMarkdown unit (str (" " ++ NL ++ NL ++ "  " ++ NL)) 1
  = ([], [Entry INFO (str "Split content into 0 chunks") None]).
Proof. apply splitMarkdown_blank. reflexivity. Defined.

Lemma splitMarkdown_one_per_chunk_witness :
  fst (@splitMarkdown unit (str ("a" ++ NL ++ NL ++ "b c" ++ NL ++ NL ++ "d")) 0)
  = map unitText
        (filter (fun u => negb (blank (fst u)))
                (units (split re_paragraph_break
                          (str ("a" ++ NL ++ NL ++ "b c" ++ NL ++ NL ++ "d"))))).
Proof. apply splitMarkdown_one_per_chunk. lia. Defined.

Section WholeDocument.

Variable chunkSize : Z.

Lemma sumZ_counts_nonneg (cur : list (jsstring * jsstring)) :
  (0 <= sumZ (map (fun u => paraWordCount (fst u)) cur))%Z.
Proof.
  induction cur as [|v cur IH]; simpl; [lia|].
  pose proof (paraWordCount_pos (fst v)). lia.
Qed.

Lemma splitLoop_fits (rest : list (jsstring * jsstring)) :
  forall st,
    (0 <= currentCount st)%Z ->
    (currentCount st
     + sumZ (map (fun u => paraWordCount (fst u))
                 (filter (fun u => negb (blank (fst u))) rest)) <= chunkSize)%Z ->
    fold_left (fun st u => splitStep chunkSize (fst u) (snd u) st) rest st
    = {| chunks := chunks st;
         currentChunk := currentChunk st
                         ++ map unitText (filter (fun u => negb (blank (fst u))) rest);
         currentCount := currentCount st
                         + sumZ (map (fun u => paraWordCount (fst u))
                                     (filter (fun u => negb (blank (fst u))) rest)) |}.
Proof.
  induction rest as [|u rest IH]; intros st Hpos Hfit.
  - cbn [fold_left filter map sumZ fold_right]. rewrite app_nil_r, Z.add_0_r.
    destruct st; reflexivity.
  - cbn [fold_left filter]. cbn [filter] in Hfit.
    destruct (blank (fst u)) eqn:Hb; cbn [negb] in *.
    + assert (Hstep : splitStep chunkSize (fst u) (snd u) st = st).
      { unfold splitStep. unfold blank in Hb.
        destruct (trim (fst u)); [reflexivity | discriminate]. }
      rewrite Hstep. apply IH; assumption.
    + pose proof (paraWordCount_pos (fst u)) as Hu.
      pose proof (sumZ_counts_nonneg
                    (filter (fun u0 => negb (blank (fst u0))) rest)) as Hrest.
      change (sumZ (map (fun u0 => paraWordCount (fst u0))
                        (u :: filter (fun u0 => negb (blank (fst u0))) rest)))
        with (paraWordCount (fst u)
              + sumZ (map (fun u0 => paraWordCount (fst u0))
                          (filter (fun u0 => negb (blank (fst u0))) rest)))%Z
        in Hfit |- *.
      assert (Hstep : splitStep chunkSize (fst u) (snd u) st
                      = {| chunks := chunks st;
                           currentChunk := currentChunk st ++ [fst u ++ snd u];
                           currentCount := currentCount st + paraWordCount (fst u) |}).
      { unfold splitStep. unfold blank in Hb.
        destruct (trim (fst u)); [discriminate|].
        replace ((currentCount st + paraWordCount (fst u) >? chunkSize)%Z) with false
          by (symmetry; rewrite Z.gtb_ltb; apply Z.ltb_ge; lia).
        reflexivity. }
      rewrite Hstep, IH; cbn [chunks currentChunk currentCount]; try lia.
      cbn [map]. unfold unitText at 2.
      rewrite <- app_assoc. cbn [app]. f_equal. lia.
Qed.

(** X12: when the paragraphs that are not blank have at most [chunkSize]
    words between them, by the count of the loop, they make one chunk. *)
Theorem splitMarkdown_single_chunk (E : Type) (content : jsstring) :
  let paragraphs :=
    filter (fun u => negb (blank (fst u))) (units (split re_paragraph_break content)) in
  (sumZ (map (fun u => paraWordCount (fst u)) paragraphs) <= chunkSize)%Z ->
  fst (@splitMarkdown E content chunkSize)
  = match paragraphs with
    | [] => []
    | _ :: _ => [flatten paragraphs]
    end.
Proof.
  intros paragraphs Hfit. unfold splitMarkdown. cbn [fst].
  rewrite splitLoop_units, splitLoop_fits; cbn [chunks currentChunk currentCount];
    [| lia | exact Hfit].
  fold paragraphs. cbn [app].
  destruct paragraphs as [|u us]; reflexivity.
Qed.

End WholeDocument.

Lemma splitMarkdown_single_chunk_witness :
  fst (@splitMarkdown unit (str ("a b" ++ NL ++ NL ++ "c d e" ++ NL ++ NL ++ "f")) 6)
  = [str ("a b" ++ NL ++ NL ++ "c d e" ++ NL ++ NL ++ "f")].
Proof.
  apply (@splitMarkdown_single_chunk 6 unit
           (str ("a b" ++ NL ++ NL ++ "c d e" ++ NL ++ NL ++ "f"))).
  vm_compute. discriminate.
Defined.

Section OrchestratorMore.

Variable B : Type.
Variable E : Type.
Variable provider : B -> jsstring -> B * (jsstring + E).

Lemma splitMarkdown_log (content : jsstring) (chunkSize : Z) :
  snd (@splitMarkdown E content chunkSize)
  = [Entry INFO
       (str "Split content into "
        ++ dec (length (fst (@splitMarkdown E content chunkSize)))
        ++ str " chunks") None].
Proof. reflexivity. Qed.

(** X13: in a call without [options.outputPath], where step 5 is
    skipped, a document of whitespace only that is longer than twice the
    chunk size is turned into the empty text: the backend is not called,
    and the two lines logged are those of the chunker and of the end of
    the run. *)
Theorem processMarkdown_blank_document
    (content : jsstring) (chunkSize : Z) (providerName : jsstring)
    (intensity : nat) (w : Orchestrator.world B E) :
  allSpace content ->
  (2 * chunkSize < Z.of_nat (length content))%Z ->
  processMarkdown provider content chunkSize providerName intensity w
  = ({| backend := backend w;
        calls := calls w;
        log := log w
               ++ [Entry INFO (str "Split content into 0 chunks") None;
                   Entry INFO
                     (str "Processed markdown with " ++ providerName
                      ++ str " (intensity: " ++ dec intensity ++ str ")") None] |},
     []).
Proof.
  intros Hsp Hlong. unfold processMarkdown, selectChunks.
  replace (Z.of_nat (length content) >? chunkSize * 2)%Z with true
    by (symmetry; rewrite Z.gtb_ltb; apply Z.ltb_lt; lia).
  pose proof (splitMarkdown_blank_chunks E chunkSize Hsp) as Hcs.
  pose proof (splitMarkdown_log content chunkSize) as Hlog.
  destruct (@splitMarkdown E content chunkSize) as [cs l].
  cbn [fst snd] in Hcs, Hlog. subst cs l.
  unfold orchestrate, logged. cbn [processChunks join length backend calls log].
  rewrite <- app_assoc. reflexivity.
Qed.

Lemma results_all_failures (chunks : list jsstring) :
  forall b,
    Forall (fun r => exists e, r = inr e) (outcomes provider b chunks) ->
    results chunks (outcomes provider b chunks) = chunks.
Proof.
  induction chunks as [|c chunks IH]; intros b Hall; [reflexivity|].
  cbn [outcomes] in *. destruct (provider b c) as [b' r].
  inversion Hall as [|? ? [e ->] Hrest]; subst.
  cbn [results resultFor]. rewrite (IH b' Hrest). reflexivity.
Qed.

(** X14: when every call fails, each chunk is still tried once, in
    order, and the merged text is the chunks themselves with a blank
    line between two of them. *)
Theorem orchestrate_all_failures
    (chunks : list jsstring) (w : Orchestrator.world B E) :
  Forall (fun r => exists e, r = inr e) (outcomes provider (backend w) chunks) ->
  calls (fst (orchestrate provider chunks w)) = calls w ++ chunks
  /\ snd (orchestrate provider chunks w) = join blankLine chunks.
Proof.
  intros Hall. destruct (orchestrate_spec provider chunks w) as [Hc Hm].
  split; [exact Hc|]. rewrite Hm, results_all_failures by exact Hall. reflexivity.
Qed.

End OrchestratorMore.

Lemma processMarkdown_blank_document_witness :
  processMarkdown sampleBackend (str (" " ++ NL ++ NL ++ "  " ++ NL)) 2
                  (str "deepseek") 1 sampleWorld
  = ({| backend := tt;
        calls := [];
        log := [Entry INFO (str "Split content into 0 chunks") None;
                Entry INFO (str "Processed markdown with deepseek (intensity: 1)")
                      None] |},
     []).
Proof.
  apply (@processMarkdown_blank_document unit unit sampleBackend
           (str (" " ++ NL ++ NL ++ "  " ++ NL)) 2%Z (str "deepseek") 1 sampleWorld).
  - reflexivity.
  - vm_compute. reflexivity.
Defined.

Lemma orchestrate_all_failures_witness :
  calls (fst (orchestrate sampleBackend [str "b"; str "b"] sampleWorld))
  = [str "b"; str "b"]
  /\ snd (orchestrate sampleBackend [str "b"; str "b"] sampleWorld)
     = str ("b" ++ NL ++ NL ++ "b").
Proof.
  apply (@orchestrate_all_failures unit unit sampleBackend [str "b"; str "b"] sampleWorld).
  repeat constructor; exists tt; reflexivity.
Defined.

Module PipelineFacts.
Import Providers Pipeline.

Section Stubs.

Variable B : Type.
Variable E : Type.
Variable Config : Type.
Variable toLowerCase : jsstring -> jsstring.
Variable deepseek : B -> jsstring -> B * (jsstring + E).

Lemma outcomes_identity (chunks : list jsstring) (b : B) :
  results chunks (outcomes (fun b content => (b, @inl jsstring E content)) b chunks)
  = chunks.
Proof.
  induction chunks as [|c chunks IH]; [reflexivity|].
  cbn [outcomes results resultFor]. rewrite IH. reflexivity.
Qed.

Lemma backendAfter_identity (chunks : list jsstring) (b : B) :
  backendAfter (fun b content => (b, @inl jsstring E content)) b chunks = b.
Proof. induction chunks as [|c chunks IH]; [reflexivity | exact IH]. Qed.

(** X15: under every provider name but DeepSeek's the annotation does
    nothing: the service state is untouched, and the text returned is
    the chunks of the document, a blank line between two of them, after
    the clean-up rules. *)
Theorem processMarkdownByName_stub
    (providerName : jsstring) (config : option Config) (content : jsstring)
    (chunkSize : Z) (intensity : nat) (w : Orchestrator.world B E)
    (p : LLMProvider Config) :
  getProvider toLowerCase providerName config = inl p ->
  provider_name p <> str "deepseek" ->
  let r := processMarkdownByName toLowerCase deepseek providerName config content
                                 chunkSize intensity w in
  backend (fst r) = backend w
  /\ snd r = inl (applyRules (join blankLine (snd (selectChunks content chunkSize w)))).
Proof.
  intros Hget Hname r. subst r. unfold processMarkdownByName. rewrite Hget.
  assert (Hcall : providerCall deepseek p = fun b content => (b, inl content)).
  { destruct p; try reflexivity. elim Hname. reflexivity. }
  rewrite Hcall. unfold processMarkdown.
  destruct (selectChunks content chunkSize w) as [w1 chunks] eqn:Hsel.
  assert (Hb1 : backend w1 = backend w).
  { unfold selectChunks in Hsel.
    destruct (Z.of_nat (length content) >? chunkSize * 2)%Z.
    - destruct (@splitMarkdown E content chunkSize) as [cs l].
      injection Hsel as <- _. reflexivity.
    - injection Hsel as <- _. reflexivity. }
  unfold orchestrate.
  pose proof (processChunks_spec (fun b content => (b, @inl jsstring E content))
                (length chunks) chunks 0 w1 []) as Hspec.
  destruct (processChunks _ (length chunks) 0 chunks w1 []) as [w2 acc].
  cbn [fst snd] in Hspec. destruct Hspec as (_ & Hb & Hacc).
  rewrite backendAfter_identity in Hb. rewrite outcomes_identity in Hacc.
  cbn [app] in Hacc. subst acc. cbn [fst snd logged backend].
  split; [congruence | reflexivity].
Qed.

(** X16: under a name whose lower-case form is none of the seven
    identifiers the run is rejected with "Unknown provider: {name}"
    before anything is done: no call, no log line. *)
Theorem processMarkdownByName_unknown
    (providerName : jsstring) (config : option Config) (content : jsstring)
    (chunkSize : Z) (intensity : nat) (w : Orchestrator.world B E) :
  ~ In (toLowerCase providerName)
       (map str ["deepseek"; "openai"; "azure"; "google"; "anthropic"; "mistral";
                 "ollama"]%string) ->
  processMarkdownByName toLowerCase deepseek providerName config content
                        chunkSize intensity w
  = (w, inr (mkError (str "Unknown provider: " ++ providerName))).
Proof.
  intros Hnot. unfold processMarkdownByName.
  rewrite ProvidersFacts.getProvider_lookup. unfold lookup.
  destruct (find _ (registry config)) as [p|] eqn:Hfind; [|reflexivity].
  apply find_some in Hfind. destruct Hfind as [Hin Heq].
  apply jsstring_eqb_eq in Heq. elim Hnot. rewrite Heq.
  rewrite <- (ProvidersFacts.registry_names config). apply in_map. exact Hin.
Qed.

End Stubs.

Lemma processMarkdownByName_stub_witness :
  let r := processMarkdownByName toLowerCase_ascii sampleBackend (str "OpenAI")
                                 (@None unit) (str "see [[cats]] and [[cat]]")
                                 100 1 sampleWorld in
  backend (fst r) = backend sampleWorld
  /\ snd r = inl (applyRules
                    (join blankLine
                       (snd (selectChunks (str "see [[cats]] and [[cat]]") 100
                               sampleWorld)))).
Proof.
  apply (@processMarkdownByName_stub unit unit unit toLowerCase_ascii sampleBackend
           (str "OpenAI") None (str "see [[cats]] and [[cat]]") 100%Z 1 sampleWorld
           (OpenAIProvider None)).
  - reflexivity.
  - vm_compute. discriminate.
Defined.

Lemma processMarkdownByName_unknown_witness :
  processMarkdownByName toLowerCase_ascii sampleBackend (str "GPT") (@None unit)
                        (str "text") 100 1 sampleWorld
  = (sampleWorld, inr (mkError (str "Unknown provider: GPT"))).
Proof.
  apply (@processMarkdownByName_unknown unit unit unit toLowerCase_ascii sampleBackend
           (str "GPT") None (str "text") 100%Z 1 sampleWorld).
  vm_compute. intuition discriminate.
Defined.

End PipelineFacts.

(* ================================================================== *)
(** * More on the clean-up rules *)
(* ================================================================== *)

Section RulesOnlyDrop.

Lemma subseq_refl (a : jsstring) : subseq a a.
Proof. induction a; constructor; assumption. Qed.

Lemma subseq_nil_l (a : jsstring) : subseq [] a.
Proof. induction a; constructor; assumption. Qed.

Lemma subseq_app (a a' b b' : jsstring) :
  subseq a a' -> subseq b b' -> subseq (a ++ b) (a' ++ b').
Proof. induction 1; intros Hb; simpl; try constructor; auto. Qed.

Lemma subseq_trans (a b c : jsstring) : subseq a b -> subseq b c -> subseq a c.
Proof.
  intros Hab Hbc. revert a Hab.
  induction Hbc as [|x b c Hbc IH|x b c Hbc IH]; intros a Hab.
  - exact Hab.
  - inversion Hab; subst; constructor; auto.
  - constructor. auto.
Qed.

Lemma subseq_length (a b : jsstring) : subseq a b -> length a <= length b.
Proof. induction 1; simpl; lia. Qed.

Lemma delete_subseq (segs : list segment) :
  subseq (concat (map (fun g => match g with
                                | Plain c => [c]
                                | Span _ _ => []
                                end) segs))
         (concat (map source segs)).
Proof.
  induction segs as [|[c | m cap] segs IH]; cbn [map concat source].
  - constructor.
  - apply (subseq_app (subseq_refl [c]) IH).
  - apply (subseq_app (subseq_nil_l m) IH).
Qed.

Lemma replaceAll_delete_subseq (r : regex) (s : jsstring) :
  subseq (replaceAll r (fun _ _ => []) s) s.
Proof.
  pose proof (delete_subseq (matchAll r s)) as H.
  rewrite matchAll_source in H. exact H.
Qed.

Lemma dedupe_subseq (segs : list segment) :
  Forall (span_has markup_span) segs ->
  forall seen, subseq (dedupe seen segs) (concat (map source segs)).
Proof.
  induction 1 as [|g segs Hg Hsegs IH]; intros seen; cbn [dedupe map concat];
    [constructor|].
  destruct g as [c | m [keyword|]]; cbn [source].
  - apply (subseq_app (subseq_refl [c]) (IH seen)).
  - destruct Hg as (kw & -> & Hcap & _). injection Hcap as <-.
    destruct (has seen (normalizeKeyword keyword)).
    + apply subseq_app; [|apply IH]. unfold markup.
      apply (subseq_app (subseq_nil_l (str "[["))).
      rewrite <- (app_nil_r keyword) at 1.
      apply subseq_app; [apply subseq_refl | apply subseq_nil_l].
    + apply subseq_app; [apply subseq_refl | apply IH].
  - apply subseq_app; [apply subseq_refl | apply IH].
Qed.

Lemma removeDuplicates_subseq (s : jsstring) : subseq (removeDuplicates s) s.
Proof.
  pose proof (@dedupe_subseq (matchAll re_markup s)) as H.
  rewrite matchAll_source in H. apply H.
  apply matchAll_spans. intros prev s' m cap rest. apply exec_markup.
Qed.

(** X17: the clean-up rules only leave characters out: the result is the
    input with some of its characters dropped, the others in their
    order; so it is never longer than the input. *)
Theorem applyRules_only_drops (content : jsstring) :
  subseq (applyRules content) content
  /\ length (applyRules content) <= length content.
Proof.
  assert (H : subseq (applyRules content) content).
  { change (applyRules content)
      with (ignoreReferences (removeDuplicates (skipConventionalNames content))).
    eapply subseq_trans; [apply replaceAll_delete_subseq|].
    eapply subseq_trans; [apply removeDuplicates_subseq|].
    apply replaceAll_delete_subseq. }
  split; [exact H | apply subseq_length, H].
Qed.

(** Where the texts a pattern matches all hold a character the input
    lacks, nothing is matched. *)
Lemma no_span (P : jsstring -> option jsstring -> Prop) (c0 : jschar)
    (segs : list segment) :
  (forall m cap, P m cap -> In c0 m) ->
  Forall (span_has P) segs ->
  ~ In c0 (concat (map source segs)) ->
  segs = map Plain (concat (map source segs)).
Proof.
  intros HP Hsegs. induction Hsegs as [|g segs Hg Hsegs IH]; intros Hnot;
    [reflexivity|].
  cbn [map concat] in Hnot |- *. rewrite in_app_iff in Hnot.
  destruct g as [c | m cap]; cbn [source] in *.
  - cbn [app map]. f_equal. apply IH. tauto.
  - elim Hnot. left. apply (HP m cap Hg).
Qed.

Lemma matchAll_no_span (r : regex) (c0 : jschar) (s : jsstring) :
  (forall m, Matches r m -> In c0 m) ->
  ~ In c0 s ->
  matchAll r s = map Plain s.
Proof.
  intros Hr Hnot.
  pose proof (@no_span (fun m _ => Matches r m) c0 (matchAll r s)
                (fun m _ H => Hr m H)) as H.
  rewrite matchAll_source in H. apply H; [|exact Hnot].
  apply matchAll_spans. intros prev s' m cap rest He.
  apply exec_sound in He. tauto.
Qed.

Lemma replaceAll_plain (f : jsstring -> option jsstring -> jsstring) (s : jsstring) :
  concat (map (fun g => match g with
                        | Plain c => [c]
                        | Span m cap => f m cap
                        end) (map Plain s)) = s.
Proof. induction s as [|c s IH]; [reflexivity|]. cbn [map concat app]. f_equal. exact IH. Qed.

Lemma dedupe_plain (seen : list jsstring) (s : jsstring) :
  dedupe seen (map Plain s) = s.
Proof. induction s as [|c s IH]; [reflexivity|]. cbn [map dedupe]. f_equal. exact IH. Qed.

Lemma Matches_opening (r : regex) (m : jsstring) :
  Matches (Seq (Lit (str "[[")) r) m -> In (chr "[") m.
Proof.
  intros H. apply Matches_Seq in H. destruct H as (t1 & t2 & -> & H & _).
  apply Matches_Lit in H. subst t1. left. reflexivity.
Qed.

Lemma skipConventionalNames_no_bracket (s : jsstring) :
  ~ In (chr "[") s -> skipConventionalNames s = s.
Proof.
  intros Hnot. unfold skipConventionalNames, replaceAll.
  rewrite (@matchAll_no_span re_conventional_name (chr "[") s);
    [apply replaceAll_plain | apply Matches_opening | exact Hnot].
Qed.

Lemma removeDuplicates_no_bracket (s : jsstring) :
  ~ In (chr "[") s -> removeDuplicates s = s.
Proof.
  intros Hnot. unfold removeDuplicates.
  rewrite (@matchAll_no_span re_markup (chr "[") s);
    [apply dedupe_plain | apply Matches_opening | exact Hnot].
Qed.

Lemma ignoreReferences_no_bracket (s : jsstring) :
  ~ In (chr "[") s -> ignoreReferences s = s.
Proof.
  intros Hnot. unfold ignoreReferences, replaceAll.
  rewrite (@matchAll_no_span re_reference (chr "[") s);
    [apply replaceAll_plain | apply Matches_opening | exact Hnot].
Qed.

(** X18: a text without an opening bracket goes through the clean-up
    rules unchanged. *)
Theorem applyRules_no_bracket (content : jsstring) :
  lacks "[" content -> applyRules content = content.
Proof.
  rewrite lacks_spec. intros Hnot.
  change (applyRules content)
    with (ignoreReferences (removeDuplicates (skipConventionalNames content))).
  rewrite skipConventionalNames_no_bracket by exact Hnot.
  rewrite removeDuplicates_no_bracket by exact Hnot.
  apply ignoreReferences_no_bracket. exact Hnot.
Qed.

Lemma applyRules_no_bracket_witness :
  applyRules (str "Plain text: no markup, see https://x.y and @ref]]")
  = str "Plain text: no markup, see https://x.y and @ref]]".
Proof. apply applyRules_no_bracket. reflexivity. Defined.

End RulesOnlyDrop.

Section NameFilter.

Lemma exec_conventional_plain (prev : option jschar) (c : jschar) (s : jsstring) :
  N.eqb c (chr "[") = false -> exec re_conventional_name prev (c :: s) = None.
Proof.
  intros Hc. unfold exec, re_conventional_name.
  cbn [rmatch Lit str map list_ascii_of_string].
  rewrite N.eqb_sym. unfold chr in Hc. rewrite Hc. reflexivity.
Qed.

Lemma scan_conventional_end (fuel : nat) (prev : option jschar) :
  scan fuel re_conventional_name prev [] = [].
Proof. destruct fuel; reflexivity. Qed.

Lemma scan_conventional_text (t : jsstring) :
  forall fuel prev rest,
    plain t -> length t <= fuel ->
    exists prev',
      scan fuel re_conventional_name prev (t ++ rest)
      = map Plain t ++ scan (fuel - length t) re_conventional_name prev' rest.
Proof.
  induction t as [|c t IH]; intros fuel prev rest Hplain Hfuel.
  - exists prev. simpl. rewrite Nat.sub_0_r. reflexivity.
  - unfold plain in Hplain. simpl in Hplain. apply andb_true_iff in Hplain.
    destruct Hplain as [Hc Hplain]. apply negb_true_iff in Hc.
    destruct fuel as [|fuel]; [simpl in Hfuel; lia|].
    destruct (IH fuel (Some c) rest Hplain ltac:(simpl in Hfuel; lia)) as [prev' Hs].
    exists prev'. cbn [scan app]. rewrite exec_conventional_plain by exact Hc.
    rewrite Hs. reflexivity.
Qed.

(** Once the span is found where it stands, the filter takes it out and
    the other two rules have nothing to do. *)
Lemma applyRules_span_deleted (pre post keyword : jsstring) :
  plain pre -> plain post ->
  (forall prev,
     exec re_conventional_name prev (markup keyword ++ post)
     = Some (markup keyword, None, post)) ->
  applyRules (pre ++ markup keyword ++ post) = pre ++ post.
Proof.
  intros Hpre Hpost Hexec.
  assert (Hskip : skipConventionalNames (pre ++ markup keyword ++ post) = pre ++ post).
  { unfold skipConventionalNames, replaceAll, matchAll.
    destruct (@scan_conventional_text pre
                (S (length (pre ++ markup keyword ++ post))) None
                (markup keyword ++ post) Hpre)
      as [prev' ->]; [rewrite length_app; lia|].
    replace (S (length (pre ++ markup keyword ++ post)) - length pre)
      with (S (length (markup keyword ++ post)))
      by (rewrite !length_app; lia).
    cbn [scan]. rewrite Hexec.
    unfold markup at 1. cbn [str map list_ascii_of_string app].
    match goal with
    | |- context [scan ?f re_conventional_name ?q post] =>
        destruct (@scan_conventional_text post f q [] Hpost) as [prev2 Hs];
          [rewrite length_app; lia|]
    end.
    rewrite app_nil_r in Hs. rewrite Hs, scan_conventional_end, app_nil_r.
    rewrite map_app, concat_app. cbn [map concat app].
    rewrite !replaceAll_plain. reflexivity. }
  change (applyRules (pre ++ markup keyword ++ post))
    with (ignoreReferences (removeDuplicates
            (skipConventionalNames (pre ++ markup keyword ++ post)))).
  rewrite Hskip.
  assert (Hnot : ~ In (chr "[") (pre ++ post)).
  { apply (proj1 (lacks_spec "[" (pre ++ post))).
    unfold lacks, plain in *. rewrite forallb_app.
    apply andb_true_iff. split; [exact Hpre | exact Hpost]. }
  rewrite removeDuplicates_no_bracket by exact Hnot.
  apply ignoreReferences_no_bracket. exact Hnot.
Qed.

End NameFilter.

Section NameShapes.

Lemma rmatch_Seq (r1 r2 : regex) (prev : option jschar) (s : jsstring)
    (cap : option jsstring) (k : cont) :
  rmatch (Seq r1 r2) prev s cap k
  = rmatch r1 prev s cap (fun prev' s' cap' => rmatch r2 prev' s' cap' k).
Proof. reflexivity. Qed.

Lemma rmatch_Star (r : regex) (prev : option jschar) (s : jsstring)
    (cap : option jsstring) (k : cont) :
  rmatch (Star r) prev s cap k = star_loop (rmatch r) k (S (length s)) prev s cap.
Proof. reflexivity. Qed.

Lemma rmatch_Alt_left (r1 r2 : regex) (prev : option jschar) (s : jsstring)
    (cap : option jsstring) (k : cont) (x : outcome) :
  rmatch r1 prev s cap k = Some x -> rmatch (Alt r1 r2) prev s cap k = Some x.
Proof. intros H. cbn [rmatch]. rewrite H. reflexivity. Qed.

Lemma rmatch_Lit_app (l : jsstring) :
  forall (s : jsstring) (prev : option jschar) (cap : option jsstring) (k : cont),
    rmatch (Lit l) prev (l ++ s) cap k = k (last (map Some l) prev) s cap.
Proof.
  induction l as [|c l IH]; intros s prev cap k; [reflexivity|].
  cbn [Lit app]. rewrite rmatch_Seq. cbn [rmatch]. rewrite N.eqb_refl.
  rewrite IH. cbn [map]. rewrite last_cons_default. reflexivity.
Qed.

Lemma rmatch_lit_hit (a : ascii) (s : jsstring) (prev : option jschar)
    (cap : option jsstring) (k : cont) :
  rmatch (lit a) prev (chr a :: s) cap k = k (Some (chr a)) s cap.
Proof. cbn [rmatch lit]. rewrite N.eqb_refl. reflexivity. Qed.

(** One capitalised word is read whole when the continuation accepts
    after it. *)
Lemma word_run (k : cont) (x : outcome) (w tail : jsstring)
    (prev : option jschar) (cap : option jsstring) :
  capitalised w = true ->
  match tail with c :: _ => is_lower c = false | [] => True end ->
  (forall prev', k prev' tail cap = Some x) ->
  rmatch (Seq (Chr is_upper) (Plus (Chr is_lower))) prev (w ++ tail) cap k = Some x.
Proof.
  intros Hw Htail Hk. destruct w as [|c [|l rest]]; try discriminate.
  cbn [capitalised forallb] in Hw.
  apply andb_true_iff in Hw. destruct Hw as [Hc Hw].
  apply andb_true_iff in Hw. destruct Hw as [Hl Hrest].
  rewrite rmatch_Seq. cbn [app]. cbn [rmatch]. rewrite Hc.
  unfold Plus. rewrite rmatch_Seq. cbn [rmatch]. rewrite Hl.
  apply star_chr_run; [exact Htail | exact Hrest | rewrite length_app; apply Nat.le_trans with (length rest + length tail);
     [apply Nat.le_add_r | apply Nat.le_succ_diag_r]
   | apply Hk].
Qed.

Lemma words_length (ws : list jsstring) :
  length ws <= length (concat (map (fun w => chr " " :: w) ws)).
Proof.
  induction ws as [|w ws IH]; [reflexivity|].
  cbn [map concat]. rewrite length_app. cbn [length].
  unfold jsstring, jschar in *. lia.
Qed.

(** The loop [(?: [A-Z][a-z]+)*] reads all the words that follow. *)
Lemma star_words (k : cont) (x : outcome) (tail : jsstring) (cap : option jsstring) :
  (forall prev', k prev' (chr "]" :: tail) cap = Some x) ->
  forall (ws : list jsstring) (fuel : nat) (prev : option jschar),
    forallb capitalised ws = true ->
    length ws <= fuel ->
    star_loop (rmatch (Seq (lit " ") (Seq (Chr is_upper) (Plus (Chr is_lower)))))
              k fuel prev
              (concat (map (fun w => chr " " :: w) ws) ++ chr "]" :: tail) cap
    = Some x.
Proof.
  intros Hk ws. induction ws as [|w ws IH]; intros fuel prev Hws Hfuel.
  - cbn [map concat app]. destruct fuel as [|fuel]; cbn [star_loop]; [apply Hk|].
    rewrite rmatch_Seq. cbn [rmatch lit].
    replace (N.eqb (chr " ") (chr "]")) with false by reflexivity.
    cbn [orElse]. apply Hk.
  - destruct fuel as [|fuel]; [simpl in Hfuel; lia|].
    cbn [forallb] in Hws. apply andb_true_iff in Hws. destruct Hws as [Hw Hws].
    cbn [map concat]. rewrite <- app_assoc. cbn [app star_loop].
    match goal with
    | |- orElse ?a _ = _ => assert (Hiter : a = Some x)
    end.
    { rewrite rmatch_Seq, rmatch_lit_hit.
      apply word_run; [exact Hw | |].
      - destruct ws; reflexivity.
      - intros prev'.
        replace (length (concat (map (fun w0 => chr " " :: w0) ws) ++ chr "]" :: tail)
                 <? length (chr " " ::
                              w ++ concat (map (fun w0 => chr " " :: w0) ws)
                              ++ chr "]" :: tail))
          with true
          by (symmetry; apply Nat.ltb_lt; simpl; rewrite !length_app; simpl; lia).
        apply IH; [exact Hws | simpl in Hfuel; lia]. }
    rewrite Hiter. reflexivity.
Qed.

Lemma join_words (w : jsstring) (ws : list jsstring) :
  join (str " ") (w :: ws) = w ++ concat (map (fun w => chr " " :: w) ws).
Proof.
  revert w. induction ws as [|v ws IH]; intros w.
  - simpl. rewrite app_nil_r. reflexivity.
  - change (join (str " ") (w :: v :: ws))
      with (w ++ str " " ++ join (str " ") (v :: ws)).
    rewrite IH. reflexivity.
Qed.

Lemma closing_brackets (post : jsstring) (cap : option jsstring) (prev : option jschar) :
  rmatch (Lit (str "]]")) prev (chr "]" :: chr "]" :: post) cap
         (fun _ s' cap' => Some (s', cap'))
  = Some (post, cap).
Proof. exact (rmatch_Lit_app (str "]]") post prev cap (fun _ s' cap' => Some (s', cap'))). Qed.

(** A span around capitalised words is found where it stands. *)
Lemma exec_conventional_words (prev : option jschar) (ws : list jsstring)
    (post : jsstring) :
  ws <> [] -> forallb capitalised ws = true ->
  exec re_conventional_name prev (markup (join (str " ") ws) ++ post)
  = Some (markup (join (str " ") ws), None, post).
Proof.
  intros Hne Hws. destruct ws as [|w ws]; [congruence|].
  cbn [forallb] in Hws. apply andb_true_iff in Hws. destruct Hws as [Hw Hws].
  rewrite join_words. unfold exec.
  assert (Hm : rmatch re_conventional_name prev
                 (markup (w ++ concat (map (fun w => chr " " :: w) ws)) ++ post) None
                 (fun _ s' cap' => Some (s', cap'))
               = Some (post, None)).
  { unfold re_conventional_name, markup. rewrite <- !app_assoc.
    rewrite rmatch_Seq, rmatch_Lit_app, rmatch_Seq.
    apply rmatch_Alt_left.
    change (rmatch (Seq (Chr is_upper)
                        (Seq (Plus (Chr is_lower))
                             (Star (Seq (lit " ")
                                        (Seq (Chr is_upper) (Plus (Chr is_lower))))))))
      with (fun prev s cap k =>
              rmatch (Seq (Chr is_upper) (Plus (Chr is_lower))) prev s cap
                (fun prev' s' cap' =>
                   rmatch (Star (Seq (lit " ")
                                     (Seq (Chr is_upper) (Plus (Chr is_lower)))))
                          prev' s' cap' k)).
    cbv beta.
    apply word_run; [exact Hw | destruct ws; reflexivity |].
    intros prev'. rewrite rmatch_Star.
    apply (@star_words _ (post, None) (chr "]" :: post) None).
    - intros prev2. apply closing_brackets.
    - exact Hws.
    - pose proof (words_length ws). rewrite length_app. lia. }
  rewrite Hm. do 3 f_equal. apply firstn_length_app.
Qed.

Lemma digit_not_upper (c : jschar) : is_digit c = true -> is_upper c = false.
Proof.
  unfold is_digit, is_upper. intros H. apply andb_true_iff in H.
  destruct H as [_ H]. apply N.leb_le in H.
  apply andb_false_iff. left. apply N.leb_gt. lia.
Qed.

(** A span around four digits, with or without [s], is found where it
    stands. *)
Lemma exec_conventional_year (prev : option jschar) (k post : jsstring) :
  yearName k = true ->
  exec re_conventional_name prev (markup k ++ post) = Some (markup k, None, post).
Proof.
  intros Hk. unfold exec.
  assert (Hm : rmatch re_conventional_name prev (markup k ++ post) None
                 (fun _ s' cap' => Some (s', cap'))
               = Some (post, None)).
  { unfold re_conventional_name, markup. rewrite <- !app_assoc.
    rewrite rmatch_Seq, rmatch_Lit_app, rmatch_Seq.
    destruct k as [|a [|b [|c [|d [|s [|e k]]]]]]; try discriminate;
      cbn [yearName] in Hk;
      repeat match type of Hk with
             | _ && _ = true =>
                 let H := fresh "Hd" in
                 apply andb_true_iff in Hk; destruct Hk as [Hk H]
             end.
    - cbn [app rmatch Rep Opt lit]. rewrite (@digit_not_upper a Hk).
      cbn [orElse]. rewrite Hk, Hd1, Hd0, Hd.
      replace (N.eqb (chr "s") (N_of_ascii "]")) with false by reflexivity.
      cbn [orElse]. apply closing_brackets.
    - cbn [app rmatch Rep Opt lit]. rewrite (@digit_not_upper a Hk).
      cbn [orElse]. rewrite Hk, Hd2, Hd1, Hd0.
      apply N.eqb_eq in Hd. subst s. rewrite N.eqb_refl.
      match goal with
      | |- orElse ?m _ = _ =>
          replace m with (Some (post, @None jsstring))
            by (symmetry; apply closing_brackets)
      end.
      reflexivity. }
  rewrite Hm. do 3 f_equal. apply firstn_length_app.
Qed.

(** X19: a span around capitalised words, one or several with single
    spaces between them, is deleted with the words in it; the text
    around it, here without an opening bracket, is left as it is. *)
Theorem applyRules_deletes_names (pre post : jsstring) (ws : list jsstring) :
  plain pre -> plain post ->
  ws <> [] -> forallb capitalised ws = true ->
  applyRules (pre ++ markup (join (str " ") ws) ++ post) = pre ++ post.
Proof.
  intros Hpre Hpost Hne Hws.
  apply applyRules_span_deleted; [exact Hpre | exact Hpost |].
  intros prev. apply exec_conventional_words; assumption.
Qed.

(** X20: a span around four digits, followed by [s] or not, is deleted
    with the number in it. *)
Theorem applyRules_deletes_years (pre post k : jsstring) :
  plain pre -> plain post ->
  yearName k = true ->
  applyRules (pre ++ markup k ++ post) = pre ++ post.
Proof.
  intros Hpre Hpost Hk.
  apply applyRules_span_deleted; [exact Hpre | exact Hpost |].
  intros prev. apply exec_conventional_year. exact Hk.
Qed.

Lemma applyRules_deletes_names_witness :
  applyRules (str "born in " ++ markup (join (str " ") [str "New"; str "York"])
              ++ str ", he")
  = str "born in " ++ str ", he".
Proof.
  apply applyRules_deletes_names; try reflexivity. discriminate.
Defined.

Lemma applyRules_deletes_years_witness :
  applyRules (str "in the " ++ markup (str "1990s") ++ str " and after")
  = str "in the " ++ str " and after".
Proof. apply applyRules_deletes_years; reflexivity. Defined.

End NameShapes.

(* ================================================================== *)
(** * The keyword list *)
(* ================================================================== *)

Module KeywordsFacts.
Import Keywords.

Lemma keys_bump (k : jsstring) (m : keywordMap) :
  map fst (bump k m)
  = if has (map fst m) k then map fst m else map fst m ++ [k].
Proof.
  unfold has. induction m as [|[k' n] m IH]; [reflexivity|].
  cbn [bump map fst existsb]. rewrite (jsstring_eqb_sym k k').
  destruct (jsstring_eqb k' k); cbn [map fst orb]; [reflexivity|].
  rewrite IH. destruct (existsb (jsstring_eqb k) (map fst m)); reflexivity.
Qed.

Lemma countKeyword_fold (caps : list jsstring) :
  forall m,
    fold_left countKeyword caps m
    = fold_left (fun m k => bump k m)
        (flat_map (fun captured => match trim captured with
                                   | [] => []
                                   | c :: keyword => [normalizeKeyword (c :: keyword)]
                                   end) caps) m.
Proof.
  induction caps as [|cap caps IH]; intros m; [reflexivity|].
  cbn [fold_left flat_map]. rewrite fold_left_app, IH. unfold countKeyword.
  destruct (trim cap); reflexivity.
Qed.

Lemma filter_filter {A : Type} (p q : A -> bool) (l : list A) :
  filter p (filter q l) = filter (fun x => q x && p x) l.
Proof.
  induction l as [|x l IH]; [reflexivity|]. cbn [filter].
  destruct (q x); cbn [filter andb]; [destruct (p x)|]; rewrite IH; reflexivity.
Qed.

Lemma keys_fold (ks : list jsstring) :
  forall m,
    map fst (fold_left (fun m k => bump k m) ks m)
    = map fst m ++ filter (fun k => negb (has (map fst m) k)) (firstOccurrences ks).
Proof.
  induction ks as [|k ks IH]; intros m.
  - cbn [fold_left firstOccurrences filter]. rewrite app_nil_r. reflexivity.
  - cbn [fold_left firstOccurrences filter]. rewrite IH, keys_bump, filter_filter.
    destruct (has (map fst m) k) eqn:Hk; cbn [negb].
    + f_equal. apply filter_ext_in. intros y _.
      destruct (jsstring_eqb y k) eqn:Hy; cbn [negb andb]; [|reflexivity].
      apply jsstring_eqb_eq in Hy. subst y. rewrite Hk. reflexivity.
    + rewrite <- app_assoc. cbn [app]. do 2 f_equal.
      apply filter_ext. intros y. unfold has. rewrite existsb_app.
      cbn [existsb]. rewrite orb_false_r, negb_orb. apply andb_comm.
Qed.

Lemma keywordMapOf_keys (content : jsstring) :
  map fst (keywordMapOf content) = firstOccurrences (spanKeywords content).
Proof.
  unfold keywordMapOf. rewrite countKeyword_fold. fold (spanKeywords content).
  rewrite keys_fold. cbn [map app].
  apply filter_true. intros; reflexivity.
Qed.

(** X21: the file written lists the keywords of the spans, trimmed and
    normalised, each once and in the order of its first span, one per
    line; spans whose content is blank give nothing.  The line logged
    gives the number of keywords listed. *)
Theorem extractAndSaveKeywords_list (content outputDir : jsstring) :
  extractAndSaveKeywords content outputDir
  = (join [chr "010"] (firstOccurrences (spanKeywords content)),
     Entry INFO
       (str "Saved " ++ dec (length (firstOccurrences (spanKeywords content)))
        ++ str " keywords to " ++ outputDir) None).
Proof.
  unfold extractAndSaveKeywords.
  rewrite <- (length_map fst (keywordMapOf content)).
  rewrite keywordMapOf_keys. reflexivity.
Qed.

Lemma spanContents_segments (d : list item) :
  flat_map (fun g => match g with
                     | Span _ (Some captured) => [captured]
                     | _ => []
                     end) (segments_of d)
  = flat_map (fun i => match i with Text _ => [] | Link k => [k] end) d.
Proof.
  induction d as [|[t | k] d IH]; [reflexivity | |].
  - cbn [segments_of flat_map]. rewrite flat_map_app. fold (segments_of d).
    rewrite IH. cbn [app].
    assert (Ht : flat_map (fun g => match g with
                                    | Span _ (Some captured) => [captured]
                                    | _ => []
                                    end) (map Plain t) = []).
    { induction t as [|c t IHt]; [reflexivity | exact IHt]. }
    rewrite Ht. reflexivity.
  - cbn [segments_of flat_map app]. fold (segments_of d). rewrite IH. reflexivity.
Qed.

(** X22: for a document written as bracket-free texts and spans, the
    keywords listed are those of its spans: trimmed, normalised, each
    once, in the order of the spans. *)
Theorem extractAndSaveKeywords_document (d : list item) (outputDir : jsstring) :
  Forall item_ok d ->
  fst (extractAndSaveKeywords (render d) outputDir)
  = join [chr "010"] (firstOccurrences (documentKeywords d)).
Proof.
  intros Hok. unfold extractAndSaveKeywords. cbn [fst].
  rewrite keywordMapOf_keys. do 2 f_equal.
  unfold spanKeywords, spanContents. rewrite (matchAll_markup_doc Hok).
  rewrite spanContents_segments. unfold documentKeywords.
  clear Hok. induction d as [|[t | k] d IH]; [reflexivity | exact IH |].
  cbn [flat_map app]. rewrite IH. destruct (trim k); reflexivity.
Qed.

End KeywordsFacts.

Lemma extractAndSaveKeywords_document_witness :
  fst (Keywords.extractAndSaveKeywords
         (render [Text (str "of "); Link (str " cats "); Text (str " and ");
                  Link (str "boxes"); Link (str "cat")])
         (str "out"))
  = join [chr "010"]
         (firstOccurrences
            (documentKeywords
               [Text (str "of "); Link (str " cats "); Text (str " and ");
                Link (str "boxes"); Link (str "cat")])).
Proof.
  apply KeywordsFacts.extractAndSaveKeywords_document.
  repeat constructor; try reflexivity; discriminate.
Defined.

(* ================================================================== *)
(** * More on the backlink files *)
(* ================================================================== *)

Module BacklinksMore.
Import Backlinks BacklinksFacts.

Lemma matches_sound (r : regex) (s : jsstring) :
  Forall (Matches r) (matches r s).
Proof.
  unfold matches.
  assert (Hspans : Forall (span_has (fun m _ => Matches r m)) (matchAll r s)).
  { apply matchAll_spans. intros prev s' m cap rest He.
    apply exec_sound in He. tauto. }
  induction Hspans as [|g segs Hg Hsegs IH]; [constructor|].
  cbn [flat_map]. destruct g as [c | m cap]; cbn [app]; [exact IH|].
  constructor; [exact Hg | exact IH].
Qed.

Lemma Matches_significant_word (w : jsstring) :
  Matches re_significant_word w -> 4 <= length w /\ forallb is_word w = true.
Proof.
  unfold re_significant_word. intros H.
  apply Matches_Seq in H. destruct H as (t0 & t & -> & H0 & H).
  inversion H0; subst. cbn [app].
  apply Matches_Seq in H. destruct H as (t1 & t2 & -> & H1 & H2).
  apply Matches_Seq in H2. destruct H2 as (t3 & t4 & -> & H3 & H4).
  inversion H4; subst. rewrite app_nil_r.
  apply Matches_Star_Chr in H3.
  cbn [Rep] in H1.
  apply Matches_Seq in H1. destruct H1 as (a & r1 & -> & Ha & H1).
  apply Matches_Seq in H1. destruct H1 as (b & r2 & -> & Hb & H1).
  apply Matches_Seq in H1. destruct H1 as (c & r3 & -> & Hc & H1).
  apply Matches_Seq in H1. destruct H1 as (d & r4 & -> & Hd & H1).
  inversion H1; subst.
  apply Matches_Chr in Ha, Hb, Hc, Hd.
  destruct Ha as (a' & -> & Ha), Hb as (b' & -> & Hb),
           Hc as (c' & -> & Hc), Hd as (d' & -> & Hd).
  cbn [app length forallb]. rewrite Ha, Hb, Hc, Hd, H3.
  split; [lia | reflexivity].
Qed.

Lemma lower_ascii_word (c : jschar) :
  is_word c = true ->
  is_lower (lower_ascii c) || is_digit (lower_ascii c) || N.eqb (lower_ascii c) 95
  = true.
Proof.
  unfold is_word, lower_ascii. destruct (is_upper c) eqn:Hup.
  - intros _. unfold is_upper in Hup. apply andb_true_iff in Hup.
    destruct Hup as [H1 H2]. apply N.leb_le in H1, H2.
    assert (Hl : is_lower (c + 32)%N = true).
    { unfold is_lower. apply andb_true_iff. split; apply N.leb_le; lia. }
    rewrite Hl. reflexivity.
  - cbn [orb]. auto.
Qed.

Lemma setAdd_nodup (x : jsstring) (set : list jsstring) :
  NoDup set -> NoDup (setAdd x set).
Proof.
  intros Hnd. unfold setAdd. destruct (existsb (jsstring_eqb x) set) eqn:Hex; [exact Hnd|].
  apply NoDup_app; [exact Hnd | repeat constructor; intros [] |].
  intros y Hy [Heq | []]. subst y.
  assert (Hin : existsb (jsstring_eqb x) set = true)
    by (apply existsb_exists; exists x; split; [exact Hy | apply jsstring_eqb_refl]).
  congruence.
Qed.

Lemma setAdd_in (x y : jsstring) (set : list jsstring) :
  In y (setAdd x set) -> y = x \/ In y set.
Proof.
  unfold setAdd. destruct (existsb (jsstring_eqb x) set); [auto|].
  rewrite in_app_iff. simpl. intuition.
Qed.

(** X23: the keywords taken from a text are all different, each has
    four characters or more, and each is made of small ASCII letters,
    digits and underscores only. *)
Theorem extractKeywords_shape (content : jsstring) :
  NoDup (extractKeywords content)
  /\ Forall (fun keyword =>
               4 <= length keyword
               /\ forallb (fun c => is_lower c || is_digit c || N.eqb c 95) keyword
                  = true)
            (extractKeywords content).
Proof.
  unfold extractKeywords.
  pose proof (matches_sound re_significant_word content) as Hwords.
  assert (Hinv : NoDup (@nil jsstring)
                 /\ Forall (fun keyword =>
                              4 <= length keyword
                              /\ forallb (fun c => is_lower c || is_digit c || N.eqb c 95)
                                         keyword = true) (@nil jsstring))
    by (split; constructor).
  revert Hinv. generalize (@nil jsstring) as keywords.
  induction Hwords as [|word words Hword Hwords IH]; intros keywords Hinv;
    [exact Hinv|].
  cbn [fold_left]. apply IH. destruct Hinv as [Hnd Hall].
  destruct (negb (test re_stop_word word)); [|split; assumption].
  split; [apply setAdd_nodup, Hnd|].
  apply Forall_forall. intros y Hy. apply setAdd_in in Hy.
  destruct Hy as [-> | Hy]; [|rewrite Forall_forall in Hall; apply Hall, Hy].
  apply Matches_significant_word in Hword. destruct Hword as [Hlen Hw].
  unfold toLowerCase_ascii. rewrite length_map. split; [exact Hlen|].
  rewrite forallb_forall in Hw |- *. intros c Hc.
  apply in_map_iff in Hc. destruct Hc as (c0 & <- & Hc0).
  apply lower_ascii_word. apply Hw, Hc0.
Qed.





End BacklinksMore.

(* ================================================================== *)
(** * The scheduled run *)
(* ================================================================== *)

Module SchedulerFacts.
Import Scheduler.

Section Runs.

Variable S : Type.
Variable processMarkdown : SchedulerConfig -> jsstring -> S -> S * ending.
Variable config : SchedulerConfig.

(** X25: with a configuration that lacks the provider, the intensity or
    the timeout, no file is processed; the run logs the error "Missing
    required configuration" when the directory has a markdown file, and
    completes as usual, on zero files, when it has none. *)
Theorem runProcessing_missing_configuration
    (inputDir : list (jsstring * jsstring)) (w : world S) :
  missingConfiguration config = true ->
  runProcessing processMarkdown config inputDir w
  = {| state := state w;
       log := log w
              ++ [Entry INFO (str "Starting scheduled processing run") None;
                  match filter (fun f => endsWith (fst f) (str ".md")) inputDir with
                  | [] => Entry INFO (str "Completed processing 0 files") None
                  | _ :: _ =>
                      Entry ERROR
                        (str "Scheduled processing failed: Missing required configuration")
                        None
                  end] |}.
Proof.
  intros Hmissing. unfold runProcessing.
  destruct (filter (fun f => endsWith (fst f) (str ".md")) inputDir) as [|[file content] rest].
  - cbn [processFiles length]. unfold logged. cbn [state log].
    rewrite <- app_assoc. reflexivity.
  - cbn [processFiles]. rewrite Hmissing. unfold logged. cbn [state log].
    rewrite <- app_assoc. reflexivity.
Qed.

Lemma processFiles_resolved (done rest : list (jsstring * jsstring)) :
  missingConfiguration config = false ->
  forall w,
    allResolve processMarkdown config done (state w) ->
    processFiles processMarkdown config (done ++ rest) w
    = processFiles processMarkdown config rest
        {| state := stateAfter processMarkdown config done (state w); log := log w |}.
Proof.
  intros Hcfg. induction done as [|[file content] done IH]; intros w Hall.
  - destruct w; reflexivity.
  - cbn [app processFiles]. rewrite Hcfg. cbn [allResolve] in Hall.
    destruct Hall as [Hfile Hrest]. cbn [stateAfter].
    destruct (processMarkdown config content (state w)) as [s' e].
    cbn [fst snd] in *. subst e. rewrite IH by exact Hrest. reflexivity.
Qed.

(** X26: when the configuration is complete and the pipeline resolves
    on every markdown file, the files are processed one after the other
    in the order of the listing, and the run logs its start and
    "Completed processing n files". *)
Theorem runProcessing_completes
    (inputDir : list (jsstring * jsstring)) (w : world S) :
  let mdFiles := filter (fun f => endsWith (fst f) (str ".md")) inputDir in
  missingConfiguration config = false ->
  allResolve processMarkdown config mdFiles (state w) ->
  runProcessing processMarkdown config inputDir w
  = {| state := stateAfter processMarkdown config mdFiles (state w);
       log := log w
              ++ [Entry INFO (str "Starting scheduled processing run") None;
                  Entry INFO (str "Completed processing " ++ dec (length mdFiles)
                              ++ str " files") None] |}.
Proof.
  intros mdFiles Hcfg Hall. unfold runProcessing. fold mdFiles.
  rewrite <- (app_nil_r mdFiles) at 1.
  rewrite processFiles_resolved by assumption.
  cbn [processFiles]. unfold logged. cbn [state log].
  rewrite <- app_assoc. reflexivity.
Qed.

(** X27: the run ends at the first file on which the pipeline rejects
    or runs out of time: the files after it are not processed, nothing
    is logged for the files before it, a timeout is logged as a warning
    that names the file, and the error message closes the log. *)
Theorem runProcessing_stops_at_first_failure
    (inputDir done rest : list (jsstring * jsstring)) (file content : jsstring)
    (w : world S) (s' : S) (e : ending) :
  missingConfiguration config = false ->
  filter (fun f => endsWith (fst f) (str ".md")) inputDir
  = done ++ (file, content) :: rest ->
  allResolve processMarkdown config done (state w) ->
  processMarkdown config content (stateAfter processMarkdown config done (state w))
  = (s', e) ->
  e <> Resolved ->
  runProcessing processMarkdown config inputDir w
  = {| state := s';
       log := log w
              ++ [Entry INFO (str "Starting scheduled processing run") None]
              ++ match e with
                 | TimedOut =>
                     [Entry WARN (str "Processing timed out for " ++ file) None]
                 | _ => []
                 end
              ++ [Entry ERROR (str "Scheduled processing failed: "
                               ++ failureMessage config e) None] |}.
Proof.
  intros Hcfg Hmd Hall Hcall He. unfold runProcessing. rewrite Hmd.
  rewrite processFiles_resolved by assumption.
  cbn [processFiles]. rewrite Hcfg. cbn [state log].
  change (state (logged INFO (str "Starting scheduled processing run") w))
    with (state w).
  rewrite Hcall.
  destruct e as [|message|]; [congruence | |];
    unfold logged; cbn [state log failureMessage app];
    rewrite <- ?app_assoc; reflexivity.
Qed.

End Runs.

Lemma runProcessing_missing_configuration_witness :
  runProcessing samplePipeline
                {| provider := str "deepseek"; intensity := 0; timeoutHours := 8 |}
                sampleInput {| state := []; log := [] |}
  = {| state := [];
       log := [Entry INFO (str "Starting scheduled processing run") None;
               Entry ERROR
                 (str "Scheduled processing failed: Missing required configuration")
                 None] |}.
Proof.
  apply (@runProcessing_missing_configuration (list jsstring) samplePipeline
           {| provider := str "deepseek"; intensity := 0; timeoutHours := 8 |}
           sampleInput {| state := []; log := [] |}).
  reflexivity.
Defined.

Lemma runProcessing_completes_witness :
  runProcessing samplePipeline sampleConfig
                [(str "a.md", str "one"); (str "notes.txt", str "skip")]
                {| state := []; log := [] |}
  = {| state := [str "one"];
       log := [Entry INFO (str "Starting scheduled processing run") None;
               Entry INFO (str "Completed processing 1 files") None] |}.
Proof.
  apply (@runProcessing_completes (list jsstring) samplePipeline sampleConfig
           [(str "a.md", str "one"); (str "notes.txt", str "skip")]
           {| state := []; log := [] |}).
  - reflexivity.
  - vm_compute. auto.
Defined.

Lemma runProcessing_stops_at_first_failure_witness :
  runProcessing samplePipeline sampleConfig sampleInput {| state := []; log := [] |}
  = {| state := [str "one"; str "bad"];
       log := [Entry INFO (str "Starting scheduled processing run") None;
               Entry ERROR (str "Scheduled processing failed: boom") None] |}.
Proof.
  apply (@runProcessing_stops_at_first_failure (list jsstring) samplePipeline
           sampleConfig sampleInput [(str "a.md", str "one")]
           [(str "c.md", str "three")] (str "b.md") (str "bad")
           {| state := []; log := [] |} [str "one"; str "bad"]
           (Rejected (str "boom"))).
  - reflexivity.
  - reflexivity.
  - vm_compute. auto.
  - reflexivity.
  - discriminate.
Defined.

End SchedulerFacts.

(* ================================================================== *)
(** * The server entry point *)
(* ================================================================== *)

Module ServerFacts.
Import Server.

Section Duplicates.

Variable basenameKey : jsstring -> jsstring.

Lemma getGroup_addToGroup (k f : jsstring) (groups : Cleaner.groupMap) (k' : jsstring) :
  getGroup (Cleaner.addToGroup k f groups) k'
  = if jsstring_eqb k k' then getGroup groups k' ++ [f] else getGroup groups k'.
Proof.
  induction groups as [|[k1 ms] tl IH].
  - cbn [Cleaner.addToGroup getGroup app]. destruct (jsstring_eqb k k'); reflexivity.
  - cbn [Cleaner.addToGroup]. destruct (jsstring_eqb k1 k) eqn:H1.
    + apply jsstring_eqb_eq in H1. subst k1. cbn [getGroup].
      destruct (jsstring_eqb k k'); reflexivity.
    + cbn [getGroup]. rewrite IH.
      destruct (jsstring_eqb k1 k') eqn:H2; [|reflexivity].
      destruct (jsstring_eqb k k') eqn:H3; [|reflexivity].
      apply jsstring_eqb_eq in H2, H3. subst. rewrite jsstring_eqb_refl in H1.
      discriminate.
Qed.

Lemma getGroup_fold (l : list jsstring) (k : jsstring) :
  forall groups,
    getGroup (fold_left (fun groups f => Cleaner.addToGroup (basenameKey f) f groups)
                        l groups) k
    = getGroup groups k ++ filter (fun m => jsstring_eqb (basenameKey m) k) l.
Proof.
  induction l as [|f l IH]; intros groups.
  - cbn [fold_left filter]. rewrite app_nil_r. reflexivity.
  - cbn [fold_left filter]. rewrite IH, getGroup_addToGroup.
    destruct (jsstring_eqb (basenameKey f) k); [|reflexivity].
    rewrite <- app_assoc. reflexivity.
Qed.

Lemma getGroup_groupByKey (allFiles : list jsstring) (k : jsstring) :
  getGroup (groupByKey basenameKey allFiles) k
  = filter (fun m => jsstring_eqb (basenameKey m) k) allFiles.
Proof. unfold groupByKey. rewrite getGroup_fold. reflexivity. Qed.

Lemma setAdd_spec (x y : jsstring) (set : list jsstring) :
  In y (Backlinks.setAdd x set) <-> y = x \/ In y set.
Proof.
  unfold Backlinks.setAdd. destruct (existsb (jsstring_eqb x) set) eqn:Hex.
  - split; [auto|]. intros [-> | H]; [|exact H].
    apply existsb_exists in Hex. destruct Hex as (z & Hz & Heq).
    apply jsstring_eqb_eq in Heq. subst z. exact Hz.
  - rewrite in_app_iff. simpl. intuition.
Qed.

Lemma setAdd_distinct (x : jsstring) (set : list jsstring) :
  NoDup set -> NoDup (Backlinks.setAdd x set).
Proof.
  intros Hnd. unfold Backlinks.setAdd.
  destruct (existsb (jsstring_eqb x) set) eqn:Hex; [exact Hnd|].
  apply NoDup_app; [exact Hnd | repeat constructor; intros [] |].
  intros y Hy [Heq | []]. subst y.
  assert (Hin : existsb (jsstring_eqb x) set = true)
    by (apply existsb_exists; exists x; split; [exact Hy | apply jsstring_eqb_refl]).
  congruence.
Qed.

Lemma marked_fold (h : jsstring -> bool) (l : list jsstring) :
  forall set,
    NoDup set ->
    NoDup (fold_left (fun set file => if h file then Backlinks.setAdd file set else set)
                     l set)
    /\ forall f,
         In f (fold_left (fun set file => if h file then Backlinks.setAdd file set
                                          else set) l set)
         <-> In f set \/ (In f l /\ h f = true).
Proof.
  induction l as [|x l IH]; intros set Hnd.
  - cbn [fold_left]. split; [exact Hnd|]. intros f. simpl. tauto.
  - cbn [fold_left].
    destruct (IH (if h x then Backlinks.setAdd x set else set)) as [Hnd' Hin].
    { destruct (h x); [apply setAdd_distinct|]; exact Hnd. }
    split; [exact Hnd'|]. intros f. rewrite Hin.
    destruct (h x) eqn:Hx.
    + rewrite setAdd_spec. simpl. split.
      * intros [[-> | H] | [H1 H2]]; auto.
      * intros [H | [[<- | H1] H2]]; auto.
    + simpl. split.
      * intros [H | [H1 H2]]; auto.
      * intros [H | [[<- | H1] H2]]; auto. congruence.
Qed.

(** X28: a file is marked for deletion exactly when it is listed in the
    knowledge base, more than one scanned file has its key, and one of
    these is another path that does not start with the path of the
    knowledge base.  No file is marked twice. *)
Theorem filesToDelete_spec
    (allFiles deletePathFiles : list jsstring) (knowledgeBasePath file : jsstring) :
  let sameKey :=
    filter (fun m => jsstring_eqb (basenameKey m) (basenameKey file)) allFiles in
  NoDup (filesToDelete basenameKey allFiles deletePathFiles knowledgeBasePath)
  /\ (In file (filesToDelete basenameKey allFiles deletePathFiles knowledgeBasePath)
      <-> In file deletePathFiles
          /\ 1 < length sameKey
          /\ exists m, In m sameKey /\ m <> file
                       /\ startsWith m knowledgeBasePath = false).
Proof.
  intros sameKey. unfold filesToDelete.
  destruct (@marked_fold (hasOutsideMatch basenameKey (groupByKey basenameKey allFiles)
                            knowledgeBasePath)
              deletePathFiles [] (NoDup_nil _)) as [Hnd Hin].
  split; [exact Hnd|]. rewrite Hin. unfold hasOutsideMatch.
  rewrite getGroup_groupByKey. fold sameKey.
  rewrite andb_true_iff, Nat.ltb_lt, existsb_exists. simpl.
  split.
  - intros [[] | (Hdel & Hlen & m & Hm & Hcond)].
    apply andb_true_iff in Hcond. destruct Hcond as [Hne Hout].
    apply negb_true_iff in Hne, Hout. apply jsstring_eqb_neq in Hne.
    split; [exact Hdel|]. split; [exact Hlen|]. exists m. auto.
  - intros (Hdel & Hlen & m & Hm & Hne & Hout). right.
    split; [exact Hdel|]. split; [exact Hlen|]. exists m. split; [exact Hm|].
    apply jsstring_eqb_neq in Hne. rewrite Hne, Hout. reflexivity.
Qed.

Lemma present_removed (fs : store) (file p : jsstring) :
  present (filter (fun e => negb (jsstring_eqb (fst e) file)) fs) p
  = if jsstring_eqb p file then None else present fs p.
Proof.
  unfold present. induction fs as [|[q l] fs IH].
  - cbn [filter find]. destruct (jsstring_eqb p file); reflexivity.
  - cbn [filter fst]. destruct (jsstring_eqb q file) eqn:Hq; cbn [negb find fst].
    + apply jsstring_eqb_eq in Hq. subst q. rewrite IH.
      rewrite (jsstring_eqb_sym file p).
      destruct (jsstring_eqb p file); reflexivity.
    + destruct (jsstring_eqb q p) eqn:Hp; [|exact IH].
      apply jsstring_eqb_eq in Hp. subst q. rewrite Hq. reflexivity.
Qed.

Lemma unlinkSync_spec (file : jsstring) (fs : store) :
  snd (unlinkSync file fs) = statusOf fs file
  /\ forall p,
       present (fst (unlinkSync file fs)) p
       = if jsstring_eqb p file && deletable fs file then None else present fs p.
Proof.
  unfold unlinkSync, statusOf, deletable.
  destruct (present fs file) as [[|]|] eqn:Hfile; cbn [fst snd];
    (split; [reflexivity|]); intros p; rewrite ?andb_false_r; try reflexivity.
  rewrite andb_true_r. apply present_removed.
Qed.

Lemma deleteEach_spec (files : list jsstring) :
  forall (fs : store) (acc : list (jsstring * status)),
    NoDup files ->
    snd (deleteEach files fs acc) = acc ++ map (fun f => (f, statusOf fs f)) files
    /\ forall p,
         present (fst (deleteEach files fs acc)) p
         = if existsb (jsstring_eqb p) files && deletable fs p then None
           else present fs p.
Proof.
  induction files as [|file rest IH]; intros fs acc Hnd.
  - cbn [deleteEach fst snd map existsb andb]. rewrite app_nil_r. auto.
  - inversion Hnd as [|? ? Hnot Hrest]; subst.
    cbn [deleteEach]. destruct (unlinkSync_spec file fs) as [Hst Hfs].
    destruct (unlinkSync file fs) as [fs1 st]. cbn [fst snd] in Hst, Hfs. subst st.
    destruct (IH fs1 (acc ++ [(file, statusOf fs file)]) Hrest) as [Hres Hstore].
    assert (Hsame : forall p, p <> file -> present fs1 p = present fs p).
    { intros p Hp. rewrite Hfs. apply jsstring_eqb_neq in Hp. rewrite Hp. reflexivity. }
    split.
    + rewrite Hres, <- app_assoc. cbn [map app]. do 2 f_equal.
      apply map_ext_in. intros f Hf. unfold statusOf.
      rewrite Hsame by (intros ->; contradiction). reflexivity.
    + intros p. rewrite Hstore. cbn [existsb].
      destruct (jsstring_eqb p file) eqn:Hp.
      * apply jsstring_eqb_eq in Hp. subst p.
        replace (existsb (jsstring_eqb file) rest) with false.
        { cbn [andb orb]. rewrite Hfs, jsstring_eqb_refl. reflexivity. }
        symmetry. destruct (existsb (jsstring_eqb file) rest) eqn:Hex; [|reflexivity].
        apply existsb_exists in Hex. destruct Hex as (z & Hz & Heq).
        apply jsstring_eqb_eq in Heq. subst z. contradiction.
      * cbn [orb]. apply jsstring_eqb_neq in Hp. unfold deletable.
        rewrite !(Hsame p Hp). reflexivity.
Qed.

(** X29: every marked file is tried, in the order of marking, whatever
    happened to the ones before it: a file whose [unlinkSync] throws is
    reported with the error and the others are still deleted.  The files
    that are gone afterwards are the marked ones that could be unlinked;
    all others are as before. *)
Theorem findAndDeleteDuplicates_results
    (allFiles deletePathFiles : list jsstring) (knowledgeBasePath : jsstring)
    (fs : store) :
  let toDelete := filesToDelete basenameKey allFiles deletePathFiles knowledgeBasePath in
  let r := findAndDeleteDuplicates basenameKey allFiles deletePathFiles
                                   knowledgeBasePath fs in
  deletionResults (snd r) = map (fun f => (f, statusOf fs f)) toDelete
  /\ duplicatesFound (snd r) = length toDelete
  /\ totalFilesScanned (snd r) = length allFiles
  /\ forall p,
       present (fst r) p
       = if existsb (jsstring_eqb p) toDelete && deletable fs p then None
         else present fs p.
Proof.
  intros toDelete r. subst r. unfold findAndDeleteDuplicates. fold toDelete.
  assert (Hnd : NoDup toDelete).
  { apply (proj1 (@marked_fold _ deletePathFiles [] (NoDup_nil _))). }
  destruct (@deleteEach_spec toDelete fs [] Hnd) as [Hres Hstore].
  destruct (deleteEach toDelete fs []) as [fs' results].
  cbn [fst snd deletionResults duplicatesFound totalFilesScanned] in *.
  auto.
Qed.

End Duplicates.

End ServerFacts.

(* ================================================================== *)
(** * More on keyword normalisation *)
(* ================================================================== *)

Section NormalizeKeywordMore.

Lemma endsWith_split (s suffix : jsstring) :
  endsWith s suffix = true -> s = slice_to_minus (length suffix) s ++ suffix.
Proof.
  unfold endsWith, slice_to_minus. intros H.
  apply andb_true_iff in H. destruct H as [Hlen H]. apply jsstring_eqb_eq in H.
  apply Nat.leb_le in Hlen.
  pose proof (firstn_skipn (length s - length suffix) s) as Hcut.
  rewrite H in Hcut. symmetry. exact Hcut.
Qed.

(** A keyword in "ies" is a keyword in "es". *)
Lemma endsWith_ies_es (keyword : jsstring) :
  endsWith keyword (str "ies") = true -> endsWith keyword (str "es") = true.
Proof.
  intros H. apply endsWith_split in H. rewrite H.
  change (str "ies") with ([chr "i"] ++ str "es"). rewrite app_assoc.
  apply endsWith_app.
Qed.

(** X30: normalisation only takes a plural ending off: the result is
    the keyword without a final "es", or else without a final "s" when
    the keyword is longer than that, or else the keyword itself.  It
    never puts a character in, so a keyword in "ies" never comes out
    in "y". *)
Theorem normalizeKeyword_suffix (keyword : jsstring) :
  keyword
  = normalizeKeyword keyword
    ++ (if endsWith keyword (str "es") then str "es"
        else if endsWith keyword (str "s") && (1 <? length keyword) then str "s"
        else []).
Proof.
  unfold normalizeKeyword.
  destruct (endsWith keyword (str "s") && (1 <? length keyword)) eqn:Hs.
  - apply andb_true_iff in Hs. destruct Hs as [Hs Hlen].
    destruct (endsWith keyword (str "es")) eqn:Hes.
    + exact (endsWith_split _ _ Hes).
    + destruct (endsWith keyword (str "ies")) eqn:Hies.
      * apply endsWith_ies_es in Hies. congruence.
      * exact (endsWith_split _ _ Hs).
  - destruct (endsWith keyword (str "es")) eqn:Hes.
    + exfalso. apply andb_false_iff in Hs.
      pose proof (endsWith_split _ _ Hes) as Hk.
      assert (Hs' : endsWith keyword (str "s") = true).
      { rewrite Hk. change (str "es") with ([chr "e"] ++ str "s").
        rewrite app_assoc. apply endsWith_app. }
      assert (Hlen : (1 <? length keyword) = true).
      { apply Nat.ltb_lt. rewrite Hk, length_app. simpl. lia. }
      destruct Hs; congruence.
    + rewrite app_nil_r. reflexivity.
Qed.

End NormalizeKeywordMore.

(* ================================================================== *)
(** * Duplicate suppression inside applyRules *)
(* ================================================================== *)

Section SuppressionInApplyRules.

Lemma exec_conventional_other (prev : option jschar) (c : jschar) (s : jsstring) :
  is_upper c = false -> is_digit c = false ->
  exec re_conventional_name prev (chr "[" :: chr "[" :: c :: s) = None.
Proof.
  intros Hup Hdig. unfold exec, re_conventional_name.
  rewrite rmatch_Seq.
  change (chr "[" :: chr "[" :: c :: s) with (str "[[" ++ c :: s).
  rewrite rmatch_Lit_app, rmatch_Seq.
  cbn [rmatch Rep]. rewrite Hup, Hdig. reflexivity.
Qed.

Lemma exec_conventional_single (prev : option jschar) (c : jschar) (s : jsstring) :
  N.eqb c (chr "[") = false ->
  exec re_conventional_name prev (chr "[" :: c :: s) = None.
Proof.
  intros Hc. unfold exec, re_conventional_name.
  cbn [rmatch Lit str map list_ascii_of_string].
  fold (chr "["). rewrite N.eqb_refl, N.eqb_sym, Hc. reflexivity.
Qed.

Lemma not_bracket_plain (keyword : jsstring) :
  forallb not_bracket keyword = true -> plain (keyword ++ str "]]").
Proof.
  unfold plain. rewrite forallb_app. intros H.
  apply andb_true_iff. split; [|reflexivity].
  rewrite forallb_forall in H |- *. intros c Hc. specialize (H c Hc).
  unfold not_bracket in H. apply negb_true_iff in H. apply orb_false_iff in H.
  apply negb_true_iff. tauto.
Qed.

(** In a document whose spans the name/number filter cannot match, the
    filter finds nothing. *)
Lemma scan_conventional_doc (d : list item) :
  forall fuel prev,
    Forall item_ok d ->
    (forall keyword, In (Link keyword) d -> commonStart keyword = true) ->
    length (render d) <= fuel ->
    scan fuel re_conventional_name prev (render d) = map Plain (render d).
Proof.
  induction d as [|i d IH]; intros fuel prev Hok Hcommon Hfuel.
  - apply scan_conventional_end.
  - inversion Hok as [|? ? Hi Hd]; subst.
    assert (Hcommon' : forall keyword, In (Link keyword) d -> commonStart keyword = true)
      by (intros keyword Hk; apply Hcommon; right; exact Hk).
    destruct i as [t | keyword].
    + change (render (Text t :: d)) with (t ++ render d) in *.
      rewrite length_app in Hfuel.
      destruct (@scan_conventional_text t fuel prev (render d) Hi ltac:(lia))
        as [prev' ->].
      rewrite map_app. f_equal. apply IH; [exact Hd | exact Hcommon' | lia].
    + change (render (Link keyword :: d)) with (markup keyword ++ render d) in *.
      destruct Hi as [Hne Hnb].
      pose proof (Hcommon keyword (or_introl eq_refl)) as Hstart.
      destruct keyword as [|c keyword]; [discriminate|].
      cbn [commonStart] in Hstart. apply andb_true_iff in Hstart.
      destruct Hstart as [Hup Hdig]. apply negb_true_iff in Hup, Hdig.
      assert (Hc : N.eqb c (chr "[") = false).
      { cbn [forallb] in Hnb. apply andb_true_iff in Hnb. destruct Hnb as [Hc _].
        unfold not_bracket in Hc. apply negb_true_iff in Hc.
        apply orb_false_iff in Hc. tauto. }
      replace (markup (c :: keyword) ++ render d)
        with (chr "[" :: chr "[" :: ((c :: keyword) ++ str "]]") ++ render d) in *
        by (unfold markup; rewrite <- !app_assoc; reflexivity).
      cbn [length] in Hfuel. rewrite length_app in Hfuel.
      destruct fuel as [|[|fuel]]; try lia.
      cbn [scan]. cbn [app]. rewrite exec_conventional_other by assumption.
      cbn [scan]. rewrite exec_conventional_single by exact Hc.
      cbn [map]. do 2 f_equal.
      change (c :: (keyword ++ str "]]") ++ render d)
        with (((c :: keyword) ++ str "]]") ++ render d).
      destruct (@scan_conventional_text ((c :: keyword) ++ str "]]") fuel
                  (Some (chr "[")) (render d) (@not_bracket_plain _ Hnb) ltac:(lia))
        as [prev' ->].
      change (Plain c :: map Plain ((keyword ++ str "]]") ++ render d))
        with (map Plain (((c :: keyword) ++ str "]]") ++ render d)).
      rewrite (map_app Plain ((c :: keyword) ++ str "]]") (render d)).
      f_equal. apply IH; [exact Hd | exact Hcommon' | lia].
Qed.

Lemma skipConventionalNames_doc (d : list item) :
  Forall item_ok d ->
  (forall keyword, In (Link keyword) d -> commonStart keyword = true) ->
  skipConventionalNames (render d) = render d.
Proof.
  intros Hok Hcommon. unfold skipConventionalNames, replaceAll, matchAll.
  rewrite scan_conventional_doc by (auto; lia).
  apply replaceAll_plain.
Qed.

(** C4 (as amended): in [applyRules] duplicate suppression works on the
    text the name/number filter leaves, and the reference filter comes
    after it.  For a document written as bracket-free texts and markup
    spans, where no span content begins with a capital ASCII letter or
    a digit and the text holds no at-sign and no colon, [applyRules]
    goes through the spans from left to right: a span stays [[...]]
    markup exactly when no earlier span has its normalised form, and is
    otherwise replaced by its content, the brackets gone. *)
Theorem applyRules_keeps_first :
  (forall text,
      applyRules text
      = ignoreReferences
          (keepFirst [] (matchAll re_markup (skipConventionalNames text))))
  /\ (forall d,
        Forall item_ok d ->
        (forall keyword, In (Link keyword) d -> commonStart keyword = true) ->
        lacks "@" (render d) -> lacks ":" (render d) ->
        applyRules (render d) = keepFirst [] (segments_of d)).
Proof.
  split.
  - intros text.
    change (applyRules text)
      with (ignoreReferences (removeDuplicates (skipConventionalNames text))).
    rewrite removeDuplicates_keepFirst. reflexivity.
  - intros d Hok Hcommon Hat Hcolon.
    change (applyRules (render d))
      with (ignoreReferences (removeDuplicates (skipConventionalNames (render d)))).
    rewrite (skipConventionalNames_doc Hok Hcommon).
    rewrite ignoreReferences_id by (apply lacks_removeDuplicates; assumption).
    rewrite removeDuplicates_keepFirst, (matchAll_markup_doc Hok). reflexivity.
Qed.

Lemma applyRules_keeps_first_witness :
  applyRules (render [Link (str "cat"); Text (str " and "); Link (str "cats");
                      Text (str " and "); Link (str "cat")])
  = keepFirst [] (segments_of [Link (str "cat"); Text (str " and ");
                               Link (str "cats"); Text (str " and ");
                               Link (str "cat")])
  /\ keepFirst [] (segments_of [Link (str "cat"); Text (str " and ");
                                Link (str "cats"); Text (str " and ");
                                Link (str "cat")])
     = str "[[cat]] and cats and cat".
Proof.
  split; [|vm_compute; reflexivity].
  apply (proj2 applyRules_keeps_first).
  - repeat constructor; try reflexivity; discriminate.
  - intros keyword Hk. simpl in Hk.
    repeat (destruct Hk as [Hk | Hk]; [try discriminate; injection Hk as <-; reflexivity|]).
    destruct Hk.
  - reflexivity.
  - reflexivity.
Defined.

(** C4 as stated fails: in [applyRules] the name/number filter has
    deleted [[Cat]] and [[Cats]], content included, before duplicate
    suppression runs, so none of the three spans is left, bracketed or
    not. *)
Lemma applyRules_keeps_first_counterexample :
  applyRules (str "[[Cat]] and [[Cats]] and [[Cat]]") = str " and  and "
  /\ applyRules (str "[[Cat]] and [[Cats]] and [[Cat]]")
     <> str "[[Cat]] and Cats and Cat"
  /\ ~ (forall text, applyRules text = keepFirst [] (matchAll re_markup text)).
Proof.
  split; [vm_compute; reflexivity|].
  split; [vm_compute; discriminate|].
  intros H. specialize (H (str "[[Cat]] and [[Cats]] and [[Cat]]")).
  vm_compute in H. discriminate H.
Qed.

End SuppressionInApplyRules.
